(** * Container and utility runtime of the MDB bridging layer

    A shallow embedding of the C sources
      - [mdbtools_c/mdbfakeglib.c]        (strings, GString, GPtrArray, GList,
        GHashTable)
      - [mdbtools_c/mdbtools-missing 2.c] (transcoder, RC4; the same bodies
        are repeated in [mdbtools_c/MoneyMDBHelpers.c])
    together with the properties of the specification that concern them.

    Conventions of the embedding.
      - A byte ([char], [unsigned char]) is a [Z] in [0, 256); a cast to
        [unsigned char] is written [uchar].
      - A C array or buffer is a [list]; [a[i]] is the total lookup
        [a !!! i] and [a[i] = v] is the update [<[i:=v]> a].
      - A C string is the list of its bytes before the terminator.
      - A pointer that may be [NULL] is an [option].
      - Buffer lengths and loop counters over buffers are natural numbers:
        buffers are taken to be shorter than the range of the C index
        types, so the counters never wrap.
      - The outcome of [malloc]/[realloc] is an explicit argument of the
        functions whose failure branch is modelled.
      - The nodes of a linked structure live in a heap, a finite map from
        addresses to nodes. *)

From stdpp Require Import base tactics option list numbers strings sorting
  gmap.
From Equations Require Import Equations.
From Stdlib Require Import ZArith Lia.

Local Open Scope Z_scope.

(** The value of a [Z] after conversion to [unsigned char]. *)
Definition uchar (z : Z) : Z := z mod 256.

Definition is_byte (z : Z) : Prop := 0 ≤ z < 256.

(** * Allocation

    The reply of the allocator to one request: [None] when it returns
    [NULL], otherwise the indeterminate initial contents of the fresh
    part of the block, by offset. *)
Definition heap_reply (A : Type) : Type := option (nat → A).

(** [malloc] of [n] cells. *)
Definition malloc {A} (r : heap_reply A) (n : nat) : option (list A) :=
  (λ f, f <$> seq 0 n) <$> r.

(** [realloc] of the block [old] to [n] cells: the cells that fit are
    kept, the others are fresh.  On failure [old] is left as it is. *)
Definition realloc {A} (r : heap_reply A) (old : list A) (n : nat)
  : option (list A) :=
  (λ f, take n old ++ (f <$> seq (length old) (n - length old))) <$> r.

(** The C string that starts a buffer: its bytes before the first
    [NUL]. *)
Fixpoint string_at (buf : list Z) : list Z :=
  match buf with
  | [] => []
  | b :: buf' => if decide (b = 0) then [] else b :: string_at buf'
  end.

(** [memcpy(dst + off, src, length src)]. *)
Definition memcpy {A} (dst : list A) (off : nat) (src : list A) : list A :=
  list_inserts off src dst.

(** * Stream cipher: [mdbi_rc4] *)

Module RC4.

(** The permutation table [unsigned char s[256]]. *)
Definition table := list Z.

(** [for (i = 0; i < 256; i++) s[i] = (unsigned char)i;] *)
Definition s_init : table := (λ i : nat, uchar (Z.of_nat i)) <$> seq 0 256.

(** [t = s[i]; s[i] = s[j]; s[j] = (unsigned char)t;] *)
Definition swap (s : table) (i j : Z) : table :=
  let t := s !!! Z.to_nat i in
  let s := <[Z.to_nat i := s !!! Z.to_nat j]> s in
  <[Z.to_nat j := uchar t]> s.

(** One iteration of the key-scheduling loop, at index [i]. *)
Definition ksa_step (key : list Z) (key_len : Z) (sj : table * Z) (i : nat)
  : table * Z :=
  let '(s, j) := sj in
  let i := Z.of_nat i in
  let j := (j + s !!! Z.to_nat i + key !!! Z.to_nat (i mod key_len)) mod 256 in
  (swap s i j, j).

(** [j = 0; for (i = 0; i < 256; i++) { ... }] *)
Definition ksa (key : list Z) (key_len : Z) : table :=
  fst (foldl (ksa_step key key_len) (s_init, 0) (seq 0 256)).

(** The keystream loop [for (k = k0; k < k0 + n; k++)], from the state
    [(s, i, j)], over the buffer [data]. *)
Fixpoint prga (n : nat) (k : nat) (s : table) (i j : Z) (data : list Z)
  : list Z :=
  match n with
  | O => data
  | S n' =>
      let i := (i + 1) mod 256 in
      let j := (j + s !!! Z.to_nat i) mod 256 in
      let s := swap s i j in
      let x := s !!! Z.to_nat ((s !!! Z.to_nat i + s !!! Z.to_nat j) mod 256) in
      let data := <[k := uchar (Z.lxor (data !!! k) x)]> data in
      prga n' (S k) s i j data
  end.

(** [void mdbi_rc4(key, key_len, data, data_len)]: the contents of [data]
    on return. *)
Definition mdbi_rc4 (key : list Z) (key_len : Z)
    (data : list Z) (data_len : nat) : list Z :=
  let s := ksa key key_len in
  prga data_len 0 s 0 0 data.

End RC4.

(** * Text transcoder: [mdb_unicode2ascii], [mdb_ascii2unicode] *)

Module Iconv.

(** The body of the loop of [mdb_unicode2ascii]: the byte stored for the
    2-byte little-endian unit at offset [i] of [src]. *)
Definition unicode2ascii_unit (src : list Z) (slen : nat) (i : nat) : Z :=
  let low := uchar (src !!! i) in
  let high := if decide (i + 1 < slen)%nat
              then uchar (src !!! (i + 1)%nat) else 0 in
  if decide (high = 0 ∧ low < 128) then low
  else if decide (high = 0 ∧ low ≠ 0) then low
  else 63 (* '?' *).

(** The loop of [mdb_unicode2ascii], entered with [dlen > 0]:
    [for (...; i < slen && j < dlen - 1; i += 2) dest[j++] = ...].  It
    returns the final [j] and the destination buffer. *)
Equations? unicode2ascii_loop (src : list Z) (slen dlen : nat) (i j : nat)
    (dest : list Z) : nat * list Z by wf (slen - i)%nat lt :=
  unicode2ascii_loop src slen dlen i j dest
    with decide (i < slen ∧ j < dlen - 1)%nat => {
    | left _ =>
        unicode2ascii_loop src slen dlen (i + 2) (S j)
          (<[j := unicode2ascii_unit src slen i]> dest)
    | right _ => (j, dest) }.
Proof. lia. Qed.

(** [int mdb_unicode2ascii(mdb, src, slen, dest, dlen)]: the returned
    count [(int)j] and the contents of [dest] on return; [mdb] is not
    used. *)
Definition mdb_unicode2ascii (src : option (list Z)) (slen : nat)
    (dest : option (list Z)) (dlen : nat) : Z * option (list Z) :=
  match src, dest with
  | Some s, Some d =>
      if decide (dlen = 0%nat) then (0, Some d)
      else
        let '(j, d) := unicode2ascii_loop s slen dlen 0 0 d in
        (Z.of_nat j, Some (<[j := 0]> d))
  | _, _ =>
      (* [if (dest && dlen > 0) dest[0] = 0; return 0;] *)
      (0, (λ d, if decide (0 < dlen)%nat then <[0%nat := 0]> d else d) <$> dest)
  end.

(** The loop of [mdb_ascii2unicode], entered with [dlen > 0]:
    [for (...; i < slen && j < dlen - 1; i++) if (j + 1 < dlen) {...}]. *)
Equations? ascii2unicode_loop (src : list Z) (slen dlen : nat) (i j : nat)
    (dest : list Z) : nat * list Z by wf (slen - i)%nat lt :=
  ascii2unicode_loop src slen dlen i j dest
    with decide (i < slen ∧ j < dlen - 1)%nat => {
    | left _ =>
        if decide (j + 1 < dlen)%nat
        then ascii2unicode_loop src slen dlen (S i) (j + 2)
               (<[S j := 0]> (<[j := src !!! i]> dest))
        else ascii2unicode_loop src slen dlen (S i) j dest
    | right _ => (j, dest) }.
Proof. all: lia. Qed.

(** [int mdb_ascii2unicode(mdb, src, slen, dest, dlen)]. *)
Definition mdb_ascii2unicode (src : option (list Z)) (slen : nat)
    (dest : option (list Z)) (dlen : nat) : Z * option (list Z) :=
  match src, dest with
  | Some s, Some d =>
      if decide (dlen = 0%nat) then (0, Some d)
      else
        let '(j, d) := ascii2unicode_loop s slen dlen 0 0 d in
        (Z.of_nat j, Some d)
  | _, _ => (0, dest)
  end.

(** What the loop of [mdb_unicode2ascii] does from the state
    [(i, j, dest)], as a relation to its result [(j', dest')]: the number
    of bytes stored, the bytes left alone, and the bytes stored. *)
Definition u2a_post (src : list Z) (slen dlen i j : nat) (dest : list Z)
    (res : nat * list Z) : Prop :=
  let '(j', dest') := res in
  j' = (j + Nat.min ((slen - i + 1) / 2) (dlen - 1 - j))%nat ∧
  length dest' = length dest ∧
  (∀ idx : nat, (idx < j ∨ j' ≤ idx)%nat → dest' !! idx = dest !! idx) ∧
  (∀ m : nat, (j + m < j')%nat → (j + m < length dest)%nat →
     dest' !! (j + m)%nat = Some (unicode2ascii_unit src slen (i + 2 * m))).

(** The same for the loop of [mdb_ascii2unicode], which stores [n]
    units of two bytes. *)
Definition a2u_post (src : list Z) (slen dlen i j : nat) (dest : list Z)
    (res : nat * list Z) : Prop :=
  let '(j', dest') := res in
  (∃ n : nat, j' = (j + 2 * n)%nat ∧ (n ≤ slen - i)%nat ∧
     ((2 * (slen - i) + j ≤ dlen)%nat → n = (slen - i)%nat) ∧
     (∀ m : nat, (m < n)%nat → (j + 2 * m + 1 < length dest)%nat →
        dest' !! (j + 2 * m)%nat = Some (src !!! (i + m)%nat) ∧
        dest' !! (j + 2 * m + 1)%nat = Some 0)) ∧
  ((j ≤ dlen)%nat → (j' ≤ dlen)%nat) ∧
  length dest' = length dest ∧
  (∀ idx : nat, (idx < j ∨ j' ≤ idx)%nat → dest' !! idx = dest !! idx).

End Iconv.

(** * String utilities: [g_strdup], [g_strndup], [g_strsplit],
    [g_utf8_casefold], [g_strconcat], [g_strdelimit] *)

Module Str.

(** A C string, by its bytes before the terminator. *)
Definition cstring := list Z.

(** C library [strstr(p, needle)]: the offset in [p] of the first
    occurrence of [needle], or [None] for [NULL]. *)
Fixpoint strstr (p needle : cstring) : option nat :=
  if bool_decide (needle `prefix_of` p) then Some 0%nat
  else match p with
       | [] => None
       | _ :: p' => S <$> strstr p' needle
       end.

(** The bytes in memory of the string [s]: its bytes and its
    terminator. *)
Definition terminated (s : cstring) : list Z := s ++ [0].

(** [char *g_strdup(const char *src)]: the block returned, [None] for
    [NULL]; [r] is the reply of [malloc]. *)
Definition g_strdup (r : heap_reply Z) (src : option cstring)
  : option (list Z) :=
  match src with
  | None => None
  | Some s =>
      let len := (length s + 1)%nat in
      dest ← malloc r len;
      Some (memcpy dest 0 (take len (terminated s)))
  end.

(** [char *g_strndup(const char *src, size_t len)]: the block returned,
    [None] for [NULL]; [r] is the reply of [malloc].  The bytes that
    [memcpy] reads at [src] are those of the string and of its
    terminator. *)
Definition g_strndup (r : heap_reply Z) (src : option cstring) (len : nat)
  : option (list Z) :=
  match src with
  | None => None
  | Some s =>
      dest ← malloc r (len + 1);
      Some (<[len := 0]> (memcpy dest 0 (take len (terminated s))))
  end.

(** A value together with the equation that produced it, for the loops
    whose termination depends on the value tested. *)
Definition inspect {A} (a : A) : {b : A | a = b} := exist _ a eq_refl.

(** The counting loop of [g_strsplit], for the non-empty needle
    [c :: rest]:
    [while ((p = strstr(p, needle)) != NULL
            && (max_tokens <= 0 || count < max_tokens))
       { count++; p += needle_len; }] *)
Equations? count_tokens (c : Z) (rest : cstring) (max_tokens : Z)
    (count : Z) (p : cstring) : Z by wf (length p) lt :=
  count_tokens c rest max_tokens count p
    with inspect (strstr p (c :: rest)) => {
    | exist _ (Some off) Hoff =>
        if bool_decide (max_tokens ≤ 0 ∨ count < max_tokens)
        then count_tokens c rest max_tokens (count + 1)
               (drop (off + length (c :: rest)) p)
        else count
    | exist _ None _ => count }.
Proof.
  assert (Hlen : ∀ q n o, strstr q n = Some o → (o + length n ≤ length q)%nat).
  { clear. induction q as [|x q IH]; intros n o; simpl.
    - case_bool_decide as Hp; [|discriminate].
      intros [= <-]. apply prefix_length in Hp. simpl in *. lia.
    - case_bool_decide as Hp.
      + intros [= <-]. apply prefix_length in Hp. simpl in *. lia.
      + destruct (strstr q n) as [o'|] eqn:E; simpl; [|discriminate].
        intros [= <-]. specialize (IH _ _ E). lia. }
  specialize (Hlen _ _ _ Hoff). rewrite length_drop. simpl in *. lia.
Qed.

(** The filling loop of [g_strsplit], with [n] iterations left before
    [i] reaches [count]:
    [for (; i < count; i++) { next = strstr(p, needle); ... }]
    Iteration [i] makes one allocation, to which [malloc] replies
    [rs i]; what [g_strdup] or [g_strndup] returns is stored as it is,
    [NULL] included. *)
Fixpoint fill_tokens (n : nat) (needle : cstring) (max_tokens : Z)
    (i : nat) (p : cstring) (result : list (option (list Z)))
    (rs : nat → heap_reply Z) : list (option (list Z)) :=
  match n with
  | O => result
  | S n' =>
      match strstr p needle with
      | Some off =>
          if bool_decide (0 < max_tokens ∧ Z.of_nat i = max_tokens - 1)
          then <[i := g_strdup (rs i) (Some p)]> result
          else fill_tokens n' needle max_tokens (S i)
                 (drop (off + length needle) p)
                 (<[i := g_strndup (rs i) (Some p) off]> result) rs
      | None => <[i := g_strdup (rs i) (Some p)]> result
      end
  end.

(** [char **g_strsplit(haystack, needle, max_tokens)]: [None] for a
    [NULL] return, otherwise the [count + 1] slots of the result vector;
    a slot holds the block of a token, or is [None] when it holds
    [NULL].  [ok] tells whether [calloc] grants the vector, and [rs i]
    is the reply of [malloc] for the token of index [i]. *)
Definition g_strsplit (ok : bool) (rs : nat → heap_reply Z)
    (haystack needle : option cstring) (max_tokens : Z)
  : option (list (option (list Z))) :=
  match haystack, needle with
  | Some h, Some nd =>
      match nd with
      | [] => None
      | c :: rest =>
          let count := count_tokens c rest max_tokens 1 h in
          if ok then
            let result := replicate (Z.to_nat (count + 1)) None in
            Some (fill_tokens (Z.to_nat count) nd max_tokens 0 h result rs)
          else None
      end
  | _, _ => None
  end.

(** The blocks of a [NULL]-terminated vector, as [g_strfreev] walks it:
    [for (i = 0; str_array[i]; i++)]. *)
Fixpoint strv (v : list (option (list Z))) : list (list Z) :=
  match v with
  | Some s :: v' => s :: strv v'
  | _ => []
  end.

(** The allocations of the first [n] tokens are granted. *)
Definition granted (rs : nat → heap_reply Z) (n : nat) : Prop :=
  ∀ i : nat, (i < n)%nat → is_Some (rs i).

(** [needle] occurs in [s]. *)
Definition occurs (needle s : cstring) : Prop :=
  ∃ pre post : cstring, s = pre ++ needle ++ post.

(** The first occurrence of [needle] in [s] comes right after [field],
    and [rest] is what follows that occurrence. *)
Definition first_cut (needle s field rest : cstring) : Prop :=
  s = field ++ needle ++ rest ∧
  ∀ pre post : cstring, s = pre ++ needle ++ post →
    (length field ≤ length pre)%nat.

(** Reference model of the delimiter-separated fields, following the
    words of the specification: [fields needle s fs r] when [s] is the
    fields [fs], each followed by an occurrence of [needle], and then the
    remaining text [r].  The occurrences are taken from left to right,
    each the first one in the text that remains, so they do not overlap:
    [s] has at least [length fs] occurrences of [needle]. *)
Inductive fields (needle : cstring) : cstring → list cstring → cstring → Prop :=
  | fields_nil (s : cstring) : fields needle s [] s
  | fields_cons (s field s' : cstring) (fs : list cstring) (r : cstring) :
      first_cut needle s field s' →
      fields needle s' fs r →
      fields needle s (field :: fs) r.

(** The bytes of a string literal. *)
Definition lit (s : string) : cstring :=
  (λ a, Z.of_N (Ascii.N_of_ascii a)) <$> String.list_ascii_of_string s.


(** C library [tolower] in the "C" locale. *)
Definition tolower (c : Z) : Z :=
  if decide (65 ≤ c ≤ 90) then c + 32 else c.

(** The loop of [g_utf8_casefold], [n] iterations left:
    [for (...; i < len; i++) result[i] = tolower((unsigned char)str[i]);] *)
Fixpoint casefold_loop (n i : nat) (str result : list Z) : list Z :=
  match n with
  | O => result
  | S n' =>
      casefold_loop n' (S i) str (<[i := tolower (uchar (str !!! i))]> result)
  end.

(** [gchar *g_utf8_casefold(const gchar *str, gssize len)]: the block
    returned, [None] for [NULL].  [str] is the memory at the pointer,
    terminator and the bytes after it included: [strlen(str)] is the
    length of the string that starts it, and a positive [len] may reach
    past the terminator. *)
Definition g_utf8_casefold (r : heap_reply Z) (str : option (list Z))
    (len : Z) : option (list Z) :=
  match str with
  | None => None
  | Some s =>
      let len := if decide (len < 0) then length (string_at s)
                 else Z.to_nat len in
      result ← malloc r (len + 1);
      Some (<[len := 0]> (casefold_loop len 0 s result))
  end.

(** [gchar *g_utf8_strdown(const gchar *str, gssize len)]. *)
Definition g_utf8_strdown (r : heap_reply Z) (str : option (list Z))
    (len : Z) : option (list Z) :=
  g_utf8_casefold r str len.

(** C library [strcpy(dst, src)] and [strcat(dst, src)] on a block. *)
Definition strcpy (dst : list Z) (src : cstring) : list Z :=
  memcpy dst 0 (src ++ [0]).

Definition strcat (dst : list Z) (src : cstring) : list Z :=
  memcpy dst (length (string_at dst)) (src ++ [0]).

(** The first loop of [g_strconcat] over the arguments that follow
    [first], which adds [strlen(str)] to [total_len] for each argument
    up to the first [NULL]. *)
Fixpoint strconcat_len (args : list (option cstring)) : nat :=
  match args with
  | Some str :: args' => (length str + strconcat_len args')%nat
  | _ => 0%nat
  end.

(** The second loop, which calls [strcat(result, str)] for each of
    them. *)
Fixpoint strconcat_fill (args : list (option cstring)) (result : list Z)
  : list Z :=
  match args with
  | Some str :: args' => strconcat_fill args' (strcat result str)
  | _ => result
  end.

(** [char *g_strconcat(const char *first, ...)]: the block returned. *)
Definition g_strconcat (r : heap_reply Z) (first : option cstring)
    (args : list (option cstring)) : option (list Z) :=
  match first with
  | None => None
  | Some f =>
      let total_len := (length f + strconcat_len args)%nat in
      result ← malloc r (total_len + 1);
      Some (strconcat_fill args (strcpy result f))
  end.

(** The loop of [g_strdelimit] over the bytes of the string:
    [for (p = string; *p; p++) if (strchr(delimiters, *p)) *p = new_delimiter;]
    The bytes tested are those the string had on entry, up to its
    terminator. *)
Fixpoint strdelimit_loop (delimiters : cstring) (new_delimiter : Z)
    (string : cstring) : list Z :=
  match string with
  | [] => []
  | c :: string' =>
      (if bool_decide (c ∈ delimiters) then new_delimiter else c)
        :: strdelimit_loop delimiters new_delimiter string'
  end.

(** [gchar *g_strdelimit(gchar *string, const gchar *delimiters,
    gchar new_delimiter)]: the bytes that are, on return, where the bytes
    of [string] were; the terminator after them is not written.  The
    macro [G_STR_DELIMITERS] is defined in [mdbfakeglib.h], which is not
    among the sources, and is an argument here. *)
Definition g_strdelimit (G_STR_DELIMITERS : cstring)
    (string delimiters : option cstring) (new_delimiter : Z)
  : option (list Z) :=
  match string with
  | None => None
  | Some s =>
      let default_delimiters := G_STR_DELIMITERS in
      let delimiters := default default_delimiters delimiters in
      Some (strdelimit_loop delimiters new_delimiter s)
  end.

End Str.

(** * Growable string buffer: [GString] *)

Module GStr.
Import Str.

(** Modelled from the spec: the declaration of [GString] is in
    [mdbfakeglib.h], which is not among the sources.  The fields are
    those of the data model that the functions use: [string->str], the
    whole backing block here, [string->len] and
    [string->allocated_len]. *)
Record GString : Type := MkGString {
  str : list Z;
  len : nat;
  allocated_len : nat
}.

(** [GString *g_string_new(const gchar *init)]; [ok] tells whether the
    record itself could be allocated, [r] is the reply for the block. *)
Definition g_string_new (ok : bool) (r : heap_reply Z) (init : option cstring)
  : option GString :=
  if ok then
    match init with
    | Some s =>
        let len := length s in
        let allocated_len := (len + 1)%nat in
        str ← malloc r allocated_len;
        Some (MkGString (memcpy str 0 (s ++ [0])) len allocated_len)
    | None =>
        str ← malloc r 16;
        Some (MkGString (<[0%nat := 0]> str) 0 16)
    end
  else None.

(** [GString *g_string_assign(GString *string, const gchar *rval)]: the
    returned pointer with the state of the buffer behind it.  When the
    result is [None] for a buffer that exists, that buffer is unchanged. *)
Definition g_string_assign (r : heap_reply Z) (string : option GString)
    (rval : option cstring) : option GString :=
  s ← string;
  let len := from_option length 0%nat rval in
  s ← (if decide (allocated_len s < len + 1)%nat then
         new_str ← realloc r (str s) (len + 1);
         Some (MkGString new_str (GStr.len s) (len + 1))
       else Some s);
  let str := match rval with
             | Some v => memcpy (str s) 0 (v ++ [0])
             | None => <[0%nat := 0]> (str s)
             end in
  Some (MkGString str len (allocated_len s)).

(** [GString *g_string_append(GString *string, const gchar *val)]. *)
Definition g_string_append (r : heap_reply Z) (string : option GString)
    (val : option cstring) : option GString :=
  match string, val with
  | Some s, Some v =>
      let val_len := length v in
      let new_len := (len s + val_len)%nat in
      s ← (if decide (allocated_len s < new_len + 1)%nat then
             let new_allocated := ((new_len + 1) * 2)%nat in
             new_str ← realloc r (str s) new_allocated;
             Some (MkGString new_str (len s) new_allocated)
           else Some s);
      Some (MkGString (memcpy (str s) (len s) (v ++ [0])) new_len
              (allocated_len s))
  | _, _ => string
  end.

(** The operations of a client on one buffer. *)
Inductive op : Type :=
  | Assign (r : heap_reply Z) (rval : option cstring)
  | Append (r : heap_reply Z) (val : option cstring).

Definition step (string : option GString) (o : op) : option GString :=
  match o with
  | Assign r rval => g_string_assign r string rval
  | Append r val => g_string_append r string val
  end.

(** The buffer after each operation of [ops], in order, as long as the
    calls return the buffer; [None] as soon as one returns [NULL]. *)
Fixpoint run (s : GString) (ops : list op) : option (list GString) :=
  match ops with
  | [] => Some []
  | o :: ops' =>
      s' ← step (Some s) o;
      rest ← run s' ops';
      Some (s' :: rest)
  end.

(** The logical content of a buffer: the [len] bytes before the
    terminator. *)
Definition content (s : GString) : cstring := take (len s) (str s).

(** The invariant of the data model: the block has [allocated_len]
    bytes, [allocated_len >= len + 1], and the terminator is stored at
    [str[len]]. *)
Definition well_formed (s : GString) : Prop :=
  length (str s) = allocated_len s ∧
  (len s + 1 ≤ allocated_len s)%nat ∧
  str s !! len s = Some 0.

(** No request of the operation is refused by the allocator. *)
Definition alloc_ok (o : op) : Prop :=
  match o with
  | Assign r _ | Append r _ => is_Some r
  end.

(** Reference model, following the words of the specification: assign
    replaces the content, append concatenates. *)
Definition ref_step (c : cstring) (o : op) : cstring :=
  match o with
  | Assign _ rval => default [] rval
  | Append _ val => c ++ default [] val
  end.

(** The reference content after each operation of [ops]. *)
Fixpoint ref_run (c : cstring) (ops : list op) : list cstring :=
  match ops with
  | [] => []
  | o :: ops' => let c' := ref_step c o in c' :: ref_run c' ops'
  end.

(** [gchar *g_string_free(GString *string, gboolean free_segment)]: the
    block handed to the caller, [None] for [NULL]. *)
Definition g_string_free (string : option GString) (free_segment : bool)
  : option (list Z) :=
  match string with
  | None => None
  | Some s => if free_segment then None else Some (str s)
  end.

(** The strings that an operation passes hold no [NUL]. *)
Definition op_strings_ok (o : op) : Prop :=
  match o with
  | Assign _ rval => Forall (λ b, b ≠ 0) (default [] rval)
  | Append _ val => Forall (λ b, b ≠ 0) (default [] val)
  end.

(** The bytes that the operation needs, terminator included. *)
Definition needed (s : GString) (o : op) : nat :=
  match o with
  | Assign _ rval => (length (default [] rval) + 1)%nat
  | Append _ val => (len s + length (default [] val) + 1)%nat
  end.

End GStr.

(** * Dynamic pointer array: [GPtrArray] *)

Module PArr.

(** Modelled from the spec: the declaration of [GPtrArray] is in
    [mdbfakeglib.h], which is not among the sources.  The fields are
    those of the data model that the functions use: [array->pdata], the
    whole backing block here ([[]] for the [NULL] block of a new array),
    and [array->len], the number of its slots in use. *)
Record GPtrArray (A : Type) : Type := MkGPtrArray {
  pdata : list A;
  len : nat
}.
Arguments MkGPtrArray {A} _ _.
Arguments pdata {A} _.
Arguments len {A} _.

(** The inner loop of the removals, with [n] iterations left:
    [for (j = i; j < len - 1; j++) pdata[j] = pdata[j + 1];] *)
Fixpoint shift_left {A} `{Inhabited A} (n : nat) (j : nat) (pdata : list A)
  : list A :=
  match n with
  | O => pdata
  | S n' => shift_left n' (S j) (<[j := pdata !!! S j]> pdata)
  end.

Section ptr_array.
Context {A : Type} `{EqDecision A, Inhabited A}.

(** [GPtrArray *g_ptr_array_new(void)]. *)
Definition g_ptr_array_new (ok : bool) : option (GPtrArray A) :=
  if ok then Some (MkGPtrArray [] 0) else None.

(** [void g_ptr_array_add(GPtrArray *array, void *entry)]: the array
    after the call. *)
Definition g_ptr_array_add (r : heap_reply A) (array : option (GPtrArray A))
    (entry : A) : option (GPtrArray A) :=
  a ← array;
  match realloc r (pdata a) (len a + 1) with
  | None => Some a
  | Some new_pdata =>
      Some (MkGPtrArray (<[len a := entry]> new_pdata) (len a + 1))
  end.

(** The scan of [g_ptr_array_remove], with [n] iterations left before [i]
    reaches [len]. *)
Fixpoint remove_loop (n : nat) (i : nat) (a : GPtrArray A) (data : A)
  : bool * GPtrArray A :=
  match n with
  | O => (false, a)
  | S n' =>
      if decide (pdata a !!! i = data)
      then (true, MkGPtrArray (shift_left (len a - 1 - i) i (pdata a))
                    (len a - 1))
      else remove_loop n' (S i) a data
  end.

(** [gboolean g_ptr_array_remove(GPtrArray *array, gpointer data)]: the
    result and the array after the call. *)
Definition g_ptr_array_remove (array : option (GPtrArray A)) (data : A)
  : bool * option (GPtrArray A) :=
  match array with
  | None => (false, None)
  | Some a => let '(b, a) := remove_loop (len a) 0 a data in (b, Some a)
  end.

(** The handles in use, in index order, as [g_ptr_array_foreach] visits
    them. *)
Definition elements (a : GPtrArray A) : list A := take (len a) (pdata a).

(** The invariant of the data model: [len] never exceeds the number of
    slots of the backing block. *)
Definition well_formed (a : GPtrArray A) : Prop :=
  (len a ≤ length (pdata a))%nat.

(** The operations of a client on one array. *)
Inductive op : Type :=
  | Add (r : heap_reply A) (entry : A)
  | Remove (data : A).

Definition step (array : option (GPtrArray A)) (o : op)
  : option (GPtrArray A) :=
  match o with
  | Add r entry => g_ptr_array_add r array entry
  | Remove data => snd (g_ptr_array_remove array data)
  end.

(** The handles that the [Add] operations of [ops] pass, in order. *)
Definition added (ops : list op) : list A :=
  omap (λ o, match o with Add _ entry => Some entry | Remove _ => None end) ops.

(** The loop of [g_ptr_array_foreach], with [n] iterations left, for a
    callback that acts on its [user_data] only: the [user_data] after
    the calls.
    [for (i = 0; i < array->len; i++) function(array->pdata[i], user_data);] *)
Fixpoint ptr_array_foreach_loop {U : Type} (function : A → U → U)
    (n i : nat) (pdata : list A) (user_data : U) : U :=
  match n with
  | O => user_data
  | S n' =>
      ptr_array_foreach_loop function n' (S i) pdata
        (function (pdata !!! i) user_data)
  end.

(** [void g_ptr_array_foreach(array, function, user_data)]. *)
Definition g_ptr_array_foreach {U : Type} (array : option (GPtrArray A))
    (function : option (A → U → U)) (user_data : U) : U :=
  match array, function with
  | Some a, Some f => ptr_array_foreach_loop f (len a) 0 (pdata a) user_data
  | _, _ => user_data
  end.

(** The inner loop of [g_ptr_array_sort], with [n] iterations left:
    [for (...; j < len - i - 1; j++)
       if (func(pdata[j], pdata[j + 1]) > 0) { swap the two slots }] *)
Fixpoint sort_pass (func : A → A → Z) (n j : nat) (pdata : list A) : list A :=
  match n with
  | O => pdata
  | S n' =>
      let pdata :=
        if decide (0 < func (pdata !!! j) (pdata !!! S j))
        then let temp := pdata !!! j in
             <[S j := temp]> (<[j := pdata !!! S j]> pdata)
        else pdata in
      sort_pass func n' (S j) pdata
  end.

(** The outer loop of [g_ptr_array_sort], with [n] iterations left:
    [for (...; i < len - 1; i++) { the inner loop }] *)
Fixpoint sort_passes (func : A → A → Z) (n i : nat) (len : nat)
    (pdata : list A) : list A :=
  match n with
  | O => pdata
  | S n' =>
      sort_passes func n' (S i) len (sort_pass func (len - i - 1) 0 pdata)
  end.

(** [void g_ptr_array_sort(GPtrArray *array, GCompareFunc func)]: the
    array after the call, for a comparison that only reads. *)
Definition g_ptr_array_sort (array : option (GPtrArray A))
    (func : option (A → A → Z)) : option (GPtrArray A) :=
  match array, func with
  | Some a, Some f =>
      if decide (len a ≤ 1)%nat then Some a
      else Some (MkGPtrArray (sort_passes f (len a - 1) 0 (len a) (pdata a))
                   (len a))
  | _, _ => array
  end.

(** One pass of the inner loop over the list [x :: l], [x] being the
    element carried along. *)
Fixpoint bubble (func : A → A → Z) (x : A) (l : list A) : list A :=
  match l with
  | [] => [x]
  | y :: l' =>
      if decide (0 < func x y) then y :: bubble func x l'
      else x :: bubble func y l'
  end.

(** The comparison puts [x] before [y], or makes them equal. *)
Definition precedes (func : A → A → Z) (x y : A) : Prop := func x y ≤ 0.

(** The comparison is a total preorder. *)
Definition total_preorder (func : A → A → Z) : Prop :=
  (∀ x y, precedes func x y ∨ precedes func y x) ∧
  (∀ x y z, precedes func x y → precedes func y z → precedes func x z).

End ptr_array.
End PArr.

(** * Doubly-linked list: [GList] *)

Module GLst.

Section g_list.
Context {A : Type} `{EqDecision A}.

(** The address of a node. *)
Definition loc := nat.

(** Modelled from the spec: the declaration of [GList] is in
    [mdbfakeglib.h], which is not among the sources.  The fields are
    those of the data model that the functions use: [node->data],
    [node->next] and [node->prev]. *)
Record GList : Type := MkGList {
  data : A;
  next : option loc;
  prev : option loc
}.

(** The nodes that are allocated, by address. *)
Definition heap := gmap loc GList.

(** The functions on lists return [None] when the call does not return
    normally: it reads through a pointer to no node, or a loop goes on
    after the iterations it is given, as it does for ever on a list
    that is cyclic. *)

(** [node->data = v], [node->next = v] and [node->prev = v]. *)
Definition set_data (h : heap) (node : loc) (v : A) : option heap :=
  c ← h !! node; Some (<[node := MkGList v (next c) (prev c)]> h).

Definition set_next (h : heap) (node : loc) (v : option loc) : option heap :=
  c ← h !! node; Some (<[node := MkGList (data c) v (prev c)]> h).

Definition set_prev (h : heap) (node : loc) (v : option loc) : option heap :=
  c ← h !! node; Some (<[node := MkGList (data c) (next c) v]> h).

(** The loop of [g_list_last] from a node [list], with [n] further
    iterations: [while (list->next) list = list->next;] *)
Fixpoint last_loop (n : nat) (h : heap) (list : loc) : option loc :=
  match h !! list with
  | None => None
  | Some c =>
      match next c with
      | None => Some list
      | Some list' =>
          match n with
          | O => None
          | S n' => last_loop n' h list'
          end
      end
  end.

(** [GList *g_list_last(GList *list)]. *)
Definition g_list_last (n : nat) (h : heap) (list : option loc)
  : option (option loc) :=
  match list with
  | None => Some None
  | Some l => Some <$> last_loop n h l
  end.

(** [GList *g_list_append(GList *list, void *data)]: the heap and the
    pointer returned.  [r] is the reply of [malloc]: [None] for [NULL],
    otherwise the address of the new node and its indeterminate
    contents. *)
Definition g_list_append (n : nat) (r : option (loc * GList)%type) (h : heap)
    (list : option loc) (d : A) : option (heap * option loc)%type :=
  match r with
  | None => Some (h, list)
  | Some (new_node, c) =>
      let h := <[new_node := c]> h in
      h ← set_data h new_node d;
      h ← set_next h new_node None;
      match list with
      | None =>
          h ← set_prev h new_node None;
          Some (h, Some new_node)
      | Some _ =>
          last ← g_list_last n h list;
          match last with
          | None => None
          | Some last =>
              h ← set_next h last (Some new_node);
              h ← set_prev h new_node (Some last);
              Some (h, list)
          end
      end
  end.

(** The loop of [g_list_remove] at [node], with [n] further iterations:
    [while (node) { if (node->data == data) {...; return result;}
                    node = node->next; } return list;] *)
Fixpoint list_remove_loop (n : nat) (h : heap) (list node : option loc) (d : A)
  : option (heap * option loc)%type :=
  match node with
  | None => Some (h, list)
  | Some nd =>
      match h !! nd with
      | None => None
      | Some c =>
          if decide (data c = d) then
            h ← match prev c with
                 | Some p => c ← h !! nd; set_next h p (next c)
                 | None => Some h
                 end;
            c ← h !! nd;
            h ← match next c with
                 | Some nx => set_prev h nx (prev c)
                 | None => Some h
                 end;
            c ← h !! nd;
            let result := if decide (node = list) then next c else list in
            Some (delete nd h, result)
          else
            match n with
            | O => None
            | S n' => list_remove_loop n' h list (next c) d
            end
      end
  end.

(** [GList *g_list_remove(GList *list, void *data)]. *)
Definition g_list_remove (n : nat) (h : heap) (list : option loc) (d : A)
  : option (heap * option loc)%type :=
  list_remove_loop n h list list d.

(** [void g_list_free(GList *list)], with [n] iterations of its loop:
    [while (list) { next = list->next; free(list); list = next; }] *)
Fixpoint g_list_free (n : nat) (h : heap) (list : option loc) : option heap :=
  match list with
  | None => Some h
  | Some l =>
      match h !! l with
      | None => None
      | Some c =>
          match n with
          | O => None
          | S n' => g_list_free n' (delete l h) (next c)
          end
      end
  end.

(** The address of the first of a sequence of nodes, [None] when there
    is none. *)
Definition first_loc (xs : list (loc * A)%type) : option loc :=
  fst <$> head xs.

(** The address of the last of them, [p] when there is none. *)
Definition last_loc (p : option loc) (xs : list (loc * A)%type) : option loc :=
  from_option (λ lx, Some lx.1) p (last xs).

(** The nodes [xs], each with its address and its payload, are chained
    in the heap from [hd] on, after the node [p]: each node's [next] is
    the node that follows, [NULL] for the last, and each node's [prev]
    is the node before, [p] for the first. *)
Fixpoint chain (h : heap) (p hd : option loc) (xs : list (loc * A)%type) : Prop :=
  match xs with
  | [] => hd = None
  | (l, x) :: xs' =>
      hd = Some l ∧
      h !! l = Some (MkGList x (first_loc xs') p) ∧
      chain h (Some l) (first_loc xs') xs'
  end.

(** [hd] points to a well-formed list of the nodes [xs]: they are
    chained from [hd], the first has no [prev], and they are distinct. *)
Definition is_list (h : heap) (hd : option loc) (xs : list (loc * A)%type)
  : Prop :=
  chain h None hd xs ∧ NoDup xs.*1.

(** The nodes without the first whose payload is [d]. *)
Fixpoint remove_first (d : A) (xs : list (loc * A)%type) : list (loc * A)%type :=
  match xs with
  | [] => []
  | (l, x) :: xs' => if decide (x = d) then xs' else (l, x) :: remove_first d xs'
  end.

End g_list.

Arguments GList : clear implicits.
Arguments heap : clear implicits.

End GLst.

(** * Associative container: [GHashTable] *)

Module HTab.
Import PArr.

Section hash_table.
Context {A : Type} (NULL : A).

(** [typedef struct { void *key; void *value; } HashEntry;] *)
Record HashEntry : Type := MkHashEntry {
  key : A;
  value : A
}.

(** A slot of the table's array: a pointer to an entry record, [None]
    for [NULL].  Every record is pointed to by one slot in use (a slot
    past [len] may keep a stale pointer, which is never read), so the
    slot carries the record. *)
Definition slot : Type := option HashEntry.

(** Modelled from the spec: the declaration of [GHashTable] is in
    [mdbfakeglib.h], which is not among the sources.  The fields are
    those that the functions use: [table->compare], the equality
    predicate, and [table->array], the array of entry pointers. *)
Record GHashTable : Type := MkGHashTable {
  compare : A → A → bool;
  array : option (GPtrArray slot)
}.

(** [GHashTable *g_hash_table_new(hash_func, equal_func)]; [hash_func]
    is not used.  [ok] and [ok_array] tell whether the table and its
    array could be allocated. *)
Definition g_hash_table_new (ok ok_array : bool) (equal_func : A → A → bool)
  : option GHashTable :=
  if ok then Some (MkGHashTable equal_func (g_ptr_array_new ok_array))
  else None.

(** The scan of [g_hash_table_lookup], [n] iterations left. *)
Fixpoint lookup_loop (cmp : A → A → bool) (k : A) (n i : nat)
    (pdata : list slot) : A :=
  match n with
  | O => NULL
  | S n' =>
      match pdata !!! i with
      | Some entry =>
          if cmp (key entry) k then value entry
          else lookup_loop cmp k n' (S i) pdata
      | None => lookup_loop cmp k n' (S i) pdata
      end
  end.

(** [void *g_hash_table_lookup(GHashTable *table, const void *key)]. *)
Definition g_hash_table_lookup (table : option GHashTable) (k : A) : A :=
  match table with
  | Some t =>
      match array t with
      | Some a => lookup_loop (compare t) k (len a) 0 (pdata a)
      | None => NULL
      end
  | None => NULL
  end.

(** The scan of [g_hash_table_insert], [n] iterations left: the block
    after [entry->value = value] when an entry matched, [None] when the
    loop ran to its end. *)
Fixpoint insert_loop (cmp : A → A → bool) (k v : A) (n i : nat)
    (pdata : list slot) : option (list slot) :=
  match n with
  | O => None
  | S n' =>
      match pdata !!! i with
      | Some entry =>
          if cmp (key entry) k
          then Some (<[i := Some (MkHashEntry (key entry) v)]> pdata)
          else insert_loop cmp k v n' (S i) pdata
      | None => insert_loop cmp k v n' (S i) pdata
      end
  end.

(** [void g_hash_table_insert(GHashTable *table, void *key, void *value)]:
    the table after the call.  [ok] tells whether the entry record could
    be allocated, [r] is the reply to [g_ptr_array_add]'s [realloc]. *)
Definition g_hash_table_insert (ok : bool) (r : heap_reply slot)
    (table : option GHashTable) (k v : A) : option GHashTable :=
  t ← table;
  match array t with
  | None => Some t
  | Some a =>
      match insert_loop (compare t) k v (len a) 0 (pdata a) with
      | Some pdata' =>
          Some (MkGHashTable (compare t) (Some (MkGPtrArray pdata' (len a))))
      | None =>
          if ok then
            let entry := Some (MkHashEntry k v) in
            Some (MkGHashTable (compare t) (g_ptr_array_add r (Some a) entry))
          else Some t
      end
  end.

(** The scan of [g_hash_table_remove], [n] iterations left. *)
Fixpoint hash_remove_loop (cmp : A → A → bool) (k : A) (n i : nat)
    (a : GPtrArray slot) : bool * GPtrArray slot :=
  match n with
  | O => (false, a)
  | S n' =>
      match pdata a !!! i with
      | Some entry =>
          if cmp (key entry) k
          then (true, MkGPtrArray (shift_left (len a - 1 - i) i (pdata a))
                        (len a - 1))
          else hash_remove_loop cmp k n' (S i) a
      | None => hash_remove_loop cmp k n' (S i) a
      end
  end.

(** [gboolean g_hash_table_remove(GHashTable *table, const void *key)]. *)
Definition g_hash_table_remove (table : option GHashTable) (k : A)
  : bool * option GHashTable :=
  match table with
  | Some t =>
      match array t with
      | Some a =>
          let '(b, a) := hash_remove_loop (compare t) k (len a) 0 a in
          (b, Some (MkGHashTable (compare t) (Some a)))
      | None => (false, Some t)
      end
  | None => (false, None)
  end.

(** The loop of [g_hash_table_foreach_remove],
    [for (i = 0; i < len; ) { ... }], with [n = len - i] iterations left:
    an iteration either drops slot [i] and shortens the array, or moves
    [i] forward. *)
Fixpoint foreach_remove_loop (function : A → A → bool) (n i : nat)
    (a : GPtrArray slot) : GPtrArray slot :=
  match n with
  | O => a
  | S n' =>
      match pdata a !!! i with
      | Some entry =>
          if function (key entry) (value entry)
          then foreach_remove_loop function n' i
                 (MkGPtrArray (shift_left (len a - 1 - i) i (pdata a))
                    (len a - 1))
          else foreach_remove_loop function n' (S i) a
      | None => foreach_remove_loop function n' (S i) a
      end
  end.

(** [void g_hash_table_foreach_remove(table, function, user_data)], for a
    callback that only reads; [user_data] is part of [function]. *)
Definition g_hash_table_foreach_remove (table : option GHashTable)
    (function : option (A → A → bool)) : option GHashTable :=
  t ← table;
  match array t, function with
  | Some a, Some f =>
      Some (MkGHashTable (compare t) (Some (foreach_remove_loop f (len a) 0 a)))
  | _, _ => Some t
  end.

(** The entries in use, in index order. *)
Definition entries (t : GHashTable) : list slot :=
  from_option elements [] (array t).

(** The operations of a client on one table. *)
Inductive op : Type :=
  | Insert (ok : bool) (r : heap_reply slot) (k v : A)
  | RemoveKey (k : A)
  | ForeachRemove (function : option (A → A → bool)).

Definition step (table : option GHashTable) (o : op) : option GHashTable :=
  match o with
  | Insert ok r k v => g_hash_table_insert ok r table k v
  | RemoveKey k => snd (g_hash_table_remove table k)
  | ForeachRemove f => g_hash_table_foreach_remove table f
  end.

(** No two entries in use have keys that the table's predicate equates. *)
Definition distinct_keys (t : GHashTable) : Prop :=
  ∀ (i j : nat) (ei ej : HashEntry),
    i ≠ j →
    entries t !! i = Some (Some ei) → entries t !! j = Some (Some ej) →
    compare t (key ei) (key ej) = false.

(** The array [a] holds exactly the entry records [ents], none of its
    slots in use being [NULL]. *)
Definition repr (a : GPtrArray slot) (ents : list HashEntry) : Prop :=
  well_formed a ∧ elements a = Some <$> ents.

(** No key of [ks] is equated by [cmp] with a later one. *)
Fixpoint distinct_from (cmp : A → A → bool) (ks : list A) : Prop :=
  match ks with
  | [] => True
  | k :: ks' => Forall (λ k', cmp k k' = false) ks' ∧ distinct_from cmp ks'
  end.

(** The table [t], with predicate [cmp], holds the entries [ents], whose
    keys are pairwise distinct for [cmp]. *)
Definition table_inv (cmp : A → A → bool) (t : GHashTable)
    (ents : list HashEntry) : Prop :=
  compare t = cmp ∧
  (∃ a, array t = Some a ∧ repr a ents) ∧
  distinct_from cmp (key <$> ents).

(** The scan of [g_hash_table_lookup_extended], [n] iterations left:
    the entry that matched, if any. *)
Fixpoint lookup_extended_loop (cmp : A → A → bool) (lookup_key : A)
    (n i : nat) (pdata : list slot) : option HashEntry :=
  match n with
  | O => None
  | S n' =>
      match pdata !!! i with
      | Some entry =>
          if cmp (key entry) lookup_key then Some entry
          else lookup_extended_loop cmp lookup_key n' (S i) pdata
      | None => lookup_extended_loop cmp lookup_key n' (S i) pdata
      end
  end.

(** [gboolean g_hash_table_lookup_extended(table, lookup_key, orig_key,
    value)]: the result and the contents of [*orig_key] and [*value] on
    return; an output pointer that is [NULL] is [None]. *)
Definition g_hash_table_lookup_extended (table : option GHashTable)
    (lookup_key : A) (orig_key val : option A) : bool * option A * option A :=
  match table with
  | Some t =>
      match array t with
      | Some a =>
          match lookup_extended_loop (compare t) lookup_key (len a) 0
                  (pdata a) with
          | Some entry =>
              (true, (λ _, key entry) <$> orig_key,
                     (λ _, value entry) <$> val)
          | None => (false, orig_key, val)
          end
      | None => (false, orig_key, val)
      end
  | None => (false, orig_key, val)
  end.

(** The loop of [g_hash_table_foreach], [n] iterations left, for a
    callback that acts on its [user_data] only: the [user_data] after
    the calls. *)
Fixpoint foreach_loop {U : Type} (function : A → A → U → U) (n i : nat)
    (pdata : list slot) (user_data : U) : U :=
  match n with
  | O => user_data
  | S n' =>
      match pdata !!! i with
      | Some entry =>
          foreach_loop function n' (S i) pdata
            (function (key entry) (value entry) user_data)
      | None => foreach_loop function n' (S i) pdata user_data
      end
  end.

(** [void g_hash_table_foreach(table, function, user_data)]. *)
Definition g_hash_table_foreach {U : Type} (table : option GHashTable)
    (function : option (A → A → U → U)) (user_data : U) : U :=
  match table, function with
  | Some t, Some f =>
      match array t with
      | Some a => foreach_loop f (len a) 0 (pdata a) user_data
      | None => user_data
      end
  | _, _ => user_data
  end.

(** The tables that a client can reach: built by [g_hash_table_new] and
    changed by the operations only. *)
Definition reachable (cmp : A → A → bool) (t : GHashTable) : Prop :=
  ∃ ops : list op,
    foldl step (g_hash_table_new true true cmp) ops = Some t.

(** The entry records of a table, in index order. *)
Definition records (t : GHashTable) : list HashEntry :=
  omap id (entries t).

(** [cmp] is an equivalence. *)
Definition equivalence (cmp : A → A → bool) : Prop :=
  (∀ x, cmp x x = true) ∧
  (∀ x y, cmp x y = cmp y x) ∧
  (∀ x y z, cmp x y = true → cmp y z = true → cmp x z = true).

End hash_table.

Arguments MkHashEntry {A} _ _.
Arguments key {A} _.
Arguments value {A} _.
Arguments MkGHashTable {A} _ _.
Arguments compare {A} _.
Arguments array {A} _.

End HTab.

(** * Facts about bytes and blocks *)

Lemma uchar_id z : is_byte z → uchar z = z.
Proof. unfold is_byte, uchar. intros. apply Z.mod_small. lia. Qed.

(** Storing [(d ^ k) ^ k] in an [unsigned char], after [d ^ k] was stored
    in one, gives back the byte of [d], whatever [k] is. *)
Lemma uchar_lxor_twice d k :
  uchar (Z.lxor (uchar (Z.lxor d k)) k) = uchar d.
Proof.
  unfold uchar. change 256 with (2 ^ 8).
  apply Z.bits_inj'. intros n Hn.
  destruct (Z.ltb_spec n 8) as [Hlt | Hge].
  - rewrite !Z.mod_pow2_bits_low, Z.lxor_spec by lia.
    rewrite Z.mod_pow2_bits_low, Z.lxor_spec by lia.
    destruct (Z.testbit d n), (Z.testbit k n); reflexivity.
  - rewrite !Z.mod_pow2_bits_high by lia. reflexivity.
Qed.

Lemma length_malloc {A} (r : heap_reply A) n block :
  malloc r n = Some block → length block = n.
Proof.
  unfold malloc. destruct r as [f|]; [|done]. intros [= <-].
  by rewrite length_fmap, length_seq.
Qed.

Lemma realloc_Some {A} (r : heap_reply A) old n block :
  realloc r old n = Some block →
  length block = n ∧ take (length old) block = take n old.
Proof.
  unfold realloc. destruct r as [f|]; [|done]. intros [= <-]. split.
  - rewrite length_app, length_take, length_fmap, length_seq. lia.
  - destruct (decide (n ≤ length old)%nat).
    + replace (n - length old)%nat with 0%nat by lia. simpl.
      rewrite app_nil_r. apply take_ge. rewrite length_take. lia.
    + rewrite (take_ge old n) by lia. apply take_app_length.
Qed.

Lemma memcpy_spec {A} (l : list A) off k :
  (off + length k ≤ length l)%nat →
  memcpy l off k = take off l ++ k ++ drop (off + length k) l.
Proof.
  intros Hlen. unfold memcpy.
  rewrite <- (take_drop off l) at 1.
  replace off with (length (take off l) + 0)%nat at 1
    by (rewrite length_take; lia).
  rewrite list_inserts_app_r. f_equal.
  rewrite <- (take_drop (length k) (drop off l)) at 1.
  rewrite list_inserts_0_r by (rewrite length_take, length_drop; lia).
  by rewrite drop_drop.
Qed.

(** * The stream cipher *)

Section rc4_facts.
Import RC4.

Lemma prga_length n : ∀ k s i j data,
  length (prga n k s i j data) = length data.
Proof.
  induction n as [|n IH]; intros; simpl; [done|].
  by rewrite IH, length_insert.
Qed.

(** The keystream loop from index [k] on leaves the bytes below [k]
    alone. *)
Lemma prga_insert_below n : ∀ k s i j data (k0 : nat) v,
  (k0 < k)%nat →
  prga n k s i j (<[k0 := v]> data) = <[k0 := v]> (prga n k s i j data).
Proof.
  induction n as [|n IH]; intros k s i j data k0 v Hlt; simpl; [done|].
  rewrite list_lookup_total_insert_ne by lia.
  rewrite list_insert_insert_ne by lia.
  apply IH. lia.
Qed.

Lemma prga_twice n : ∀ k s i j data,
  Forall is_byte data →
  prga n k s i j (prga n k s i j data) = data.
Proof.
  induction n as [|n IH]; intros k s i j data Hb; [done|].
  cbn [prga]. cbv zeta.
  set (i' := (i + 1) mod 256).
  set (j' := (j + s !!! Z.to_nat i') mod 256).
  set (s' := swap s i' j').
  set (x := s' !!! Z.to_nat ((s' !!! Z.to_nat i' + s' !!! Z.to_nat j') mod 256)).
  rewrite !(prga_insert_below n (S k)) by lia.
  destruct (decide (k < length data)%nat) as [Hk | Hk].
  - rewrite list_lookup_total_insert_eq by (rewrite prga_length; lia).
    rewrite list_insert_insert_eq, uchar_lxor_twice.
    rewrite IH by done.
    apply list_insert_id.
    rewrite list_lookup_lookup_total_lt by lia. f_equal.
    symmetry. apply uchar_id. eapply Forall_lookup_1; [exact Hb|].
    by apply list_lookup_lookup_total_lt.
  - rewrite !list_insert_ge by (rewrite ?length_insert, ?prga_length; lia).
    by apply IH.
Qed.

(** C1. Applying the stream cipher twice with the same key (of length at
    least 1) gives back the data buffer:
    [apply(key, apply(key, data)) = data]. *)
Theorem C1_rc4_round_trip (key data : list Z) :
  (1 ≤ length key)%nat →
  Forall is_byte data →
  let apply := λ d, mdbi_rc4 key (Z.of_nat (length key)) d (length d) in
  apply (apply data) = data.
Proof.
  intros _ Hd. cbv zeta. unfold mdbi_rc4.
  rewrite prga_length. by apply prga_twice.
Qed.

Lemma C1_rc4_round_trip_witness :
  let key := [75; 69; 89] in
  let pt := [80; 108; 97; 105; 110; 116; 101; 120; 116] in
  mdbi_rc4 key 3 (mdbi_rc4 key 3 pt 9) 9 = pt.
Proof.
  apply (C1_rc4_round_trip [75; 69; 89]
           [80; 108; 97; 105; 110; 116; 101; 120; 116]).
  - simpl. lia.
  - repeat constructor; unfold is_byte; lia.
Defined.

(** The classical test vector: key "Key", data "Plaintext". *)
Example rc4_Key_Plaintext :
  mdbi_rc4 [75; 101; 121] 3 [80; 108; 97; 105; 110; 116; 101; 120; 116] 9
  = [187; 243; 22; 232; 217; 64; 175; 10; 211].
Proof. vm_compute. reflexivity. Qed.

(** The example of the specification: key "KEY" over "Plaintext". *)
Example rc4_KEY_Plaintext :
  let key := [75; 69; 89] in
  let pt := [80; 108; 97; 105; 110; 116; 101; 120; 116] in
  mdbi_rc4 key 3 pt 9 = [197; 12; 157; 61; 216; 251; 33; 128; 66]
  ∧ mdbi_rc4 key 3 (mdbi_rc4 key 3 pt 9) 9 = pt.
Proof. vm_compute. split; reflexivity. Qed.

End rc4_facts.

(** * More on the stream cipher *)

Section rc4_more.
Import RC4.

(** Exchanging two cells of a table of bytes permutes it. *)
Lemma swap_Permutation (s : table) (i j : Z) :
  Forall is_byte s →
  0 ≤ i < Z.of_nat (length s) →
  0 ≤ j < Z.of_nat (length s) →
  swap s i j ≡ₚ s.
Proof.
  intros Hs Hi Hj. unfold swap, table in *. cbv zeta.
  set (a := Z.to_nat i). set (b := Z.to_nat j).
  assert (a < length s)%nat as Ha by lia.
  assert (b < length s)%nat as Hb by lia.
  clearbody a b. clear i j Hi Hj.
  destruct (lookup_lt_is_Some_2 s a Ha) as [x Hx].
  destruct (lookup_lt_is_Some_2 s b Hb) as [y Hy].
  rewrite (list_lookup_total_correct _ _ _ Hx).
  rewrite (list_lookup_total_correct _ _ _ Hy).
  rewrite uchar_id by (by eapply Forall_lookup_1).
  clear Hs.
  destruct (decide (a = b)) as [->|Hab].
  - assert (x = y) as -> by congruence.
    by rewrite !(list_insert_id s b y Hy).
  - assert (∀ (l : list Z) (a b : nat) (x y : Z),
              (a < b)%nat → l !! a = Some x → l !! b = Some y →
              <[b := x]> (<[a := y]> l) ≡ₚ l) as Hlt.
    { clear. intros l a b x y Hab Hx Hy.
      pose proof (lookup_lt_Some _ _ _ Hy) as Hb.
      assert (drop (S a) l !! (b - S a)%nat = Some y) as Hy'.
      { rewrite lookup_drop. rewrite <- Hy. f_equal. lia. }
      rewrite <- (take_drop_middle l a x Hx).
      rewrite <- (take_drop_middle (drop (S a) l) _ y Hy').
      set (l1 := take a l). set (l2 := take (b - S a) (drop (S a) l)).
      set (l3 := drop (S (b - S a)) (drop (S a) l)).
      assert (length l1 = a) as Hl1 by (subst l1; rewrite length_take; lia).
      assert (length l2 = b - S a)%nat as Hl2
        by (subst l2; rewrite length_take, length_drop; lia).
      clearbody l1 l2 l3. clear Hx Hy Hy' Hb l.
      replace a with (length l1 + 0)%nat at 1 by lia.
      rewrite insert_app_r. simpl.
      replace b with (length l1 + S (length l2 + 0))%nat by lia.
      rewrite insert_app_r. simpl. rewrite insert_app_r. simpl.
      apply Permutation_app_head.
      rewrite <- !Permutation_middle. apply perm_swap. }
    destruct (decide (a < b)%nat).
    + by apply Hlt.
    + rewrite list_insert_insert_ne by done. apply Hlt; [lia|done..].
Qed.

Lemma s_init_bytes : Forall is_byte s_init ∧ length s_init = 256%nat.
Proof.
  split; [|done]. unfold s_init. apply Forall_fmap, Forall_forall.
  intros x Hx. apply elem_of_seq in Hx. simpl.
  unfold is_byte, uchar. apply Z.mod_pos_bound. lia.
Qed.

Lemma Permutation_bytes (s s' : table) :
  s ≡ₚ s' → Forall is_byte s' → Forall is_byte s.
Proof. intros Hp. by rewrite Hp. Qed.

(** The key-scheduling loop keeps the table a permutation of the bytes
    0..255 and the index [j] a byte. *)
Lemma ksa_loop_Permutation (key : list Z) (key_len : Z) :
  ∀ (l : list nat) (s : table) (j : Z),
    Forall (λ i, i < 256)%nat l →
    s ≡ₚ s_init →
    0 ≤ j < 256 →
    (foldl (ksa_step key key_len) (s, j) l).1 ≡ₚ s_init.
Proof.
  induction l as [|i l IH]; intros s j Hl Hs Hj; simpl; [done|].
  inversion_clear Hl as [|?? Hi Hl'].
  apply IH; [done| |apply Z.mod_pos_bound; lia].
  destruct s_init_bytes as [Hb Hlen].
  rewrite swap_Permutation; [done|by eapply Permutation_bytes|..].
  - rewrite (Permutation_length Hs), Hlen. lia.
  - rewrite (Permutation_length Hs), Hlen.
    pose proof (Z.mod_pos_bound
      (j + s !!! Z.to_nat (Z.of_nat i)
         + key !!! Z.to_nat (Z.of_nat i `mod` key_len)) 256). lia.
Qed.

(** X18. The table that the key-scheduling loop of [mdbi_rc4] builds
    from a key of [key_len >= 1] bytes is a permutation of the bytes
    0..255, whatever the bytes of the key: every byte value occurs in it
    exactly once. *)
Theorem X18_ksa_permutation (key : list Z) (key_len : Z) :
  0 < key_len ≤ Z.of_nat (length key) →
  ksa key key_len ≡ₚ (Z.of_nat <$> seq 0 256) ∧
  NoDup (ksa key key_len) ∧
  ∀ b : Z, is_byte b ↔ b ∈ ksa key key_len.
Proof.
  intros _.
  assert (s_init = Z.of_nat <$> seq 0 256) as Hinit by reflexivity.
  assert (ksa key key_len ≡ₚ s_init) as Hp.
  { unfold ksa. apply ksa_loop_Permutation; [|done|lia].
    apply Forall_forall. intros i Hi. apply elem_of_seq in Hi. lia. }
  split; [by rewrite Hp|].
  assert (NoDup s_init) as Hnd.
  { rewrite Hinit.
    apply NoDup_fmap_2; [intros ? ?; apply Nat2Z.inj|apply NoDup_seq]. }
  split; [by rewrite Hp|].
  intros b. rewrite Hp, Hinit. rewrite list_elem_of_fmap. split.
  - intros [? ?]. exists (Z.to_nat b). split; [lia|].
    apply elem_of_seq. lia.
  - intros (n & -> & Hn). apply elem_of_seq in Hn. unfold is_byte. lia.
Qed.

(** The keystream loop combines the bytes [k .. k + n) of the buffer
    with a keystream that depends on the state only. *)
Lemma prga_keystream : ∀ (n k : nat) (s : table) (i j : Z),
  ∃ ks : list Z,
    length ks = n ∧
    ∀ data : list Z,
      (k + n ≤ length data)%nat →
      prga n k s i j data
      = take k data
        ++ zip_with (λ d x, uchar (Z.lxor d x)) (take n (drop k data)) ks
        ++ drop (k + n) data.
Proof.
  induction n as [|n IH]; intros k s i j.
  - exists []. split; [done|]. intros data _. simpl.
    rewrite Nat.add_0_r. by rewrite take_drop.
  - cbn [prga].
    set (i' := (i + 1) mod 256).
    set (j' := (j + s !!! Z.to_nat i') mod 256).
    set (s' := swap s i' j').
    set (x := s' !!! Z.to_nat ((s' !!! Z.to_nat i' + s' !!! Z.to_nat j') mod 256)).
    destruct (IH (S k) s' i' j') as (ks & Hlen & Hks).
    exists (x :: ks). split; [simpl; by rewrite Hlen|].
    intros data Hdata. rewrite Hks by (rewrite length_insert; lia).
    destruct (lookup_lt_is_Some_2 data k ltac:(lia)) as [d Hd].
    rewrite (list_lookup_total_correct _ _ _ Hd).
    rewrite (take_S_r (<[k:=_]> data) k (uchar (Z.lxor d x)))
      by (apply list_lookup_insert_eq; lia).
    rewrite take_insert_ge by lia.
    rewrite !drop_insert_lt by lia.
    rewrite (drop_S _ _ _ Hd). simpl.
    rewrite <- app_assoc. simpl.
    by replace (k + S n)%nat with (S (k + n)) by lia.
Qed.

(** X19. With a key of [key_len >= 1] bytes, [mdbi_rc4] combines the
    first [data_len] bytes of the buffer, byte by byte with exclusive
    or, with a keystream that depends on the key and on [data_len] only,
    and leaves the bytes after them as they were. *)
Theorem X19_rc4_keystream (key : list Z) (key_len : Z) (data_len : nat) :
  0 < key_len ≤ Z.of_nat (length key) →
  ∃ ks : list Z,
    length ks = data_len ∧
    ∀ data : list Z,
      (data_len ≤ length data)%nat →
      mdbi_rc4 key key_len data data_len
      = zip_with (λ d x, uchar (Z.lxor d x)) (take data_len data) ks
        ++ drop data_len data.
Proof.
  intros _.
  destruct (prga_keystream data_len 0 (ksa key key_len) 0 0)
    as (ks & Hlen & Hks).
  exists ks. split; [done|]. intros data Hdata.
  unfold mdbi_rc4. rewrite Hks by lia. by rewrite take_0, drop_0.
Qed.

End rc4_more.

Lemma X18_ksa_permutation_witness :
  RC4.ksa [75; 101; 121] 3 ≡ₚ (Z.of_nat <$> seq 0 256) ∧
  NoDup (RC4.ksa [75; 101; 121] 3) ∧
  ∀ b : Z, is_byte b ↔ b ∈ RC4.ksa [75; 101; 121] 3.
Proof. apply (X18_ksa_permutation [75; 101; 121] 3). simpl. lia. Defined.

Lemma X19_rc4_keystream_witness :
  ∃ ks : list Z,
    length ks = 2%nat ∧
    ∀ data : list Z,
      (2 ≤ length data)%nat →
      RC4.mdbi_rc4 [75; 101; 121] 3 data 2
      = zip_with (λ d x, uchar (Z.lxor d x)) (take 2 data) ks
        ++ drop 2 data.
Proof. apply (X19_rc4_keystream [75; 101; 121] 3 2). simpl. lia. Defined.

(** * The transcoder *)

Section iconv_facts.
Import Iconv.

Lemma unicode2ascii_loop_spec src slen dlen i j dest :
  u2a_post src slen dlen i j dest (unicode2ascii_loop src slen dlen i j dest).
Proof.
  funelim (unicode2ascii_loop src slen dlen i j dest).
  - clear Heq Heqcall.
    destruct (unicode2ascii_loop _ _ _ _ _ _) as [j' dest'].
    unfold u2a_post in *. destruct H as (Hj & Hlen & Hframe & Hcont).
    rewrite length_insert in Hlen, Hcont.
    assert (Hmin : (S j + Nat.min ((slen - (i + 2) + 1) / 2) (dlen - 1 - S j)
                   = j + Nat.min ((slen - i + 1) / 2) (dlen - 1 - j))%nat).
    { destruct (decide (slen = i + 1)%nat) as [->|].
      - replace (i + 1 - (i + 2) + 1)%nat with 1%nat by lia.
        replace (i + 1 - i + 1)%nat with 2%nat by lia.
        change (1 / 2)%nat with 0%nat. change (2 / 2)%nat with 1%nat. lia.
      - replace (slen - i + 1)%nat with (1 * 2 + (slen - (i + 2) + 1))%nat by lia.
        rewrite Nat.div_add_l by lia. lia. }
    split_and!.
    + lia.
    + done.
    + intros idx Hidx. rewrite Hframe by lia.
      apply list_lookup_insert_ne. lia.
    + intros m Hm Hm'. destruct m as [|m].
      * rewrite Nat.add_0_r. rewrite Hframe by lia.
        rewrite list_lookup_insert_eq by lia. do 2 f_equal. lia.
      * replace (j + S m)%nat with (S j + m)%nat by lia.
        rewrite Hcont by lia. do 2 f_equal. lia.
  - clear Heq. unfold u2a_post. split_and!; [|done|done|intros; lia].
    destruct (decide (i < slen)%nat); [|replace (slen - i + 1)%nat with 1%nat by lia; simpl; lia].
    lia.
Qed.

Lemma ascii2unicode_loop_spec src slen dlen i j dest :
  a2u_post src slen dlen i j dest (ascii2unicode_loop src slen dlen i j dest).
Proof.
  funelim (ascii2unicode_loop src slen dlen i j dest).
  - clear Heq Heqcall. destruct (decide (j + 1 < dlen)%nat) as [Hfit|Hfit]; [|lia].
    clear H0. specialize (H Hfit).
    destruct (ascii2unicode_loop _ _ _ _ _ _) as [j' dest'].
    unfold a2u_post in *.
    destruct H as ((n & Hj & Hn & Hfull & Hcont) & Hcap & Hlen & Hframe).
    rewrite !length_insert in Hlen, Hcont.
    split_and!; [|lia|..].
    + exists (S n). split_and!; [lia|lia|intros; lia|].
      intros m Hm Hm'. destruct m as [|m].
      * rewrite Nat.mul_0_r, !Nat.add_0_r. rewrite !Hframe by lia.
        rewrite list_lookup_insert_ne by lia.
        rewrite list_lookup_insert_eq by lia.
        replace (j + 1)%nat with (S j) by lia.
        rewrite list_lookup_insert_eq by (rewrite length_insert; lia).
        done.
      * replace (j + 2 * S m)%nat with (j + 2 + 2 * m)%nat by lia.
        replace (i + S m)%nat with (S i + m)%nat by lia.
        apply Hcont; lia.
    + done.
    + intros idx Hidx. rewrite Hframe by lia.
      rewrite !list_lookup_insert_ne by lia. done.
  - clear Heq. unfold a2u_post. split_and!; [|done..].
    exists 0%nat. split_and!; [lia|lia|lia|intros; lia].
Qed.

(** C5. With a destination capacity of at least 1, [mdb_unicode2ascii]
    stores at most [dlen - 1] content bytes and one terminator: it
    returns the number [j <= dlen - 1] of content bytes, the terminator
    is at index [j], every byte of the destination after index [j] (so
    every byte at an index [>= dlen]) is left as it was, and when the
    destination is too small the output is cut to [dlen - 1] bytes
    without any error. *)
Theorem C5_unicode2ascii_within_capacity (src : option (list Z))
    (slen : nat) (dest : list Z) (dlen : nat) :
  (1 ≤ dlen)%nat →
  ∃ (j : nat) (dest' : list Z),
    mdb_unicode2ascii src slen (Some dest) dlen = (Z.of_nat j, Some dest') ∧
    (j ≤ dlen - 1)%nat ∧
    j = from_option (λ _, Nat.min ((slen + 1) / 2) (dlen - 1)) 0%nat src ∧
    length dest' = length dest ∧
    ((j < length dest)%nat → dest' !! j = Some 0) ∧
    (∀ idx : nat, (j < idx)%nat → dest' !! idx = dest !! idx) ∧
    (∀ idx : nat, (dlen ≤ idx)%nat → dest' !! idx = dest !! idx).
Proof.
  intros Hdlen. unfold mdb_unicode2ascii.
  destruct src as [s|]; cbn [from_option fmap option_fmap option_map].
  - destruct (decide (dlen = 0%nat)) as [|_]; [lia|].
    pose proof (unicode2ascii_loop_spec s slen dlen 0 0 dest) as Hspec.
    destruct (unicode2ascii_loop _ _ _ _ _ _) as [j d].
    destruct Hspec as (Hj & Hlen & Hframe & _).
    rewrite !Nat.sub_0_r, Nat.add_0_l in Hj.
    set (q := ((slen + 1) / 2)%nat) in *.
    exists j, (<[j := 0]> d).
    split_and!; [done|lia|lia|by rewrite length_insert| | |].
    + intros. apply list_lookup_insert_eq. lia.
    + intros idx Hidx. rewrite list_lookup_insert_ne by lia.
      apply Hframe. lia.
    + intros idx Hidx. rewrite list_lookup_insert_ne by lia.
      apply Hframe. lia.
  - destruct (decide (0 < dlen)%nat) as [_|]; [|lia].
    exists 0%nat, (<[0%nat := 0]> dest).
    split_and!; [done|lia|done|by rewrite length_insert| | |].
    + intros. by apply list_lookup_insert_eq.
    + intros idx Hidx. apply list_lookup_insert_ne. lia.
    + intros idx Hidx. apply list_lookup_insert_ne. lia.
Qed.

Lemma C5_unicode2ascii_within_capacity_witness :
  ∃ (j : nat) (dest' : list Z),
    mdb_unicode2ascii (Some [72; 0; 105; 0; 33; 0]) 6
      (Some [9; 9; 9; 9; 9]) 3 = (Z.of_nat j, Some dest') ∧
    (j ≤ 3 - 1)%nat ∧
    j = Nat.min ((6 + 1) / 2) (3 - 1) ∧
    length dest' = 5%nat ∧
    ((j < 5)%nat → dest' !! j = Some 0) ∧
    (∀ idx : nat, (j < idx)%nat → dest' !! idx = [9; 9; 9; 9; 9] !! idx) ∧
    (∀ idx : nat, (3 ≤ idx)%nat → dest' !! idx = [9; 9; 9; 9; 9] !! idx).
Proof.
  apply (C5_unicode2ascii_within_capacity (Some [72; 0; 105; 0; 33; 0]) 6
           [9; 9; 9; 9; 9] 3).
  lia.
Defined.

Example unicode2ascii_truncates :
  mdb_unicode2ascii (Some [72; 0; 105; 0; 33; 0]) 6 (Some [9; 9; 9; 9; 9]) 3
  = (2, Some [72; 105; 0; 9; 9]).
Proof. reflexivity. Qed.

Example unicode2ascii_lossy :
  mdb_unicode2ascii (Some [233; 0; 172; 32; 65]) 5 (Some [9; 9; 9; 9; 9]) 5
  = (3, Some [233; 63; 65; 0; 9]).
Proof. reflexivity. Qed.

Lemma string_at_intro (buf s : list Z) :
  Forall (λ b, b ≠ 0) s →
  take (length s) buf = s →
  buf !! length s = Some 0 →
  string_at buf = s.
Proof.
  revert buf. induction s as [|b s IH]; intros buf Hnz Htake Hnul.
  - destruct buf as [|b buf]; [done|]. simpl in *.
    injection Hnul as ->. by rewrite decide_True.
  - destruct buf as [|b' buf]; [done|]. simpl in *.
    injection Htake as -> Htake. inversion_clear Hnz as [|?? Hb Hs].
    rewrite decide_False by done. f_equal. by apply IH.
Qed.

(** C6. A byte string whose bytes all lie in 1..127, converted by
    [mdb_ascii2unicode] and back by [mdb_unicode2ascii] with destinations
    that are large enough, comes back as it was. *)
Theorem C6_ascii_round_trip (s d1 d2 : list Z) (dlen1 dlen2 : nat) :
  Forall (λ b, 1 ≤ b ≤ 127) s →
  (2 * length s ≤ dlen1 ≤ length d1)%nat →
  (length s + 1 ≤ dlen2 ≤ length d2)%nat →
  ∃ (n : nat) (wide narrow : list Z),
    mdb_ascii2unicode (Some s) (length s) (Some d1) dlen1
      = (Z.of_nat n, Some wide) ∧
    n = (2 * length s)%nat ∧
    mdb_unicode2ascii (Some wide) n (Some d2) dlen2
      = (Z.of_nat (length s), Some narrow) ∧
    string_at narrow = s.
Proof.
  intros Hs Hd1 Hd2.
  assert (Hwide : ∃ wide, mdb_ascii2unicode (Some s) (length s) (Some d1) dlen1
            = (Z.of_nat (2 * length s), Some wide) ∧
          (∀ m : nat, (m < length s)%nat →
             wide !!! (2 * m)%nat = s !!! m ∧ wide !!! (2 * m + 1)%nat = 0)).
  { unfold mdb_ascii2unicode.
    destruct (decide (dlen1 = 0%nat)) as [Hz|Hz].
    - exists d1. assert (length s = 0%nat) as -> by lia. split; [done|intros; lia].
    - pose proof (ascii2unicode_loop_spec s (length s) dlen1 0 0 d1) as Hspec.
      destruct (ascii2unicode_loop _ _ _ _ _ _) as [j d].
      destruct Hspec as ((n & Hj & Hn & Hfull & Hcont) & _ & Hlen & Hframe).
      rewrite Nat.sub_0_r, Nat.add_0_r in Hfull. specialize (Hfull ltac:(lia)).
      subst n. exists d. split; [do 2 f_equal; lia|].
      intros m Hm. specialize (Hcont m ltac:(lia) ltac:(lia)).
      destruct Hcont as [H1 H2]. simpl in H1, H2.
      split; apply list_lookup_total_correct; [exact H1|].
      rewrite <- H2. f_equal. }
  destruct Hwide as (wide & Ha2u & Hunits).
  exists (2 * length s)%nat, wide.
  unfold mdb_unicode2ascii. destruct (decide (dlen2 = 0%nat)) as [|_]; [lia|].
  pose proof (unicode2ascii_loop_spec wide (2 * length s) dlen2 0 0 d2) as Hspec.
  destruct (unicode2ascii_loop _ _ _ _ _ _) as [j d].
  destruct Hspec as (Hj & Hlen & Hframe & Hcont).
  assert (j = length s) as ->.
  { rewrite Hj, Nat.sub_0_r, Nat.add_0_l.
    replace (2 * length s + 1)%nat with (1 + length s * 2)%nat by lia.
    rewrite Nat.div_add by lia. change (1 / 2)%nat with 0%nat. lia. }
  exists (<[length s := 0]> d). split_and!; [done..|].
  apply string_at_intro.
  - eapply Forall_impl; [exact Hs|]. simpl. lia.
  - rewrite take_insert_ge by lia.
    apply list_eq. intros m. destruct (decide (m < length s)%nat) as [Hm|Hm].
    + rewrite lookup_take_lt by lia.
      specialize (Hcont m ltac:(lia) ltac:(lia)).
      rewrite !Nat.add_0_l in Hcont.
      rewrite Hcont. rewrite (list_lookup_lookup_total_lt s m) by done.
      f_equal. unfold unicode2ascii_unit.
      destruct (Hunits m Hm) as [Hlow Hhigh].
      pose proof (Forall_lookup_1 _ _ m _ Hs
                    (list_lookup_lookup_total_lt s m Hm)) as Hb.
      simpl in Hb.
      rewrite (decide_True (P := (2 * m + 1 < 2 * length s)%nat)) by lia.
      rewrite Hlow, Hhigh.
      rewrite (uchar_id (s !!! m)) by (unfold is_byte; lia).
      change (uchar 0) with 0. rewrite decide_True by lia. done.
    + rewrite lookup_take_ge by lia. symmetry. apply lookup_ge_None. lia.
  - apply list_lookup_insert_eq. lia.
Qed.

Lemma C6_ascii_round_trip_witness :
  ∃ (n : nat) (wide narrow : list Z),
    mdb_ascii2unicode (Some [72; 105; 33]) 3 (Some [9; 9; 9; 9; 9; 9; 9]) 6
      = (Z.of_nat n, Some wide) ∧
    n = 6%nat ∧
    mdb_unicode2ascii (Some wide) n (Some [7; 7; 7; 7; 7]) 4
      = (3, Some narrow) ∧
    string_at narrow = [72; 105; 33].
Proof.
  apply (C6_ascii_round_trip [72; 105; 33] [9; 9; 9; 9; 9; 9; 9]
           [7; 7; 7; 7; 7] 6 4).
  - repeat constructor; lia.
  - simpl. lia.
  - simpl. lia.
Defined.

(** C7, as stated, fails for [mdb_ascii2unicode]: converting "A" into a
    destination of four [0xFF] bytes produces the two bytes [41 00] and
    returns 2, and the byte right after them is still [0xFF]. *)
Lemma C7_ascii2unicode_not_terminated :
  mdb_ascii2unicode (Some [65]) 1 (Some [255; 255; 255; 255]) 4
    = (2, Some [65; 0; 255; 255]) ∧
  ¬ ∃ (j : nat) (d : list Z),
      mdb_ascii2unicode (Some [65]) 1 (Some [255; 255; 255; 255]) 4
        = (Z.of_nat j, Some d) ∧
      d !! j = Some 0.
Proof.
  split; [reflexivity|].
  intros (j & d & Hcall & Hnul).
  change (mdb_ascii2unicode _ _ _ _) with (2, Some [65; 0; 255; 255]) in Hcall.
  injection Hcall as Hj <-.
  assert (j = 2%nat) as -> by lia. discriminate Hnul.
Qed.

(** C7, amended. For a destination of capacity at least 1,
    [mdb_unicode2ascii] leaves a [NUL] right after the bytes it produced.
    [mdb_ascii2unicode] stores the 2-byte units only: it returns their
    byte count [j <= dlen] and leaves every byte of the destination from
    index [j] on as it was, so it adds no terminator. *)
Theorem C7_termination (src : option (list Z)) (slen : nat)
    (dest : list Z) (dlen : nat) :
  (1 ≤ dlen ≤ length dest)%nat →
  (∃ (j : nat) (d : list Z),
     mdb_unicode2ascii src slen (Some dest) dlen = (Z.of_nat j, Some d) ∧
     d !! j = Some 0) ∧
  (∃ (j : nat) (d : list Z),
     mdb_ascii2unicode src slen (Some dest) dlen = (Z.of_nat j, Some d) ∧
     (j ≤ dlen)%nat ∧
     length d = length dest ∧
     ∀ idx : nat, (j ≤ idx)%nat → d !! idx = dest !! idx).
Proof.
  intros Hdlen. split.
  - unfold mdb_unicode2ascii. destruct src as [s|].
    + destruct (decide (dlen = 0%nat)) as [|_]; [lia|].
      pose proof (unicode2ascii_loop_spec s slen dlen 0 0 dest) as Hspec.
      destruct (unicode2ascii_loop _ _ _ _ _ _) as [j d].
      destruct Hspec as (Hj & Hlen & _).
      exists j, (<[j := 0]> d). split; [done|].
      apply list_lookup_insert_eq. lia.
    + destruct (decide (0 < dlen)%nat) as [_|]; [|lia].
      exists 0%nat, (<[0%nat := 0]> dest). split; [done|].
      apply list_lookup_insert_eq. lia.
  - unfold mdb_ascii2unicode. destruct src as [s|].
    + destruct (decide (dlen = 0%nat)) as [|_]; [lia|].
      pose proof (ascii2unicode_loop_spec s slen dlen 0 0 dest) as Hspec.
      destruct (ascii2unicode_loop _ _ _ _ _ _) as [j d].
      destruct Hspec as (_ & Hcap & Hlen & Hframe).
      exists j, d. split_and!; [done|lia|done|].
      intros idx Hidx. apply Hframe. lia.
    + exists 0%nat, dest. split_and!; [done|lia|done|done].
Qed.

Lemma C7_termination_witness :
  (∃ (j : nat) (d : list Z),
     mdb_unicode2ascii (Some [65; 0]) 2 (Some [255; 255; 255; 255]) 4
       = (Z.of_nat j, Some d) ∧
     d !! j = Some 0) ∧
  (∃ (j : nat) (d : list Z),
     mdb_ascii2unicode (Some [65; 0]) 2 (Some [255; 255; 255; 255]) 4
       = (Z.of_nat j, Some d) ∧
     (j ≤ 4)%nat ∧
     length d = 4%nat ∧
     ∀ idx : nat, (j ≤ idx)%nat → d !! idx = [255; 255; 255; 255] !! idx).
Proof.
  apply (C7_termination (Some [65; 0]) 2 [255; 255; 255; 255] 4).
  simpl. lia.
Defined.

End iconv_facts.

(** * More on the transcoder *)

Section iconv_more.
Import Iconv.

(** The number of bytes that the loop of [mdb_ascii2unicode] stores: two
    for each source byte, as long as a whole unit fits. *)
Lemma ascii2unicode_loop_count src slen dlen i j dest :
  fst (ascii2unicode_loop src slen dlen i j dest)
  = (j + 2 * Nat.min (slen - i) ((dlen - j) / 2))%nat.
Proof.
  funelim (ascii2unicode_loop src slen dlen i j dest).
  - clear Heq Heqcall. destruct (decide (j + 1 < dlen)%nat) as [Hfit|Hfit]; [|lia].
    clear H0. rewrite (H Hfit).
    replace (dlen - j)%nat with (1 * 2 + (dlen - (j + 2)))%nat by lia.
    rewrite Nat.div_add_l by lia. lia.
  - clear Heq. cbn [fst].
    destruct (decide (i < slen)%nat) as [Hi|Hi]; [|lia].
    assert (dlen - j = 0 ∨ dlen - j = 1)%nat as [-> | ->] by lia;
      [change (0 / 2)%nat with 0%nat|change (1 / 2)%nat with 0%nat]; lia.
Qed.

(** X17. Any byte string, widened by [mdb_ascii2unicode] and narrowed
    back by [mdb_unicode2ascii], comes back cut to what the two
    capacities allow and followed by a terminator: the first call stores
    [n = min (length s) (dlen1 / 2)] units of two bytes, the second
    [k = min n (dlen2 - 1)] bytes, which are the first [k] bytes of [s],
    whatever values from 0 to 255 they have. *)
Theorem X17_bytes_round_trip (s d1 d2 : list Z) (dlen1 dlen2 : nat) :
  Forall is_byte s →
  (dlen1 ≤ length d1)%nat →
  (1 ≤ dlen2 ≤ length d2)%nat →
  let n := Nat.min (length s) (dlen1 / 2) in
  let k := Nat.min n (dlen2 - 1) in
  ∃ wide narrow : list Z,
    mdb_ascii2unicode (Some s) (length s) (Some d1) dlen1
      = (Z.of_nat (2 * n), Some wide) ∧
    mdb_unicode2ascii (Some wide) (2 * n) (Some d2) dlen2
      = (Z.of_nat k, Some narrow) ∧
    take (k + 1) narrow = take k s ++ [0].
Proof.
  intros Hs Hd1 Hd2 n k.
  assert (Hwide : ∃ wide, mdb_ascii2unicode (Some s) (length s) (Some d1) dlen1
            = (Z.of_nat (2 * n), Some wide) ∧
          (∀ m : nat, (m < n)%nat →
             wide !!! (2 * m)%nat = s !!! m ∧ wide !!! (2 * m + 1)%nat = 0)).
  { unfold mdb_ascii2unicode.
    destruct (decide (dlen1 = 0%nat)) as [Hz|Hz].
    - exists d1. assert (n = 0%nat) as ->
        by (subst n dlen1; change (0 / 2)%nat with 0%nat; lia).
      split; [done|intros; lia].
    - pose proof (ascii2unicode_loop_spec s (length s) dlen1 0 0 d1) as Hspec.
      pose proof (ascii2unicode_loop_count s (length s) dlen1 0 0 d1) as Hcount.
      destruct (ascii2unicode_loop _ _ _ _ _ _) as [j d].
      destruct Hspec as ((n' & Hj & Hn & Hfull & Hcont) & _ & Hlen & Hframe).
      cbn [fst] in Hcount. rewrite !Nat.sub_0_r in Hcount.
      assert (n' = n) as -> by (subst n; lia).
      assert (2 * n ≤ dlen1)%nat as Hfit.
      { subst n. pose proof (Nat.Div0.mul_div_le dlen1 2). lia. }
      exists d. split; [do 2 f_equal; lia|].
      intros m Hm. specialize (Hcont m ltac:(lia) ltac:(lia)).
      destruct Hcont as [H1 H2]. simpl in H1, H2.
      split; apply list_lookup_total_correct; [exact H1|].
      rewrite <- H2. f_equal. }
  destruct Hwide as (wide & Ha2u & Hunits).
  exists wide.
  unfold mdb_unicode2ascii. destruct (decide (dlen2 = 0%nat)) as [|_]; [lia|].
  pose proof (unicode2ascii_loop_spec wide (2 * n) dlen2 0 0 d2) as Hspec.
  destruct (unicode2ascii_loop _ _ _ _ _ _) as [j d].
  destruct Hspec as (Hj & Hlen & Hframe & Hcont).
  assert (j = k) as ->.
  { rewrite Hj, Nat.sub_0_r, Nat.add_0_l.
    replace (2 * n + 1)%nat with (1 + n * 2)%nat by lia.
    rewrite Nat.div_add by lia. change (1 / 2)%nat with 0%nat. lia. }
  exists (<[k := 0]> d). split_and!; [done..|].
  assert (k ≤ length s)%nat as Hk by lia.
  apply list_eq. intros m.
  destruct (decide (m < k)%nat) as [Hm|Hm].
  - rewrite lookup_take_lt by lia.
    rewrite list_lookup_insert_ne by lia.
    rewrite lookup_app_l by (rewrite length_take; lia).
    rewrite lookup_take_lt by lia.
    specialize (Hcont m ltac:(lia) ltac:(lia)).
    rewrite !Nat.add_0_l in Hcont.
    rewrite Hcont. rewrite (list_lookup_lookup_total_lt s m) by lia.
    f_equal. unfold unicode2ascii_unit.
    destruct (Hunits m ltac:(lia)) as [Hlow Hhigh].
    pose proof (Forall_lookup_1 _ _ m _ Hs
                  (list_lookup_lookup_total_lt s m ltac:(lia))) as Hb.
    rewrite (decide_True (P := (2 * m + 1 < 2 * n)%nat)) by lia.
    rewrite Hlow, Hhigh.
    rewrite (uchar_id (s !!! m)) by done.
    change (uchar 0) with 0. unfold is_byte in Hb.
    repeat case_decide; lia.
  - destruct (decide (m = k)) as [->|Hne].
    + rewrite lookup_take_lt by lia.
      rewrite list_lookup_insert_eq by lia.
      rewrite lookup_app_r by (rewrite length_take; lia).
      rewrite length_take. by replace (k - k `min` length s)%nat with 0%nat by lia.
    + rewrite lookup_take_ge by lia. symmetry. apply lookup_ge_None.
      rewrite length_app, length_take. simpl. lia.
Qed.

End iconv_more.

Lemma X17_bytes_round_trip_witness :
  let s := [72; 233; 0; 255]%Z in
  let n := Nat.min (length s) (6 / 2) in
  let k := Nat.min n (3 - 1) in
  ∃ wide narrow : list Z,
    Iconv.mdb_ascii2unicode (Some s) (length s) (Some (replicate 6 9%Z)) 6
      = (Z.of_nat (2 * n), Some wide) ∧
    Iconv.mdb_unicode2ascii (Some wide) (2 * n) (Some (replicate 4 9%Z)) 3
      = (Z.of_nat k, Some narrow) ∧
    take (k + 1) narrow = take k s ++ [0%Z].
Proof.
  apply (X17_bytes_round_trip [72; 233; 0; 255]%Z (replicate 6 9%Z)
           (replicate 4 9%Z) 6 3).
  - repeat constructor; unfold is_byte; lia.
  - simpl. lia.
  - simpl. lia.
Defined.

(** * Splitting *)

Section str_facts.
Import Str.

Lemma count_tokens_unfold c rest max_tokens count p :
  count_tokens c rest max_tokens count p =
  match strstr p (c :: rest) with
  | Some off =>
      if bool_decide (max_tokens ≤ 0 ∨ count < max_tokens)
      then count_tokens c rest max_tokens (count + 1)
             (drop (off + length (c :: rest)) p)
      else count
  | None => count
  end.
Proof.
  rewrite count_tokens_equation_1.
  destruct (inspect (strstr p (c :: rest))) as [[off|] Hoff];
    cbn; rewrite Hoff; reflexivity.
Qed.

Lemma strstr_first_cut needle : ∀ field p r,
  first_cut needle p field r → strstr p needle = Some (length field).
Proof.
  induction field as [|x field IH]; intros p r [Hp Hmin].
  - destruct p; simpl; rewrite bool_decide_eq_true_2; try done;
      rewrite Hp; by eexists.
  - simpl in Hp. subst p. simpl.
    rewrite bool_decide_eq_false_2.
    + rewrite (IH _ r); [done|]. split; [done|].
      intros pre post Hocc.
      specialize (Hmin (x :: pre) post). simpl in Hmin.
      rewrite Hocc in Hmin. specialize (Hmin eq_refl). lia.
    + intros [post Hpre]. specialize (Hmin [] post Hpre). simpl in Hmin. lia.
Qed.

Lemma strstr_Some needle : ∀ p off,
  strstr p needle = Some off →
  first_cut needle p (take off p) (drop (off + length needle) p)
  ∧ (off + length needle ≤ length p)%nat.
Proof.
  assert (Hhead : ∀ p, needle `prefix_of` p →
            first_cut needle p (take 0 p) (drop (0 + length needle) p)
            ∧ (0 + length needle ≤ length p)%nat).
  { intros p [post ->]. rewrite Nat.add_0_l, drop_app_length.
    split; [split; [done|simpl; intros; lia]|].
    rewrite length_app. lia. }
  induction p as [|x p IH]; intros off; simpl.
  - case_bool_decide as Hpre; [|done]. intros [= <-]. by apply Hhead.
  - case_bool_decide as Hpre.
    + intros [= <-]. by apply Hhead.
    + destruct (strstr p needle) as [off'|] eqn:E; [|done].
      intros [= <-]. destruct (IH off' eq_refl) as [[Hp Hmin] Hlen].
      split; [split|simpl; lia].
      * simpl. by rewrite <- Hp.
      * intros pre post Hocc. destruct pre as [|y pre].
        -- exfalso. apply Hpre. exists post. exact Hocc.
        -- simpl in Hocc. injection Hocc as -> Hocc.
           specialize (Hmin pre post Hocc).
           simpl. rewrite length_take in *. lia.
Qed.

Lemma strstr_None needle p : strstr p needle = None ↔ ¬ occurs needle p.
Proof.
  split.
  - revert needle. induction p as [|x p IH]; intros needle; simpl.
    + case_bool_decide as Hpre; [done|]. intros _ (pre & post & Hocc).
      apply Hpre. symmetry in Hocc.
      apply app_eq_nil in Hocc as [_ Hocc]. apply app_eq_nil in Hocc as [-> _].
      done.
    + case_bool_decide as Hpre; [done|].
      destruct (strstr p needle) eqn:E; [done|]. intros _ (pre & post & Hocc).
      destruct pre as [|y pre].
      * apply Hpre. exists post. exact Hocc.
      * injection Hocc as -> Hocc. apply (IH needle E). by exists pre, post.
  - intros Hno. destruct (strstr p needle) as [off|] eqn:E; [|done].
    exfalso. apply Hno. apply strstr_Some in E as [[Hp _] _].
    eexists _, _. exact Hp.
Qed.

(** Wherever the needle occurs, the text can be cut at its first
    occurrence. *)
Lemma first_cut_exists needle p :
  occurs needle p → ∃ field rest : cstring, first_cut needle p field rest.
Proof.
  intros Hocc. destruct (strstr p needle) as [off|] eqn:E.
  - apply strstr_Some in E as [Hcut _]. by eexists _, _.
  - by apply strstr_None in E.
Qed.

Lemma count_tokens_ge c rest max_tokens count p :
  count ≤ count_tokens c rest max_tokens count p.
Proof.
  funelim (count_tokens c rest max_tokens count p); [|lia].
  case_bool_decide; lia.
Qed.

(** With a cap [k] and [k - count] occurrences ahead, the counting loop
    stops at [k]. *)
Lemma count_tokens_fields c rest (k : Z) (fs : list cstring) (r : cstring) :
  ∀ (p : cstring) (count : Z),
    fields (c :: rest) p fs r →
    1 ≤ count →
    count + Z.of_nat (length fs) = k →
    count_tokens c rest k count p = k.
Proof.
  induction fs as [|f fs IH]; intros p count Hf Hc Hk;
    rewrite count_tokens_unfold; inversion Hf as [|? ? s' ? ? Hcut Hrest]; subst.
  - simpl. destruct (strstr _ _); [|lia].
    rewrite bool_decide_eq_false_2 by lia. lia.
  - rewrite (strstr_first_cut _ _ _ _ Hcut).
    simpl length in *. rewrite bool_decide_eq_true_2 by lia.
    destruct Hcut as [-> _].
    replace (length f + S (length rest))%nat
      with (length (f ++ c :: rest)) by (rewrite length_app; simpl; lia).
    rewrite (app_assoc f (c :: rest) s'), drop_app_length.
    apply IH; [done|lia|lia].
Qed.

Lemma g_strdup_granted (f : nat → Z) (s : cstring) :
  g_strdup (Some f) (Some s) = Some (terminated s).
Proof.
  unfold g_strdup, malloc, memcpy, terminated. simpl. f_equal.
  rewrite firstn_all2 by (rewrite length_app; simpl; lia).
  rewrite <- (app_nil_r (f <$> seq 0 (length s + 1))).
  rewrite list_inserts_0_r
    by (rewrite length_fmap, length_seq, length_app; simpl; lia).
  by rewrite app_nil_r.
Qed.

Lemma g_strdup_refused (s : option cstring) : g_strdup None s = None.
Proof. by destruct s. Qed.

(** Inside the loop [g_strndup] duplicates the field before the
    delimiter. *)
Lemma g_strndup_field (r : heap_reply Z) (p : cstring) (off : nat) :
  (off ≤ length p)%nat →
  g_strndup r (Some p) off = g_strdup r (Some (take off p)).
Proof.
  intros Hoff. destruct r as [f|]; [|done].
  rewrite g_strdup_granted.
  unfold g_strndup, malloc, memcpy, terminated. simpl. f_equal.
  rewrite take_app_le by done.
  set (block := f <$> seq 0 (off + 1)).
  assert (length block = off + 1)%nat as Hblock
    by (subst block; by rewrite length_fmap, length_seq).
  rewrite <- (take_drop off block).
  rewrite list_inserts_0_r by (rewrite !length_take; lia).
  rewrite insert_app_r_alt by (rewrite length_take; lia).
  rewrite length_take, Nat.min_l, Nat.sub_diag by done. f_equal.
  destruct (drop off block) as [|x [|y rest]] eqn:E;
    apply (f_equal length) in E; rewrite length_drop in E; simpl in E;
    try lia.
  done.
Qed.

(** The filling loop stores from slot [i] on. *)
Lemma fill_tokens_below needle max_tokens rs : ∀ n i p result (j : nat),
  (j < i)%nat →
  fill_tokens n needle max_tokens i p result rs !! j = result !! j.
Proof.
  induction n as [|n IH]; intros i p result j Hj; simpl; [done|].
  destruct (strstr p needle) as [off|].
  - case_bool_decide.
    + apply list_lookup_insert_ne. lia.
    + rewrite IH by lia. apply list_lookup_insert_ne. lia.
  - apply list_lookup_insert_ne. lia.
Qed.

Lemma fill_tokens_length needle max_tokens rs : ∀ n i p result,
  length (fill_tokens n needle max_tokens i p result rs) = length result.
Proof.
  induction n as [|n IH]; intros i p result; simpl; [done|].
  destruct (strstr p needle) as [off|]; [case_bool_decide|];
    rewrite ?IH, ?length_insert; done.
Qed.

(** An iteration of the filling loop whose allocation is granted fills
    its slot. *)
Lemma fill_tokens_first needle max_tokens rs n i p result :
  (i < length result)%nat →
  is_Some (rs i) →
  is_Some (fill_tokens (S n) needle max_tokens i p result rs !!! i).
Proof.
  intros Hi [f Hf]. cbn [fill_tokens]. rewrite Hf.
  destruct (strstr p needle) as [off|].
  - case_bool_decide.
    + rewrite list_lookup_total_insert_eq by done.
      rewrite g_strdup_granted. by eexists.
    + erewrite list_lookup_total_correct; [by eexists|].
      rewrite fill_tokens_below by lia. by apply list_lookup_insert_eq.
  - rewrite list_lookup_total_insert_eq by done.
    rewrite g_strdup_granted. by eexists.
Qed.

(** The filling loop stores the duplicates of the fields and then of
    the remaining text, whether it ends because no delimiter is left or
    at the cap, and whatever the replies to its allocations. *)
Lemma fill_tokens_run needle (max_tokens : Z) (rs : nat → heap_reply Z)
    (fs : list cstring) (r : cstring) :
  ∀ (n i : nat) (p : cstring) (result : list (option (list Z))),
    fields needle p fs r →
    (¬ occurs needle r
     ∨ (0 < max_tokens ∧ Z.of_nat i + Z.of_nat (length fs) = max_tokens - 1)) →
    (0 < max_tokens → Z.of_nat i + Z.of_nat (length fs) ≤ max_tokens - 1) →
    n = S (length fs) →
    fill_tokens n needle max_tokens i p result rs
    = list_inserts i
        (imap (λ j t, g_strdup (rs (i + j)%nat) (Some t)) (fs ++ [r])) result.
Proof.
  induction fs as [|f fs IH]; intros n i p result Hf Hstop Hcap ->;
    inversion Hf as [|? ? s' ? ? Hcut Hrest]; subst; simpl in Hstop, Hcap.
  - cbn [fill_tokens length app imap list_inserts]. rewrite Nat.add_0_r.
    destruct (strstr r needle) eqn:E; [|done].
    destruct Hstop as [Hno|[? ?]].
    + apply strstr_None in Hno. congruence.
    + rewrite bool_decide_eq_true_2 by lia. done.
  - simpl length. remember (S (length fs)) as n' eqn:Hn'.
    cbn [fill_tokens].
    rewrite (strstr_first_cut _ _ _ _ Hcut).
    rewrite bool_decide_eq_false_2 by lia.
    destruct Hcut as [-> _].
    rewrite g_strndup_field by (rewrite length_app; lia).
    rewrite take_app_length.
    replace (length f + length needle)%nat
      with (length (f ++ needle)) by (by rewrite length_app).
    rewrite (app_assoc f needle s'), drop_app_length.
    rewrite (IH n' (S i) s'); [|done| |lia|done].
    + change ((f :: fs) ++ [r]) with (f :: (fs ++ [r])).
      rewrite imap_cons. cbn [list_inserts]. rewrite Nat.add_0_r.
      rewrite (imap_ext ((λ j t, g_strdup (rs (i + j)%nat) (Some t)) ∘ S)
                 (λ j t, g_strdup (rs (S i + j)%nat) (Some t)))
        by (intros j t _; unfold compose;
            by replace (i + S j)%nat with (S i + j)%nat by lia).
      symmetry. apply list_insert_inserts_lt. lia.
    + destruct Hstop as [?|[? ?]]; [by left|right; lia].
Qed.

(** When the allocations are granted, every slot holds the block of its
    token. *)
Lemma imap_granted (rs : nat → heap_reply Z) (toks : list cstring) :
  granted rs (length toks) →
  imap (λ j t, g_strdup (rs j) (Some t)) toks = Some <$> (terminated <$> toks).
Proof.
  intros Hg. apply list_eq. intros j.
  rewrite list_lookup_imap, !list_lookup_fmap.
  destruct (toks !! j) as [t|] eqn:E; [|done].
  destruct (Hg j) as [f ->]; [by eapply lookup_lt_Some|].
  cbn [fmap option_fmap option_map]. by rewrite g_strdup_granted.
Qed.

Lemma list_inserts_all {X} (k : list X) (x : X) :
  list_inserts 0 k (replicate (length k + 1) x) = k ++ [x].
Proof.
  rewrite replicate_add. apply list_inserts_0_r. by rewrite length_replicate.
Qed.

Lemma strv_Some_app (toks : list (list Z)) (v : list (option (list Z))) :
  strv ((Some <$> toks) ++ None :: v) = toks.
Proof. induction toks as [|t toks IH]; simpl; [done|]. f_equal. exact IH. Qed.

(** C4, as stated, fails on occurrences that overlap, and when an
    allocation is refused: "aaa" holds "aa" at the offsets 0 and 1, two
    occurrences, and yet a split with the cap 3, all of its allocations
    granted, returns the two tokens "" and "a", not three; and the
    split of "a,b,c" with the cap 2 returns [NULL] when its vector is
    refused. *)
Lemma C4_split_overlapping_occurrences :
  lit "aaa" = lit "" ++ lit "aa" ++ lit "a" ∧
  lit "aaa" = lit "a" ++ lit "aa" ++ lit "" ∧
  strv <$> g_strsplit true (λ _, Some (λ _, 0))
             (Some (lit "aaa")) (Some (lit "aa")) 3
    = Some [terminated (lit ""); terminated (lit "a")] ∧
  (¬ ∃ v : list (option (list Z)),
       g_strsplit true (λ _, Some (λ _, 0))
         (Some (lit "aaa")) (Some (lit "aa")) 3 = Some v ∧
       Z.of_nat (length (strv v)) = 3) ∧
  g_strsplit false (λ _, Some (λ _, 0)) (Some (lit "a,b,c")) (Some (lit ",")) 2
    = None.
Proof.
  split_and!; try reflexivity.
  intros (v & Hv & Hlen).
  change (g_strsplit _ _ _ _ _)
    with (Some [Some (terminated (lit "")); Some (terminated (lit "a")); None])
    in Hv.
  injection Hv as <-. discriminate Hlen.
Qed.

(** C4, amended.  With a non-empty delimiter and a cap [k >= 1],
    when the input has at least [k - 1] occurrences of the delimiter
    that do not overlap, taken from left to right (so that its first
    [k - 1] fields [fs] exist, with the text [r] remaining after them),
    and the vector and the [k] tokens are granted, [g_strsplit] returns
    exactly [k] tokens followed by the [NULL] sentinel: the blocks of
    the fields [fs], and then the block of all of [r], unsplit.  When
    the vector is refused it returns [NULL]. *)
Theorem C4_split_with_cap (rs : nat → heap_reply Z) (h needle : cstring)
    (k : Z) (fs : list cstring) (r : cstring) :
  needle ≠ [] →
  1 ≤ k →
  fields needle h fs r →
  Z.of_nat (length fs) = k - 1 →
  granted rs (Z.to_nat k) →
  (∃ v : list (option (list Z)),
     g_strsplit true rs (Some h) (Some needle) k = Some v ∧
     v = (Some <$> (terminated <$> fs ++ [r])) ++ [None] ∧
     strv v = terminated <$> fs ++ [r] ∧
     Z.of_nat (length (strv v)) = k) ∧
  g_strsplit false rs (Some h) (Some needle) k = None.
Proof.
  intros Hne Hk Hf Hlen Hg. destruct needle as [|c rest]; [done|].
  split; [|done].
  eexists. split; [|split; [reflexivity|]].
  - unfold g_strsplit.
    rewrite (count_tokens_fields c rest k fs r h 1 Hf) by lia.
    rewrite (fill_tokens_run (c :: rest) k rs fs r (Z.to_nat k) 0 h);
      [|done|right; lia|lia|lia].
    rewrite imap_granted
      by (rewrite length_app; simpl;
          by replace (length fs + 1)%nat with (Z.to_nat k) by lia).
    f_equal.
    replace (Z.to_nat (k + 1))
      with (length (Some <$> (terminated <$> fs ++ [r])) + 1)%nat
      by (rewrite !length_fmap, length_app; simpl; lia).
    apply list_inserts_all.
  - rewrite strv_Some_app. split; [done|].
    rewrite length_fmap, length_app. simpl. lia.
Qed.

(** The example of the specification: split("a,b,c", ",", 2). *)
Lemma C4_split_with_cap_witness :
  (∃ v : list (option (list Z)),
     g_strsplit true (λ _, Some (λ _, 7)) (Some (lit "a,b,c")) (Some (lit ",")) 2
       = Some v ∧
     v = (Some <$> (terminated <$> [lit "a"] ++ [lit "b,c"])) ++ [None] ∧
     strv v = terminated <$> [lit "a"] ++ [lit "b,c"] ∧
     Z.of_nat (length (strv v)) = 2) ∧
  g_strsplit false (λ _, Some (λ _, 7)) (Some (lit "a,b,c")) (Some (lit ",")) 2
    = None.
Proof.
  apply (C4_split_with_cap (λ _, Some (λ _, 7)) (lit "a,b,c") (lit ",") 2
           [lit "a"] (lit "b,c")).
  - discriminate.
  - lia.
  - apply (fields_cons _ _ _ (lit "b,c")); [|constructor].
    split; [reflexivity|].
    intros [|x pre] post Hocc; [discriminate Hocc|simpl; lia].
  - reflexivity.
  - intros i _. by eexists.
Defined.

Example split_a_b_c_2 :
  fmap string_at ∘ strv
    <$> g_strsplit true (λ _, Some (λ _, 7)) (Some (lit "a,b,c"))
          (Some (lit ",")) 2
  = Some [lit "a"; lit "b,c"].
Proof. reflexivity. Qed.

Example split_unlimited :
  fmap string_at ∘ strv
    <$> g_strsplit true (λ _, Some (λ _, 7)) (Some (lit "a,b,,c"))
          (Some (lit ",")) 0
  = Some [lit "a"; lit "b"; lit ""; lit "c"].
Proof. reflexivity. Qed.

(** A token whose allocation is refused leaves [NULL] in its slot, and
    the loop goes on: the walk over the vector stops there. *)
Example split_token_refused :
  let rs : nat → heap_reply Z :=
    λ i, if decide (i = 1%nat) then None else Some (λ _, 7) in
  g_strsplit true rs (Some (lit "a,b,c")) (Some (lit ",")) 0
  = Some [Some (terminated (lit "a")); None; Some (terminated (lit "c")); None].
Proof. reflexivity. Qed.

(** C10, as stated, fails when the allocation of the token is refused:
    the vector returned for the input "abc" then holds [NULL] in its
    first slot, which makes it an empty sequence. *)
Lemma C10_split_empty_sequence :
  ∃ v : list (option (list Z)),
    g_strsplit true (λ _, None) (Some (lit "abc")) (Some (lit ",")) 0 = Some v ∧
    v = [None; None] ∧
    strv v = [].
Proof. eexists. repeat split; reflexivity. Qed.

(** C10, amended.  When the non-empty delimiter does not occur in
    the input (the empty input included), and the vector and the token
    are granted, [g_strsplit] returns one token, a copy of the whole
    input, followed by the [NULL] sentinel; and whenever it returns a
    vector for a non-[NULL] input and the first token is granted, the
    vector is not empty.  When the token is refused the vector holds
    [NULL] only, and when the vector is refused the result is [NULL]. *)
Theorem C10_split_without_delimiter (rs : nat → heap_reply Z) (h : cstring)
    (needle : option cstring) (max_tokens : Z) :
  (∀ nd : cstring, needle = Some nd → nd ≠ [] → ¬ occurs nd h →
     g_strsplit true rs (Some h) needle max_tokens
     = Some [if rs 0%nat is Some _ then Some (terminated h) else None; None]) ∧
  (∀ v : list (option (list Z)),
     g_strsplit true rs (Some h) needle max_tokens = Some v →
     is_Some (rs 0%nat) → strv v ≠ []) ∧
  g_strsplit false rs (Some h) needle max_tokens = None.
Proof.
  split; [|split].
  - intros nd -> Hne Hno. destruct nd as [|c rest]; [done|].
    apply strstr_None in Hno. unfold g_strsplit.
    rewrite count_tokens_unfold, Hno.
    change (Z.to_nat 1) with 1%nat. change (Z.to_nat (1 + 1)) with 2%nat.
    cbn [fill_tokens replicate]. rewrite Hno.
    destruct (rs 0%nat) as [f|]; [by rewrite g_strdup_granted|done].
  - intros v Hv Hg. unfold g_strsplit in Hv.
    destruct needle as [[|c rest]|]; [done| |done].
    injection Hv as <-.
    pose proof (count_tokens_ge c rest max_tokens 1 h) as Hge.
    set (count := count_tokens c rest max_tokens 1 h) in *.
    destruct (Z.to_nat count) as [|n] eqn:En; [lia|].
    pose proof (fill_tokens_first (c :: rest) max_tokens rs n 0 h
                  (replicate (Z.to_nat (count + 1)) None)) as Hfirst.
    rewrite length_replicate in Hfirst.
    specialize (Hfirst ltac:(lia) Hg).
    destruct (fill_tokens _ _ _ _ _ _ _) as [|[t|] v]; [| done |];
      by destruct Hfirst.
  - by destruct needle as [[|c rest]|].
Qed.

Lemma C10_split_without_delimiter_witness :
  g_strsplit true (λ _, Some (λ _, 7)) (Some (lit "abc")) (Some (lit ",")) 0
    = Some [Some (terminated (lit "abc")); None]
  ∧ g_strsplit true (λ _, Some (λ _, 7)) (Some (lit "")) (Some (lit ",")) 2
    = Some [Some (terminated (lit "")); None].
Proof.
  split.
  - apply (proj1 (C10_split_without_delimiter (λ _, Some (λ _, 7))
                    (lit "abc") (Some (lit ",")) 0)
             (lit ",")); [reflexivity|discriminate|].
    apply strstr_None. reflexivity.
  - apply (proj1 (C10_split_without_delimiter (λ _, Some (λ _, 7))
                    (lit "") (Some (lit ",")) 2)
             (lit ",")); [reflexivity|discriminate|].
    apply strstr_None. reflexivity.
Defined.

(** ** Splitting, whatever the cap *)











End str_facts.

(** * Case folding, concatenation and delimiters *)

Section str_case.
Import Str.

Lemma tolower_byte (b : Z) : is_byte b → is_byte (tolower b).
Proof. unfold is_byte, tolower. case_decide; lia. Qed.

Lemma tolower_not_upper (b : Z) : ¬ (65 ≤ tolower b ≤ 90).
Proof. unfold tolower. case_decide; lia. Qed.

Lemma tolower_idemp (b : Z) : tolower (tolower b) = tolower b.
Proof. unfold tolower. repeat case_decide; lia. Qed.

(** The lowering loop rewrites the cells [i .. i + n) of the result with
    the lowered bytes of the source, and no other cell. *)
Lemma casefold_loop_spec (str : list Z) : ∀ (n i : nat) (result : list Z),
  (i + n ≤ length str)%nat →
  (i + n ≤ length result)%nat →
  Forall is_byte str →
  casefold_loop n i str result
  = take i result ++ (tolower <$> take n (drop i str))
      ++ drop (i + n) result.
Proof.
  induction n as [|n IH]; intros i result Hs Hr Hb; simpl.
  - rewrite Nat.add_0_r. by rewrite take_drop.
  - rewrite IH by (rewrite ?length_insert; done || lia).
    destruct (lookup_lt_is_Some_2 str i ltac:(lia)) as [b Hb'].
    rewrite (list_lookup_total_correct _ _ _ Hb').
    rewrite uchar_id by (by eapply Forall_lookup_1).
    rewrite (drop_S _ _ _ Hb'). simpl.
    rewrite (take_S_r (<[i:=tolower b]> result) i (tolower b))
      by (apply list_lookup_insert_eq; lia).
    rewrite take_insert_ge by lia.
    rewrite drop_insert_lt by lia.
    rewrite <- app_assoc. simpl.
    by replace (i + S n)%nat with (S i + n)%nat by lia.
Qed.

Lemma length_string_at (buf : list Z) :
  (length (string_at buf) ≤ length buf)%nat.
Proof.
  induction buf as [|b buf IH]; simpl; [done|].
  case_decide; simpl; lia.
Qed.

Lemma g_utf8_casefold_spec (f : nat → Z) (buf : list Z) (len : Z) :
  Forall is_byte buf →
  len ≤ Z.of_nat (length buf) →
  g_utf8_casefold (Some f) (Some buf) len
  = Some ((tolower <$> take (if decide (len < 0)
                             then length (string_at buf)
                             else Z.to_nat len) buf) ++ [0]).
Proof.
  intros Hb Hlen. unfold g_utf8_casefold.
  set (n := if decide (len < 0) then length (string_at buf)
            else Z.to_nat len).
  assert (n ≤ length buf)%nat as Hn.
  { subst n. case_decide; [apply length_string_at|lia]. }
  unfold malloc. simpl. f_equal.
  rewrite casefold_loop_spec
    by (rewrite ?length_fmap, ?length_seq; done || lia).
  rewrite take_0, drop_0. cbn [app Nat.add].
  set (block := f <$> seq 0 (n + 1)).
  assert (length block = n + 1)%nat as Hblock
    by (subst block; by rewrite length_fmap, length_seq).
  assert (length (tolower <$> take n buf) = n) as Hout
    by (rewrite length_fmap, length_take; lia).
  rewrite insert_app_r_alt by lia. rewrite Hout, Nat.sub_diag.
  f_equal.
  destruct (drop n block) as [|x [|y rest]] eqn:E;
    apply (f_equal length) in E; rewrite length_drop in E; simpl in E;
    try lia.
  done.
Qed.

(** X15. [g_utf8_casefold] on the first [len] bytes of the memory at
    [str], which [len] must not exceed, or on the string that starts it
    when [len] is negative, returns a block of exactly the lowered bytes
    and a terminator: bytes outside 'A'..'Z' are copied unchanged (so
    bytes from 128 on are, and so is a terminator that [len] reaches
    past), no byte of the result is in 'A'..'Z', and folding the result
    again over the same length gives the same bytes.  [g_utf8_strdown]
    does the same. *)
Theorem X15_casefold (f f' : nat → Z) (buf : list Z) (len : Z) :
  Forall is_byte buf →
  len ≤ Z.of_nat (length buf) →
  (len < 0 → 0 ∈ buf) →
  ∃ out : list Z,
    g_utf8_casefold (Some f) (Some buf) len = Some (out ++ [0]) ∧
    g_utf8_strdown (Some f) (Some buf) len = Some (out ++ [0]) ∧
    length out = (if decide (len < 0) then length (string_at buf)
                  else Z.to_nat len) ∧
    (∀ (i : nat) (b : Z), out !! i = Some b →
       ¬ (65 ≤ b ≤ 90) ∧
       ∃ b0 : Z, buf !! i = Some b0 ∧
         b = if decide (65 ≤ b0 ≤ 90) then b0 + 32 else b0) ∧
    g_utf8_casefold (Some f') (Some (out ++ [0])) (Z.of_nat (length out))
      = Some (out ++ [0]).
Proof.
  intros Hb Hlen _.
  set (n := if decide (len < 0) then length (string_at buf)
            else Z.to_nat len).
  assert (n ≤ length buf)%nat as Hn.
  { subst n. case_decide; [apply length_string_at|lia]. }
  exists (tolower <$> take n buf).
  assert (length (tolower <$> take n buf) = n) as Hout
    by (rewrite length_fmap, length_take; lia).
  split; [by apply g_utf8_casefold_spec|].
  split; [by apply g_utf8_casefold_spec|].
  split; [done|]. split.
  - intros i b Hi. apply list_lookup_fmap_Some in Hi as (b0 & -> & Hi).
    split; [apply tolower_not_upper|].
    apply lookup_take_Some in Hi as [Hi _]. by exists b0.
  - rewrite g_utf8_casefold_spec.
    + rewrite decide_False by lia. rewrite Nat2Z.id, Hout.
      rewrite <- Hout at 1. rewrite take_app_length.
      rewrite <- list_fmap_compose. do 2 f_equal.
      apply list_fmap_ext. intros _ b _. simpl. apply tolower_idemp.
    + apply Forall_app. split; [|by repeat constructor].
      apply Forall_fmap. eapply Forall_impl; [by apply Forall_take|].
      intros b. apply tolower_byte.
    + rewrite length_app. simpl. lia.
Qed.

(** A length that reaches past the terminator: the terminator and what
    follows it are lowered and copied like the other bytes. *)
Example casefold_past_terminator :
  g_utf8_casefold (Some (λ _, 7)) (Some [65; 98; 0]) 3 = Some [97; 98; 0; 0]
  ∧ g_utf8_casefold (Some (λ _, 7)) (Some [65; 98; 0; 67]) (-1)
    = Some [97; 98; 0].
Proof. split; reflexivity. Qed.

(** [strcat] onto a block that holds the string [acc] and has room for
    [src] after it. *)
Lemma strcat_spec (acc src rest : list Z) :
  Forall (λ b, b ≠ 0) acc →
  (length src ≤ length rest)%nat →
  strcat (acc ++ 0 :: rest) src
  = (acc ++ src) ++ 0 :: drop (length src) rest.
Proof.
  intros Hacc Hlen. unfold strcat, memcpy.
  rewrite (string_at_intro _ acc Hacc).
  - rewrite <- (Nat.add_0_r (length acc)), list_inserts_app_r.
    rewrite <- app_assoc. f_equal.
    rewrite <- (take_drop (S (length src)) (0 :: rest)) at 1.
    rewrite list_inserts_0_r
      by (rewrite length_take, length_app; simpl; lia).
    rewrite <- app_assoc. done.
  - by rewrite take_app_length.
  - by rewrite lookup_app_r, Nat.sub_diag by lia.
Qed.

Lemma strconcat_len_strv (args : list (option cstring)) :
  strconcat_len args = length (concat (strv args)).
Proof.
  induction args as [|[str|] args IH]; simpl; [done| |done].
  rewrite length_app. by rewrite IH.
Qed.

(** The [strcat] loop appends the arguments in order, after what the
    block holds. *)
Lemma strconcat_fill_spec : ∀ (args : list (option cstring))
    (acc rest : list Z),
  Forall (λ b, b ≠ 0) acc →
  Forall (Forall (λ b, b ≠ 0)) (strv args) →
  (strconcat_len args ≤ length rest)%nat →
  strconcat_fill args (acc ++ 0 :: rest)
  = (acc ++ concat (strv args)) ++ 0 :: drop (strconcat_len args) rest.
Proof.
  induction args as [|[str|] args IH]; intros acc rest Hacc Hargs Hlen;
    simpl in *; rewrite ?app_nil_r; try done.
  inversion_clear Hargs as [|?? Hstr Hargs'].
  rewrite strcat_spec by (done || lia).
  rewrite IH.
  - by rewrite drop_drop, <- !app_assoc.
  - by apply Forall_app.
  - done.
  - rewrite length_drop. lia.
Qed.

(** X16. [g_strconcat] of a first string and further strings ended by
    [NULL] returns a block of exactly their bytes in order and one
    terminator, whatever the block held when allocated: the block is
    sized by the first loop and filled by the second without a byte
    left over or written outside.  Arguments after the first [NULL] are
    ignored, and a [NULL] first string or a failed allocation gives
    [NULL]. *)
Theorem X16_strconcat (f : nat → Z) (first : cstring)
    (args : list (option cstring)) :
  Forall (λ b, b ≠ 0) first →
  Forall (Forall (λ b, b ≠ 0)) (strv args) →
  g_strconcat (Some f) (Some first) args
    = Some ((first ++ concat (strv args)) ++ [0]) ∧
  (string_at <$> g_strconcat (Some f) (Some first) args)
    = Some (first ++ concat (strv args)) ∧
  (∀ more, g_strconcat (Some f) (Some first) (args ++ None :: more)
     = g_strconcat (Some f) (Some first) (args ++ [None])) ∧
  g_strconcat (Some f) None args = None ∧
  g_strconcat None (Some first) args = None.
Proof.
  intros Hfirst Hargs.
  assert (g_strconcat (Some f) (Some first) args
          = Some ((first ++ concat (strv args)) ++ [0])) as Heq.
  { unfold g_strconcat, malloc. simpl. f_equal.
    set (block := f <$> seq 0 (length first + strconcat_len args + 1)).
    assert (length block = length first + strconcat_len args + 1)%nat
      as Hblock by (subst block; by rewrite length_fmap, length_seq).
    unfold strcpy, memcpy.
    rewrite <- (take_drop (S (length first)) block).
    rewrite list_inserts_0_r
      by (rewrite length_take, length_app; cbn [length]; lia).
    rewrite <- app_assoc. simpl.
    rewrite strconcat_fill_spec
      by (rewrite ?length_drop; done || lia).
    f_equal. f_equal. apply nil_length_inv. rewrite !length_drop. lia. }
  split; [done|]. split; [|split; [|done]].
  - rewrite Heq. simpl. f_equal. apply string_at_intro.
    + apply Forall_app. split; [done|]. by apply Forall_concat.
    + by rewrite take_app_length.
    + by rewrite lookup_app_r, Nat.sub_diag by lia.
  - intros more. unfold g_strconcat.
    assert (∀ tail, strconcat_len (args ++ None :: tail) = strconcat_len args)
      as Hl.
    { intros tail. clear. induction args as [|[str|] args IH]; simpl; auto. }
    assert (∀ tail blk,
              strconcat_fill (args ++ None :: tail) blk
              = strconcat_fill args blk) as Hf.
    { intros tail. clear.
      induction args as [|[str|] args IH]; intros blk; simpl; auto. }
    rewrite !Hl. unfold malloc. simpl. by rewrite !Hf.
Qed.

Lemma strdelimit_loop_spec (delimiters : cstring) (new_delimiter : Z)
    (s : cstring) :
  strdelimit_loop delimiters new_delimiter s
  = (λ c, if bool_decide (c ∈ delimiters) then new_delimiter else c) <$> s.
Proof. induction s as [|c s IH]; simpl; [done|]. by rewrite IH. Qed.

(** X20. [g_strdelimit] rewrites the string in place, byte for byte:
    the length is kept, a byte that is no delimiter is left as it is,
    and a delimiter becomes [new_delimiter].  When [new_delimiter] is
    not itself a delimiter, no delimiter is left and a second call
    changes nothing; when it is not [NUL], the result is still a string
    of the same length.  A [NULL] set of delimiters stands for the
    default set. *)
Theorem X20_strdelimit (G_STR_DELIMITERS s : cstring)
    (delimiters : option cstring) (new_delimiter : Z) :
  let ds := default G_STR_DELIMITERS delimiters in
  ∃ out : list Z,
    g_strdelimit G_STR_DELIMITERS (Some s) delimiters new_delimiter
      = Some out ∧
    length out = length s ∧
    (∀ (i : nat) (c : Z), s !! i = Some c →
       out !! i = Some (if bool_decide (c ∈ ds) then new_delimiter else c)) ∧
    ((new_delimiter ∉ ds) →
       Forall (λ c, c ∉ ds) out ∧
       g_strdelimit G_STR_DELIMITERS (Some out) delimiters new_delimiter
         = Some out) ∧
    (new_delimiter ≠ 0 → Forall (λ c, c ≠ 0) s →
       string_at (out ++ [0]) = out).
Proof.
  intros ds. unfold g_strdelimit. fold ds.
  rewrite strdelimit_loop_spec. eexists. split; [done|].
  split; [by rewrite length_fmap|]. split; [|split].
  - intros i c Hi. unfold cstring in *. by rewrite list_lookup_fmap, Hi.
  - intros Hnd.
    assert (Forall (λ c, c ∉ ds)
              ((λ c, if bool_decide (c ∈ ds) then new_delimiter else c) <$> s))
      as Hout.
    { apply Forall_fmap, Forall_forall. intros c _. simpl.
      by case_bool_decide. }
    split; [done|]. f_equal. rewrite strdelimit_loop_spec.
    rewrite <- (list_fmap_id (_ <$> s)) at 2.
    apply Forall_fmap_ext_1. eapply Forall_impl; [exact Hout|].
    intros c Hc. simpl. by rewrite bool_decide_eq_false_2.
  - intros Hnz Hs. apply string_at_intro.
    + apply Forall_fmap. eapply Forall_impl; [exact Hs|].
      intros c Hc. simpl. by case_bool_decide.
    + by rewrite take_app_length.
    + by rewrite lookup_app_r, Nat.sub_diag by lia.
Qed.

End str_case.

Lemma X15_casefold_witness :
  ∃ out : list Z,
    Str.g_utf8_casefold (Some (λ _, 7%Z)) (Some (Str.lit "MdB9" ++ [0%Z])) (-1)
      = Some (out ++ [0%Z]) ∧
    Str.g_utf8_strdown (Some (λ _, 7%Z)) (Some (Str.lit "MdB9" ++ [0%Z])) (-1)
      = Some (out ++ [0%Z]) ∧
    length out = (if decide (-1 < 0)%Z
                  then length (string_at (Str.lit "MdB9" ++ [0%Z]))
                  else Z.to_nat (-1)) ∧
    (∀ (i : nat) (b : Z), out !! i = Some b →
       ¬ (65 ≤ b ≤ 90)%Z ∧
       ∃ b0 : Z, (Str.lit "MdB9" ++ [0%Z]) !! i = Some b0 ∧
         b = if decide (65 ≤ b0 ≤ 90)%Z then (b0 + 32)%Z else b0) ∧
    Str.g_utf8_casefold (Some (λ _, 9%Z)) (Some (out ++ [0%Z]))
      (Z.of_nat (length out)) = Some (out ++ [0%Z]).
Proof.
  apply (X15_casefold (λ _, 7%Z) (λ _, 9%Z) (Str.lit "MdB9" ++ [0%Z]) (-1)).
  - repeat constructor; unfold is_byte; simpl; lia.
  - simpl. lia.
  - intros _. apply (bool_decide_unpack _). reflexivity.
Defined.

Lemma X16_strconcat_witness :
  let args := [Some (Str.lit "-"); Some (Str.lit "cd"); None;
               Some (Str.lit "zz")] in
  Str.g_strconcat (Some (λ _, 7%Z)) (Some (Str.lit "ab")) args
    = Some ((Str.lit "ab" ++ concat (Str.strv args)) ++ [0%Z]) ∧
  (string_at <$> Str.g_strconcat (Some (λ _, 7%Z)) (Some (Str.lit "ab")) args)
    = Some (Str.lit "ab" ++ concat (Str.strv args)) ∧
  (∀ more, Str.g_strconcat (Some (λ _, 7%Z)) (Some (Str.lit "ab"))
             (args ++ None :: more)
     = Str.g_strconcat (Some (λ _, 7%Z)) (Some (Str.lit "ab"))
         (args ++ [None])) ∧
  Str.g_strconcat (Some (λ _, 7%Z)) None args = None ∧
  Str.g_strconcat None (Some (Str.lit "ab")) args = None.
Proof.
  apply (X16_strconcat (λ _, 7%Z) (Str.lit "ab")).
  - repeat constructor; discriminate.
  - repeat constructor; discriminate.
Defined.

(** * The string buffer *)

Section gstring_facts.
Import Str GStr.

Lemma g_string_new_well_formed ok r init s :
  g_string_new ok r init = Some s →
  well_formed s ∧ content s = default [] init.
Proof.
  unfold g_string_new. destruct ok; [|done].
  destruct init as [v|]; simpl.
  - destruct (malloc r (length v + 1)) as [block|] eqn:E; [|done].
    apply length_malloc in E. intros [= <-].
    rewrite memcpy_spec by (rewrite length_app; simpl; lia).
    unfold well_formed, content. simpl.
    rewrite drop_ge by (rewrite length_app; simpl; lia).
    rewrite app_nil_r. split_and!.
    + rewrite length_app. simpl. lia.
    + lia.
    + by rewrite lookup_app_r, Nat.sub_diag by lia.
    + by rewrite take_app_length.
  - destruct (malloc r 16) as [block|] eqn:E; [|done].
    apply length_malloc in E. intros [= <-].
    unfold well_formed, content. simpl. split_and!.
    + by rewrite length_insert.
    + lia.
    + apply list_lookup_insert_eq. lia.
    + done.
Qed.

Lemma g_string_assign_spec r s rval s' :
  well_formed s →
  g_string_assign r (Some s) rval = Some s' →
  well_formed s' ∧ content s' = default [] rval.
Proof.
  intros (Hblock & Hcap & Hnul). unfold g_string_assign. simpl.
  set (n := from_option length 0%nat rval).
  assert (Hgrow : ∀ s1,
    (if decide (allocated_len s < n + 1)%nat
     then new_str ← realloc r (str s) (n + 1);
          Some (MkGString new_str (len s) (n + 1))
     else Some s) = Some s1 →
    length (str s1) = allocated_len s1 ∧ (n + 1 ≤ allocated_len s1)%nat).
  { intros s1. case_decide.
    - destruct (realloc r (str s) (n + 1)) as [block|] eqn:E; [|done].
      apply realloc_Some in E as [E _]. intros [= <-]. simpl. lia.
    - intros [= <-]. lia. }
  destruct (if decide (allocated_len s < n + 1)%nat then _ else _)
    as [s1|]; [|done].
  destruct (Hgrow s1 eq_refl) as [Hb1 Hc1]. simpl. intros [= <-].
  unfold well_formed, content. simpl. destruct rval as [v|]; simpl in *;
    subst n; simpl in *.
  - rewrite memcpy_spec by (rewrite length_app; simpl; lia).
    simpl. split_and!.
    + rewrite !length_app, length_drop. simpl. lia.
    + lia.
    + rewrite lookup_app_l by (rewrite length_app; simpl; lia).
      by rewrite lookup_app_r, Nat.sub_diag by lia.
    + rewrite <- app_assoc. by rewrite take_app_length.
  - split_and!.
    + by rewrite length_insert.
    + lia.
    + apply list_lookup_insert_eq. lia.
    + done.
Qed.

Lemma g_string_append_spec r s val s' :
  well_formed s →
  g_string_append r (Some s) val = Some s' →
  well_formed s' ∧ content s' = content s ++ default [] val.
Proof.
  intros (Hblock & Hcap & Hnul). unfold g_string_append.
  destruct val as [v|]; simpl.
  2:{ intros [= <-]. by rewrite app_nil_r. }
  set (n := (len s + length v)%nat).
  assert (Hgrow : ∀ s1,
    (if decide (allocated_len s < n + 1)%nat
     then new_str ← realloc r (str s) ((n + 1) * 2);
          Some (MkGString new_str (len s) ((n + 1) * 2))
     else Some s) = Some s1 →
    length (str s1) = allocated_len s1 ∧ (n + 1 ≤ allocated_len s1)%nat ∧
    len s1 = len s ∧ take (len s) (str s1) = take (len s) (str s)).
  { intros s1. case_decide.
    - destruct (realloc r (str s) ((n + 1) * 2)) as [block|] eqn:E; [|done].
      apply realloc_Some in E as [E1 E2]. intros [= <-]. simpl.
      split_and!; [lia|lia|done|].
      rewrite (take_ge (str s)) in E2 by lia.
      rewrite <- E2. rewrite take_take. f_equal. lia.
    - intros [= <-]. split_and!; [done|lia|done|done]. }
  destruct (if decide (allocated_len s < n + 1)%nat then _ else _)
    as [s1|]; [|done].
  destruct (Hgrow s1 eq_refl) as (Hb1 & Hc1 & Hl1 & Hkeep). simpl.
  intros [= <-]. unfold well_formed, content. simpl.
  rewrite Hl1. rewrite memcpy_spec by (rewrite length_app; simpl; lia).
  rewrite Hkeep.
  assert (Hpre : length (take (len s) (str s)) = len s)
    by (rewrite length_take; lia).
  split_and!.
  + rewrite !length_app, length_drop, Hpre. simpl. lia.
  + lia.
  + rewrite lookup_app_r by lia. rewrite Hpre.
    rewrite lookup_app_l by (rewrite length_app; simpl; lia).
    rewrite lookup_app_r by lia.
    by replace (n - len s - length v)%nat with 0%nat by lia.
  + rewrite <- (app_assoc v), (app_assoc _ v).
    replace n with (length (take (len s) (str s) ++ v))
      by (rewrite length_app; lia).
    by rewrite take_app_length.
Qed.

Lemma gstring_step_spec s o s' :
  well_formed s →
  step (Some s) o = Some s' →
  well_formed s' ∧ content s' = ref_step (content s) o.
Proof.
  destruct o as [r rval | r val]; simpl.
  - apply g_string_assign_spec.
  - apply g_string_append_spec.
Qed.

Lemma gstring_step_alloc_ok s o : alloc_ok o → is_Some (step (Some s) o).
Proof.
  destruct o as [r rval | r val]; simpl; intros [f ->].
  - unfold g_string_assign. simpl. case_decide; simpl; by eexists.
  - unfold g_string_append. destruct val as [v|]; [|by eexists].
    case_decide; simpl; by eexists.
Qed.

(** C3. For a buffer that satisfies the invariant of the data model and
    a sequence of assign/append operations that all succeed: the
    sequence runs to its end when no allocation fails, and after every
    operation the content of the buffer is the string of the reference
    model, its [len] is the length of that string,
    [allocated_len >= len + 1], and the byte at [str[len]] is [NUL]. *)
Theorem C3_string_buffer (s : GString) (ops : list op) :
  well_formed s →
  (Forall alloc_ok ops → is_Some (run s ops)) ∧
  ∀ states : list GString,
    run s ops = Some states →
    content <$> states = ref_run (content s) ops ∧
    len <$> states = length <$> ref_run (content s) ops ∧
    Forall (λ s', (len s' + 1 ≤ allocated_len s')%nat ∧
                  str s' !! len s' = Some 0) states.
Proof.
  revert s. induction ops as [|o ops IH]; intros s Hwf.
  - split; [by eexists|]. intros states [= <-]. by split_and!.
  - split.
    + intros Hok. inversion_clear Hok as [|?? Ho Hops].
      destruct (gstring_step_alloc_ok s o Ho) as [s' Hs'].
      destruct (gstring_step_spec s o s' Hwf Hs') as [Hwf' _].
      destruct (proj1 (IH s' Hwf') Hops) as [rest Hrest].
      cbn [run]. rewrite Hs'. simpl. rewrite Hrest. by eexists.
    + intros states. cbn [run].
      destruct (step (Some s) o) as [s'|] eqn:Hs'; [|done]. simpl.
      destruct (run s' ops) as [rest|] eqn:Hrest; [|done]. simpl.
      intros [= <-].
      destruct (gstring_step_spec s o s' Hwf Hs') as [Hwf' Hc'].
      destruct (proj2 (IH s' Hwf') rest Hrest) as (IH1 & IH2 & IH3).
      cbn [ref_run]. rewrite <- Hc', !fmap_cons, IH1, IH2.
      split_and!; [done| |].
      * f_equal. unfold content. destruct Hwf' as (Hb & Hc & _).
        rewrite length_take. lia.
      * constructor; [|done]. destruct Hwf' as (_ & Hc & Hn). done.
Qed.

Lemma C3_string_buffer_witness :
  let s := MkGString [0; 7] 0 2 in
  let ops := [Append (Some (λ _, 9)) (Some [104; 105]);
              Assign None (Some [120]);
              Append None None;
              Assign (Some (λ _, 9)) (Some [97; 98; 99; 100; 101; 102])] in
  (Forall alloc_ok ops → is_Some (run s ops)) ∧
  ∀ states : list GString,
    run s ops = Some states →
    content <$> states = ref_run (content s) ops ∧
    len <$> states = length <$> ref_run (content s) ops ∧
    Forall (λ s', (len s' + 1 ≤ allocated_len s')%nat ∧
                  str s' !! len s' = Some 0) states.
Proof.
  apply (C3_string_buffer (MkGString [0; 7] 0 2)).
  unfold well_formed. simpl. split_and!; [reflexivity|lia|reflexivity].
Defined.

(** A run of the four operations above, on a buffer of two bytes. *)
Example string_buffer_run :
  run (MkGString [0; 7] 0 2)
    [Append (Some (λ _, 9)) (Some [104; 105]);
     Assign None (Some [120]);
     Append None None;
     Assign (Some (λ _, 9)) (Some [97; 98; 99; 100; 101; 102])]
  = Some [MkGString [104; 105; 0; 9; 9; 9] 2 6;
          MkGString [120; 0; 0; 9; 9; 9] 1 6;
          MkGString [120; 0; 0; 9; 9; 9] 1 6;
          MkGString [97; 98; 99; 100; 101; 102; 0] 6 7].
Proof. reflexivity. Qed.

End gstring_facts.

(** * More on the string buffer *)

Section gstring_more.
Import Str GStr.

(** X10. [g_string_new] returns a buffer exactly when its two
    allocations succeed.  The buffer then satisfies the invariant of the
    data model and holds the initial string, in a block of exactly
    [len + 1] bytes; without an initial string it is empty, in a block
    of 16 bytes. *)
Theorem X10_string_new (ok : bool) (r : heap_reply Z) (init : option cstring) :
  (ok = true → is_Some r →
   ∃ s, g_string_new ok r init = Some s ∧
        well_formed s ∧
        content s = default [] init ∧
        allocated_len s = from_option (λ v, length v + 1)%nat 16%nat init) ∧
  (ok = false ∨ r = None → g_string_new ok r init = None).
Proof.
  split.
  - intros -> [f ->].
    destruct (g_string_new true (Some f) init) as [s|] eqn:E.
    + destruct (g_string_new_well_formed _ _ _ _ E) as [Hwf Hc].
      exists s. split_and!; [done..|].
      unfold g_string_new in E. destruct init as [v|]; simpl in E;
        injection E as <-; done.
    + unfold g_string_new in E. by destruct init.
  - intros [-> | ->]; [done|]. unfold g_string_new.
    destruct ok; [|done]. by destruct init.
Qed.

Lemma gstring_step_capacity s o s' :
  step (Some s) o = Some s' →
  (allocated_len s ≤ allocated_len s')%nat.
Proof.
  destruct o as [r rval | r val]; simpl.
  - unfold g_string_assign. simpl. case_decide.
    + destruct (realloc r _ _); simpl; [|done]. intros [= <-]. simpl. lia.
    + intros [= <-]. simpl. lia.
  - unfold g_string_append. destruct val as [v|]; [|by intros [= <-]].
    case_decide.
    + destruct (realloc r _ _); simpl; [|done]. intros [= <-]. simpl. lia.
    + intros [= <-]. simpl. lia.
Qed.

(** X11. Assign and append never shrink the block: along any run the
    capacity does not decrease.  An operation whose result fits in the
    block does not call the allocator: it succeeds even when the
    allocator would refuse, and keeps the capacity. *)
Theorem X11_capacity (s : GString) (ops : list op) :
  (∀ states, run s ops = Some states →
     ∀ (i : nat) s1 s2,
       (s :: states) !! i = Some s1 → (s :: states) !! S i = Some s2 →
       (allocated_len s1 ≤ allocated_len s2)%nat) ∧
  (∀ o, (needed s o ≤ allocated_len s)%nat →
     ∃ s', step (Some s) o = Some s' ∧ allocated_len s' = allocated_len s).
Proof.
  split.
  - revert s. induction ops as [|o ops IH]; intros s states.
    + intros [= <-] i s1 s2 _ Hi. by destruct i.
    + cbn [run]. destruct (step (Some s) o) as [s'|] eqn:Hs'; [|done]. simpl.
      destruct (run s' ops) as [rest|] eqn:Hrest; [|done]. simpl.
      intros [= <-] [|i] s1 s2 H1 H2; simpl in *.
      * injection H1 as <-. injection H2 as <-.
        by eapply gstring_step_capacity.
      * by apply (IH s' rest Hrest i).
  - intros o Hfit. destruct o as [r rval | r val]; simpl in *.
    + unfold g_string_assign. simpl.
      rewrite decide_False by (destruct rval; simpl in *; lia).
      by eexists.
    + unfold g_string_append. destruct val as [v|]; [|by eexists].
      simpl in *. rewrite decide_False by lia. by eexists.
Qed.

Lemma gstring_step_clean s o s' :
  well_formed s → Forall (λ b, b ≠ 0) (content s) → op_strings_ok o →
  step (Some s) o = Some s' →
  well_formed s' ∧ Forall (λ b, b ≠ 0) (content s').
Proof.
  intros Hwf Hc Ho Hstep.
  destruct (gstring_step_spec s o s' Hwf Hstep) as [Hwf' ->].
  split; [done|]. destruct o as [r rval | r val]; simpl in *; [done|].
  by apply Forall_app.
Qed.

(** X12. What [g_string_free] hands out when it is told to keep the
    block is a [NUL]-terminated string with the content of the buffer:
    this holds for the buffer after every operation of a run, as long as
    the strings passed hold no [NUL]; when told to free the block it
    hands out [NULL]. *)
Theorem X12_string_free (s : GString) (ops : list op) (states : list GString) :
  well_formed s →
  Forall (λ b, b ≠ 0) (content s) →
  Forall op_strings_ok ops →
  run s ops = Some states →
  Forall (λ s', ∃ block, g_string_free (Some s') false = Some block ∧
                         string_at block = content s' ∧
                         g_string_free (Some s') true = None)
         (s :: states).
Proof.
  assert (Hfree : ∀ s', well_formed s' → Forall (λ b, b ≠ 0) (content s') →
            ∃ block, g_string_free (Some s') false = Some block ∧
                     string_at block = content s' ∧
                     g_string_free (Some s') true = None).
  { intros s' (Hb & Hc & Hn) Hnz. exists (str s'). split_and!; [done| |done].
    assert (length (content s') = len s') as Hl
      by (unfold content; rewrite length_take; lia).
    apply string_at_intro; [done|by rewrite Hl|by rewrite Hl]. }
  revert s states. induction ops as [|o ops IH]; intros s states Hwf Hc Hops.
  - intros [= <-]. constructor; [by apply Hfree|constructor].
  - cbn [run]. destruct (step (Some s) o) as [s'|] eqn:Hs'; [|done]. simpl.
    destruct (run s' ops) as [rest|] eqn:Hrest; [|done]. simpl.
    intros [= <-]. inversion_clear Hops as [|?? Ho Hops'].
    destruct (gstring_step_clean s o s' Hwf Hc Ho Hs') as [Hwf' Hc'].
    constructor; [by apply Hfree|]. by apply IH.
Qed.

End gstring_more.

Lemma X12_string_free_witness :
  let s := GStr.MkGString [104; 105; 0]%Z 2 3 in
  Forall (λ s', ∃ block, GStr.g_string_free (Some s') false = Some block ∧
                         string_at block = GStr.content s' ∧
                         GStr.g_string_free (Some s') true = None)
         (s :: [GStr.MkGString [104; 105; 33; 0; 0; 0; 0; 0]%Z 3 8]).
Proof.
  apply (X12_string_free (GStr.MkGString [104; 105; 0]%Z 2 3)
           [GStr.Append (Some (λ _, 0%Z)) (Some [33%Z])]).
  - unfold GStr.well_formed. simpl. repeat split; try lia; reflexivity.
  - simpl. repeat constructor; discriminate.
  - repeat constructor; simpl; repeat constructor; discriminate.
  - reflexivity.
Defined.

(** * The pointer array *)

Local Close Scope Z_scope.

Section ptr_array_facts.
Import PArr.
Context {A : Type} `{EqDecision A, Inhabited A}.
Implicit Types (a : GPtrArray A) (p : list A).

Lemma shift_left_length n : ∀ j p, length (shift_left n j p) = length p.
Proof.
  induction n as [|n IH]; intros j p; simpl; [done|].
  by rewrite IH, length_insert.
Qed.

(** The shifting loop moves the slots [(j, j + n]] one place down and
    leaves the others. *)
Lemma shift_left_lookup n : ∀ j p idx,
  j + n < length p →
  shift_left n j p !! idx
  = if decide (j ≤ idx < j + n) then p !! S idx else p !! idx.
Proof.
  induction n as [|n IH]; intros j p idx Hlen; simpl.
  - by rewrite decide_False by lia.
  - rewrite IH by (rewrite length_insert; lia).
    destruct (decide (idx = j)) as [->|Hne].
    + rewrite decide_False, decide_True by lia.
      rewrite list_lookup_insert_eq by lia.
      symmetry. apply list_lookup_lookup_total_lt. lia.
    + repeat case_decide; try lia; apply list_lookup_insert_ne; lia.
Qed.

(** Dropping slot [i] of an array of [n] slots in use. *)
Lemma shift_left_elements p (i n : nat) :
  i < n → n ≤ length p →
  take (n - 1) (shift_left (n - 1 - i) i p) = delete i (take n p).
Proof.
  intros Hi Hn. apply list_eq. intros idx.
  destruct (decide (idx < n - 1)) as [Hidx|Hidx].
  - rewrite lookup_take_lt by done.
    rewrite shift_left_lookup by lia.
    rewrite list_lookup_delete. repeat case_decide; try lia;
      by rewrite lookup_take_lt by lia.
  - rewrite lookup_take_ge by lia. symmetry. apply lookup_ge_None.
    rewrite length_delete
      by (apply lookup_lt_is_Some; rewrite length_take; lia).
    rewrite length_take. lia.
Qed.

Lemma g_ptr_array_add_spec r a entry :
  well_formed a →
  ∃ a', g_ptr_array_add r (Some a) entry = Some a' ∧
        well_formed a' ∧
        match r with
        | Some _ =>
            length (pdata a') = len a + 1 ∧ len a' = len a + 1 ∧
            pdata a' !! len a = Some entry ∧
            elements a' = elements a ++ [entry]
        | None => a' = a
        end.
Proof.
  intros Hwf. unfold g_ptr_array_add. simpl.
  destruct (realloc r (pdata a) (len a + 1)) as [block|] eqn:E.
  - apply realloc_Some in E as Hb. destruct Hb as [Hlen Hkeep].
    destruct r as [f|]; [|done].
    eexists. split; [done|]. unfold well_formed, elements in *. simpl.
    rewrite length_insert. split_and!; [lia|lia|done| |].
    + apply list_lookup_insert_eq. lia.
    + replace (len a + 1) with (S (len a)) by lia.
      erewrite take_S_r by (apply list_lookup_insert_eq; lia).
      rewrite take_insert_ge by lia. f_equal.
      apply (f_equal (take (len a))) in Hkeep.
      rewrite !take_take, !Nat.min_l in Hkeep by lia. done.
  - destruct r as [f|]; [done|]. eexists. by split_and!.
Qed.

(** The scan of [g_ptr_array_remove] from slot [i]. *)
Lemma remove_loop_spec data : ∀ n i a,
  well_formed a → i + n = len a →
  (let '(b, a') := remove_loop n i a data in
   well_formed a' ∧
   ((b = false ∧ a' = a ∧ data ∉ drop i (elements a)) ∨
    (b = true ∧ len a' = len a - 1 ∧ length (pdata a') = length (pdata a) ∧
     ∃ pre post, drop i (elements a) = pre ++ (data :: post) ∧ (data ∉ pre) ∧
                 elements a' = take i (elements a) ++ pre ++ post))).
Proof.
  induction n as [|n IH]; intros i a Hwf Hi; simpl.
  - split; [done|]. left. split_and!; [done..|].
    unfold elements. rewrite drop_ge by (rewrite length_take; lia).
    apply not_elem_of_nil.
  - assert (Hslot : elements a !! i = Some (pdata a !!! i)).
    { unfold elements. rewrite lookup_take_lt by lia.
      apply list_lookup_lookup_total_lt. unfold well_formed in Hwf. lia. }
    assert (Hdrop : drop i (elements a)
                    = pdata a !!! i :: drop (S i) (elements a)).
    { by apply drop_S. }
    case_decide as Heq.
    + unfold well_formed in *. simpl. rewrite shift_left_length.
      split; [lia|]. right. split_and!; [done..|].
      exists [], (drop (S i) (elements a)). rewrite Hdrop, Heq.
      split_and!; [done|apply not_elem_of_nil|].
      unfold elements at 1. simpl.
      rewrite shift_left_elements by lia. apply delete_take_drop.
    + specialize (IH (S i) a Hwf ltac:(lia)).
      destruct (remove_loop n (S i) a data) as [b a'].
      destruct IH as [Hwf' IH]. split; [done|].
      destruct IH as [(-> & -> & Hnot) | (-> & Hlen & Hcap & pre & post & Hd & Hpre & He)].
      * left. split_and!; [done..|]. rewrite Hdrop.
        apply not_elem_of_cons. done.
      * right. split_and!; [done..|].
        exists (pdata a !!! i :: pre), post. rewrite Hdrop, Hd.
        split_and!; [done| |].
        -- apply not_elem_of_cons. split; [congruence|done].
        -- rewrite He. rewrite (take_S_r _ _ _ Hslot).
           by rewrite <- app_assoc.
Qed.

Lemma g_ptr_array_remove_spec a data :
  well_formed a →
  ∃ (b : bool) a',
    g_ptr_array_remove (Some a) data = (b, Some a') ∧
    well_formed a' ∧
    ((b = false ∧ a' = a ∧ data ∉ elements a) ∨
     (b = true ∧ len a' = len a - 1 ∧
      ∃ pre post, elements a = pre ++ (data :: post) ∧ (data ∉ pre) ∧
                  elements a' = pre ++ post)).
Proof.
  intros Hwf. unfold g_ptr_array_remove.
  pose proof (remove_loop_spec data (len a) 0 a Hwf eq_refl) as Hloop.
  destruct (remove_loop (len a) 0 a data) as [b a'].
  exists b, a'. destruct Hloop as [Hwf' Hloop]. split_and!; [done..|].
  destruct Hloop as [(-> & -> & Hnot) | (-> & Hlen & _ & pre & post & Hd & Hpre & He)].
  - left. by split_and!.
  - right. split_and!; [done..|]. exists pre, post. by split_and!.
Qed.

Lemma ptr_array_step_spec a o :
  well_formed a →
  ∃ a', step (Some a) o = Some a' ∧ well_formed a' ∧
        elements a' `sublist_of` elements a ++ added [o].
Proof.
  intros Hwf. destruct o as [r entry | data]; cbn [step added omap list_omap].
  - destruct (g_ptr_array_add_spec r a entry Hwf) as (a' & -> & Hwf' & Hr).
    exists a'. split_and!; [done..|]. destruct r as [f|].
    + destruct Hr as (_ & _ & _ & ->). done.
    + subst a'. by apply sublist_inserts_r.
  - destruct (g_ptr_array_remove_spec a data Hwf) as (b & a' & -> & Hwf' & Hr).
    exists a'. split_and!; [done..|]. rewrite app_nil_r.
    destruct Hr as [(_ & -> & _) | (_ & _ & pre & post & -> & _ & ->)]; [done|].
    apply sublist_app; [done|]. by apply sublist_cons.
Qed.

Lemma ptr_array_run_spec (ops : list op) : ∀ a,
  well_formed a →
  ∃ a', foldl step (Some a) ops = Some a' ∧ well_formed a' ∧
        elements a' `sublist_of` elements a ++ added ops.
Proof.
  induction ops as [|o ops IH]; intros a Hwf.
  - exists a. simpl. by rewrite app_nil_r.
  - destruct (ptr_array_step_spec a o Hwf) as (a1 & Hstep & Hwf1 & Hsub1).
    destruct (IH a1 Hwf1) as (a' & Hrun & Hwf' & Hsub).
    exists a'. cbn [foldl]. rewrite Hstep. split_and!; [done..|].
    etrans; [exact Hsub|].
    replace (added (o :: ops)) with (added [o] ++ added ops)
      by (by destruct o).
    rewrite app_assoc. by apply sublist_app.
Qed.

(** C8. On a pointer array: a successful append puts the new handle at
    the last position, after the handles already there (a refused one
    changes nothing); remove drops the first slot identical to the given
    handle, moves every later slot one place down, decrements the length
    and answers [TRUE], or answers [FALSE] and changes nothing when no
    slot is identical; so after any sequence of appends and removes the
    handles of the array are, in order, a subsequence of the initial
    handles followed by the appended ones: those that were not removed
    keep their relative order. *)
Theorem C8_ptr_array_order a :
  well_formed a →
  (∀ (f : nat → A) (entry : A),
     ∃ a', g_ptr_array_add (Some f) (Some a) entry = Some a' ∧
           elements a' = elements a ++ [entry] ∧ len a' = len a + 1) ∧
  (∀ entry : A, g_ptr_array_add None (Some a) entry = Some a) ∧
  (∀ data : A,
     ∃ (b : bool) a',
       g_ptr_array_remove (Some a) data = (b, Some a') ∧
       ((b = false ∧ a' = a ∧ data ∉ elements a) ∨
        (b = true ∧ len a' = len a - 1 ∧
         ∃ pre post, elements a = pre ++ (data :: post) ∧ (data ∉ pre) ∧
                     elements a' = pre ++ post))) ∧
  (∀ ops : list op,
     ∃ a', foldl step (Some a) ops = Some a' ∧
           elements a' `sublist_of` elements a ++ added ops).
Proof.
  intros Hwf. split_and!.
  - intros f entry.
    destruct (g_ptr_array_add_spec (Some f) a entry Hwf)
      as (a' & Hadd & _ & _ & Hlen & _ & He).
    by exists a'.
  - intros entry.
    destruct (g_ptr_array_add_spec None a entry Hwf) as (a' & Hadd & _ & ->).
    done.
  - intros data.
    destruct (g_ptr_array_remove_spec a data Hwf) as (b & a' & Hrm & _ & Hr).
    by exists b, a'.
  - intros ops. destruct (ptr_array_run_spec ops a Hwf) as (a' & Hrun & _ & Hsub).
    by exists a'.
Qed.

(** C9, amended. An append that is granted its block reallocates the
    backing storage to exactly [len + 1] slots, one more than the slots
    in use (so one more than the block had exactly when the block was
    full), stores the handle at the new last position, index [len], and
    increments [len]; an append whose reallocation fails leaves the
    array, its length and its contents as they were. *)
Theorem C9_append_reallocates a (entry : A) :
  well_formed a →
  (∀ f : nat → A,
     ∃ a', g_ptr_array_add (Some f) (Some a) entry = Some a' ∧
           length (pdata a') = len a + 1 ∧
           (length (pdata a') = length (pdata a) + 1
            ↔ length (pdata a) = len a) ∧
           len a' = len a + 1 ∧
           pdata a' !! len a = Some entry ∧
           elements a' = elements a ++ [entry]) ∧
  g_ptr_array_add None (Some a) entry = Some a.
Proof.
  intros Hwf. split.
  - intros f.
    destruct (g_ptr_array_add_spec (Some f) a entry Hwf)
      as (a' & Hadd & _ & Hcap & Hlen & Hslot & He).
    exists a'. split_and!; [done..| |done|done|done].
    unfold well_formed in Hwf. lia.
  - destruct (g_ptr_array_add_spec None a entry Hwf) as (a' & Hadd & _ & ->).
    done.
Qed.

End ptr_array_facts.

Lemma C8_ptr_array_order_witness :
  let a : PArr.GPtrArray Z := PArr.MkGPtrArray [10; 20; 30; 99]%Z 3 in
  (∀ (f : nat → Z) (entry : Z),
     ∃ a', PArr.g_ptr_array_add (Some f) (Some a) entry = Some a' ∧
           PArr.elements a' = PArr.elements a ++ [entry] ∧
           PArr.len a' = PArr.len a + 1) ∧
  (∀ entry : Z, PArr.g_ptr_array_add None (Some a) entry = Some a) ∧
  (∀ data : Z,
     ∃ (b : bool) a',
       PArr.g_ptr_array_remove (Some a) data = (b, Some a') ∧
       ((b = false ∧ a' = a ∧ data ∉ PArr.elements a) ∨
        (b = true ∧ PArr.len a' = PArr.len a - 1 ∧
         ∃ pre post, PArr.elements a = pre ++ (data :: post) ∧ (data ∉ pre) ∧
                     PArr.elements a' = pre ++ post))) ∧
  (∀ ops : list PArr.op,
     ∃ a', foldl PArr.step (Some a) ops = Some a' ∧
           PArr.elements a' `sublist_of` PArr.elements a ++ PArr.added ops).
Proof.
  apply (C8_ptr_array_order (PArr.MkGPtrArray [10; 20; 30; 99]%Z 3)).
  unfold PArr.well_formed. simpl. lia.
Defined.

(** The example of the specification: from the empty array, append A, B
    and C, remove B: the array holds A, C. *)
Example ptr_array_A_B_C_remove_B :
  let f : nat → Z := λ _, 0%Z in
  PArr.elements <$>
    foldl PArr.step (PArr.g_ptr_array_new true)
      [PArr.Add (Some f) 65; PArr.Add (Some f) 66; PArr.Add (Some f) 67;
       PArr.Remove 66]%Z
  = Some [65; 67]%Z.
Proof. reflexivity. Qed.

(** C9, as stated, fails on an array that has seen a removal: after
    append 10 and remove 10 the block has one slot and none in use, and
    the next append reallocates it to one slot: the backing storage has
    not grown. *)
Lemma C9_append_without_growth :
  let f : nat → Z := λ _, 0%Z in
  let a : PArr.GPtrArray Z := PArr.MkGPtrArray [10%Z] 0 in
  let a' : PArr.GPtrArray Z := PArr.MkGPtrArray [20%Z] 1 in
  snd (PArr.g_ptr_array_remove
         (PArr.g_ptr_array_add (Some f) (PArr.g_ptr_array_new true) 10%Z)
         10%Z) = Some a ∧
  PArr.g_ptr_array_add (Some f) (Some a) 20%Z = Some a' ∧
  length (PArr.pdata a') = length (PArr.pdata a) ∧
  length (PArr.pdata a') ≠ length (PArr.pdata a) + 1.
Proof. split_and!; [reflexivity..|]. simpl. lia. Qed.

Lemma C9_append_reallocates_witness :
  let a : PArr.GPtrArray Z := PArr.MkGPtrArray [10; 20; 30; 99]%Z 3 in
  (∀ f : nat → Z,
     ∃ a', PArr.g_ptr_array_add (Some f) (Some a) 40%Z = Some a' ∧
           length (PArr.pdata a') = PArr.len a + 1 ∧
           (length (PArr.pdata a') = length (PArr.pdata a) + 1
            ↔ length (PArr.pdata a) = PArr.len a) ∧
           PArr.len a' = PArr.len a + 1 ∧
           PArr.pdata a' !! PArr.len a = Some 40%Z ∧
           PArr.elements a' = PArr.elements a ++ [40%Z]) ∧
  PArr.g_ptr_array_add None (Some a) 40%Z = Some a.
Proof.
  apply (C9_append_reallocates (PArr.MkGPtrArray [10; 20; 30; 99]%Z 3) 40%Z).
  unfold PArr.well_formed. simpl. lia.
Defined.

(** * Sorting and visiting the pointer array *)

Section ptr_array_sort.
Import PArr.
Context {A : Type} `{EqDecision A, Inhabited A}.
Implicit Types (a : GPtrArray A) (p l : list A).
Context (func : A → A → Z).

Lemma bubble_length x l : length (bubble func x l) = S (length l).
Proof.
  revert x. induction l as [|y l IH]; intros x; simpl; [done|].
  case_decide; simpl; by rewrite IH.
Qed.

Lemma bubble_perm x l : bubble func x l ≡ₚ x :: l.
Proof.
  revert x. induction l as [|y l IH]; intros x; simpl; [done|].
  case_decide.
  - rewrite IH. apply Permutation_swap.
  - by rewrite IH.
Qed.

(** The inner loop, run over the slots [j .. j + n], is one pass of
    [bubble]. *)
Lemma sort_pass_bubble : ∀ l pre x post,
  sort_pass func (length l) (length pre) (pre ++ x :: l ++ post)
  = pre ++ bubble func x l ++ post.
Proof.
  induction l as [|y l IH]; intros pre x post; [done|].
  cbn [length sort_pass bubble].
  assert (Hj : (pre ++ x :: (y :: l) ++ post) !!! length pre = x).
  { apply list_lookup_total_correct. by apply list_lookup_middle. }
  assert (Hj' : (pre ++ x :: (y :: l) ++ post) !!! S (length pre) = y).
  { apply list_lookup_total_correct.
    replace (pre ++ x :: (y :: l) ++ post)
      with ((pre ++ [x]) ++ y :: (l ++ post)) by (by rewrite <- app_assoc).
    apply list_lookup_middle. rewrite length_app. simpl. lia. }
  rewrite Hj, Hj'. case_decide.
  - replace (<[S (length pre) := x]> (<[length pre := y]> (pre ++ x :: (y :: l) ++ post)))
      with ((pre ++ [y]) ++ x :: l ++ post).
    + replace (S (length pre)) with (length (pre ++ [y]))
        by (rewrite length_app; simpl; lia).
      rewrite IH. by rewrite <- app_assoc.
    + rewrite insert_app_r_alt, Nat.sub_diag by lia. simpl.
      rewrite insert_app_r_alt by lia.
      replace (S (length pre) - length pre) with 1 by lia. simpl.
      by rewrite <- app_assoc.
  - replace (pre ++ x :: (y :: l) ++ post) with ((pre ++ [x]) ++ y :: l ++ post)
      by (by rewrite <- app_assoc).
    replace (S (length pre)) with (length (pre ++ [x]))
      by (rewrite length_app; simpl; lia).
    rewrite IH. by rewrite <- app_assoc.
Qed.

Section with_total_preorder.
Context (Htotal : ∀ x y, precedes func x y ∨ precedes func y x).
Context (Htrans : ∀ x y z, precedes func x y → precedes func y z → precedes func x z).

(** A pass moves a greatest element to the end. *)
Lemma bubble_last x l :
  ∃ init m, bubble func x l = init ++ [m] ∧ Forall (λ y, precedes func y m) init.
Proof.
  revert x. induction l as [|y l IH]; intros x; simpl.
  - by exists [], x.
  - case_decide as Hc.
    + destruct (IH x) as (init & m & Hb & Hall). exists (y :: init), m.
      rewrite Hb. split; [done|]. constructor; [|done].
      (* y ≤ x ≤ m *)
      assert (precedes func y x) by (destruct (Htotal x y) as [Hle|]; [unfold precedes in Hle; lia|done]).
      assert (x ∈ init ++ [m]) as Hx.
      { rewrite <- Hb. rewrite (bubble_perm x l). by left. }
      apply elem_of_app in Hx as [Hx|Hx%list_elem_of_singleton].
      * eapply Htrans; [done|]. by apply (proj1 (Forall_forall _ _) Hall).
      * by subst.
    + destruct (IH y) as (init & m & Hb & Hall). exists (x :: init), m.
      rewrite Hb. split; [done|]. constructor; [|done].
      assert (precedes func x y) by (unfold precedes; lia).
      assert (y ∈ init ++ [m]) as Hy.
      { rewrite <- Hb. rewrite (bubble_perm y l). by left. }
      apply elem_of_app in Hy as [Hy|Hy%list_elem_of_singleton].
      * eapply Htrans; [done|]. by apply (proj1 (Forall_forall _ _) Hall).
      * by subst.
Qed.
End with_total_preorder.

Lemma bubble_split x l :
  ∃ init m, bubble func x l = init ++ [m] ∧
            (total_preorder func → Forall (λ y, precedes func y m) init).
Proof.
  destruct (bubble func x l) as [|z b] eqn:Eb using rev_ind.
  - pose proof (bubble_length x l) as Hl. by rewrite Eb in Hl.
  - clear IHb. exists b, z. split; [done|]. intros [Htotal Htrans].
    destruct (bubble_last Htotal Htrans x l) as (init & m & Hb & Hall).
    rewrite Eb in Hb. by apply app_inj_tail in Hb as [-> ->].
Qed.

(** The passes that are left when the last [i] slots in use hold their
    final handles. *)
Lemma sort_passes_spec : ∀ n i front back rest,
  length front = S n → length back = i →
  ∃ sorted,
    sort_passes func n i (i + S n) (front ++ back ++ rest) = sorted ++ rest ∧
    sorted ≡ₚ front ++ back ∧
    (total_preorder func → StronglySorted (precedes func) back →
     Forall (λ x, Forall (precedes func x) back) front →
     StronglySorted (precedes func) sorted).
Proof.
  induction n as [|n IH]; intros i front back rest Hf Hb.
  - exists (front ++ back). simpl. split_and!; [by rewrite app_assoc|done|].
    intros _ Hs Hall. destruct front as [|x [|??]]; simplify_eq/=.
    constructor; [done|]. by inversion_clear Hall.
  - destruct front as [|x l]; [done|]. simpl in Hf.
    cbn [sort_passes].
    replace (i + S (S n) - i - 1) with (length l) by lia.
    pose proof (sort_pass_bubble l [] x (back ++ rest)) as Hpass.
    simpl in Hpass. simpl. rewrite Hpass.
    destruct (bubble_split x l) as (init & m & Hbub & Hmax).
    pose proof (bubble_perm x l) as Hperm.
    pose proof (bubble_length x l) as Hlen.
    rewrite Hbub in Hperm, Hlen |- *. rewrite length_app in Hlen. simpl in Hlen.
    destruct (IH (S i) init (m :: back) rest) as (sorted & Hrun & Hp & Hs);
      [lia|simpl; lia|].
    exists sorted. split_and!.
    + replace (i + S (S n)) with (S i + S n) by lia.
      rewrite <- Hrun. f_equal. by rewrite <- !app_assoc.
    + rewrite Hp. change (x :: l ++ back) with ((x :: l) ++ back).
      rewrite <- Hperm. by rewrite <- app_assoc.
    + intros Hlaw Hsb Hall. apply Hs; [done| |].
      * constructor; [done|].
        assert (m ∈ x :: l) as Hm.
        { rewrite <- Hperm. apply elem_of_app. right. by left. }
        by apply (proj1 (Forall_forall _ _) Hall m).
      * specialize (Hmax Hlaw). apply Forall_forall. intros y Hy.
        constructor; [by apply (proj1 (Forall_forall _ _) Hmax)|].
        apply (proj1 (Forall_forall _ _) Hall y).
        rewrite <- Hperm. apply elem_of_app. by left.
Qed.

(** X8. [g_ptr_array_sort] only rearranges the slots in use: the array
    keeps its length, its block and the slots past [len], and holds the
    same handles as before, each as many times as before.  When the
    comparison is a total preorder the handles end up in ascending
    order. *)
Theorem X8_sort a :
  well_formed a →
  ∃ a', g_ptr_array_sort (Some a) (Some func) = Some a' ∧
        len a' = len a ∧
        drop (len a) (pdata a') = drop (len a) (pdata a) ∧
        elements a' ≡ₚ elements a ∧
        (total_preorder func → StronglySorted (precedes func) (elements a')).
Proof.
  intros Hwf. unfold g_ptr_array_sort. case_decide as Hlen.
  - exists a. split_and!; [done..|]. intros _. unfold elements.
    destruct (take (len a) (pdata a)) as [|x [|y l]] eqn:E.
    + constructor.
    + by repeat constructor.
    + apply (f_equal length) in E. rewrite length_take in E. simpl in E. lia.
  - unfold well_formed in Hwf.
    destruct (take (len a) (pdata a)) as [|x l] eqn:E.
    { apply (f_equal length) in E. rewrite length_take in E. simpl in E. lia. }
    destruct (sort_passes_spec (len a - 1) 0 (take (len a) (pdata a)) []
                (drop (len a) (pdata a))) as (sorted & Hrun & Hp & Hs).
    { rewrite length_take. lia. }
    { done. }
    simpl in Hrun. rewrite take_drop in Hrun.
    replace (S (len a - 1)) with (len a) in Hrun by lia.
    rewrite app_nil_r in Hp.
    assert (Hsl : length sorted = len a).
    { rewrite Hp, length_take. lia. }
    eexists. split; [done|]. unfold elements. simpl. rewrite Hrun.
    split_and!; [done| | |].
    + rewrite <- Hsl. by rewrite drop_app_length.
    + rewrite <- Hsl at 1. by rewrite take_app_length.
    + intros Hlaw. rewrite <- Hsl at 1. rewrite take_app_length.
      apply Hs; [done|constructor|].
      apply Forall_forall. intros. constructor.
Qed.

End ptr_array_sort.

Section ptr_array_more.
Import PArr.
Context {A : Type} `{EqDecision A, Inhabited A}.
Implicit Types (a : GPtrArray A).

(** X9. Appending a handle that the array does not hold and removing it
    again gives back the handles the array had, in their order; the
    block keeps the slot that the append added. *)
Theorem X9_add_remove a (f : nat → A) (entry : A) :
  well_formed a →
  entry ∉ elements a →
  ∃ a', g_ptr_array_remove (g_ptr_array_add (Some f) (Some a) entry) entry
        = (true, Some a') ∧
        elements a' = elements a ∧
        len a' = len a ∧
        length (pdata a') = len a + 1.
Proof.
  intros Hwf Hnot.
  destruct (g_ptr_array_add_spec (Some f) a entry Hwf)
    as (a1 & -> & Hwf1 & Hcap & Hlen & _ & He).
  unfold g_ptr_array_remove.
  pose proof (remove_loop_spec entry (len a1) 0 a1 Hwf1 eq_refl) as Hloop.
  destruct (remove_loop (len a1) 0 a1 entry) as [b a'].
  destruct Hloop as [_ [(_ & _ & Hno) | (-> & Hlen' & Hcap' & pre & post & Hd & Hpre & He')]].
  - exfalso. apply Hno. rewrite drop_0, He. apply elem_of_app. right. by left.
  - exists a'. rewrite drop_0, He in Hd. rewrite take_0 in He'. simpl in He'.
    assert (pre = elements a ∧ post = []) as [-> ->].
    { revert Hd Hnot Hpre. generalize (elements a). clear.
      intros l. revert pre. induction l as [|x l IH]; intros pre Hd Hnot Hpre.
      - destruct pre as [|y pre]; simpl in Hd.
        + injection Hd as <-. done.
        + injection Hd as -> Hd. by destruct pre.
      - destruct pre as [|y pre]; simpl in Hd.
        + injection Hd as -> _. exfalso. apply Hnot. by left.
        + injection Hd as <- Hd.
          destruct (IH pre Hd) as [-> ->].
          * intros Hin. apply Hnot. by right.
          * intros Hin. apply Hpre. by right.
          * done. }
    rewrite app_nil_r in He'. split_and!; [done|done|lia|lia].
Qed.

Lemma ptr_array_foreach_loop_spec {U} (function : A → U → U)
    (pdata : list A) : ∀ (n i : nat) (u : U),
  i + n ≤ length pdata →
  ptr_array_foreach_loop function n i pdata u
  = foldl (λ u x, function x u) u (take n (drop i pdata)).
Proof.
  induction n as [|n IH]; intros i u Hlen; simpl; [done|].
  destruct (lookup_lt_is_Some_2 pdata i ltac:(lia)) as [x Hx].
  rewrite (list_lookup_total_correct _ _ _ Hx).
  rewrite (drop_S _ _ _ Hx). simpl. apply IH. lia.
Qed.

(** X25. [g_ptr_array_foreach] calls the function on the handles in
    use, once each and in index order, and on no slot past [len]; with a
    [NULL] array or function it calls nothing. *)
Theorem X25_foreach_order {U} a (function : A → U → U) (user_data : U) :
  well_formed a →
  g_ptr_array_foreach (Some a) (Some function) user_data
    = foldl (λ u x, function x u) user_data (elements a) ∧
  g_ptr_array_foreach None (Some function) user_data = user_data ∧
  g_ptr_array_foreach (U := U) (Some a) None user_data = user_data.
Proof.
  intros Hwf. split; [|done]. unfold g_ptr_array_foreach, elements.
  rewrite ptr_array_foreach_loop_spec by (unfold well_formed in Hwf; lia).
  by rewrite drop_0.
Qed.

End ptr_array_more.

Lemma X8_sort_witness :
  let a := PArr.MkGPtrArray [3; 1; 2; 9]%Z 3 in
  ∃ a', PArr.g_ptr_array_sort (Some a) (Some Z.sub) = Some a' ∧
        PArr.len a' = PArr.len a ∧
        drop (PArr.len a) (PArr.pdata a') = drop (PArr.len a) (PArr.pdata a) ∧
        PArr.elements a' ≡ₚ PArr.elements a ∧
        (PArr.total_preorder Z.sub →
         StronglySorted (PArr.precedes Z.sub) (PArr.elements a')).
Proof.
  apply (X8_sort Z.sub). unfold PArr.well_formed. simpl. lia.
Defined.

Lemma X9_add_remove_witness :
  let a := PArr.MkGPtrArray [3; 1; 2; 9]%Z 3 in
  ∃ a', PArr.g_ptr_array_remove
          (PArr.g_ptr_array_add (Some (λ _, 0%Z)) (Some a) 7%Z) 7%Z
        = (true, Some a') ∧
        PArr.elements a' = PArr.elements a ∧
        PArr.len a' = PArr.len a ∧
        length (PArr.pdata a') = PArr.len a + 1.
Proof.
  apply (X9_add_remove (PArr.MkGPtrArray [3; 1; 2; 9]%Z 3)).
  - unfold PArr.well_formed. simpl. lia.
  - unfold PArr.elements. simpl. intros Hin.
    repeat (apply elem_of_cons in Hin as [Hin|Hin]; [discriminate Hin|]).
    by apply elem_of_nil in Hin.
Defined.

Lemma X25_foreach_order_witness :
  let a := PArr.MkGPtrArray [3; 1; 2; 9]%Z 3 in
  PArr.g_ptr_array_foreach (Some a) (Some (λ x u, x :: u)) []
    = foldl (λ u x, x :: u) [] (PArr.elements a) ∧
  PArr.g_ptr_array_foreach None (Some (λ (x : Z) u, x :: u)) [] = [] ∧
  PArr.g_ptr_array_foreach (U := list Z) (Some a) None [] = [].
Proof.
  apply (X25_foreach_order (PArr.MkGPtrArray [3; 1; 2; 9]%Z 3)).
  unfold PArr.well_formed. simpl. lia.
Defined.

(** * The doubly-linked list *)

Section g_list_facts.
Import GLst.
Context {A : Type} `{EqDecision A}.
Implicit Types (h : heap A) (xs pre post : list (loc * A)) (l : loc).

Lemma chain_first h p hd xs : chain h p hd xs → hd = first_loc xs.
Proof. destruct xs as [|[l x] xs]; simpl; [done|]. by intros [-> _]. Qed.

(** A chain depends on its own nodes only. *)
Lemma chain_frame h h' : ∀ xs p hd,
  (∀ l, l ∈ xs.*1 → h' !! l = h !! l) →
  chain h p hd xs → chain h' p hd xs.
Proof.
  induction xs as [|[l x] xs IH]; intros p hd Hfr; simpl; [done|].
  intros (-> & Hl & Hrest). split; [done|]. split.
  - rewrite Hfr; [done|]. simpl. apply list_elem_of_here.
  - apply IH; [|done]. intros l' Hl'. apply Hfr. simpl.
    by apply list_elem_of_further.
Qed.

Lemma chain_lookup h : ∀ xs p hd l,
  chain h p hd xs → l ∈ xs.*1 → is_Some (h !! l).
Proof.
  induction xs as [|[l0 x] xs IH]; intros p hd l; simpl.
  - intros _ Hl. by apply elem_of_nil in Hl.
  - intros (-> & Hl0 & Hrest) Hl. apply elem_of_cons in Hl as [->|Hl].
    + by eexists.
    + by eapply IH.
Qed.

Lemma last_loc_cons p (lx : loc * A) xs :
  last_loc p (lx :: xs) = last_loc (Some lx.1) xs.
Proof.
  destruct xs as [|lx' xs]; [done|]. unfold last_loc.
  rewrite last_cons_cons.
  destruct (last (lx' :: xs)) eqn:E; [done|]. by apply last_None in E.
Qed.

Lemma last_loop_chain h : ∀ xs p l x n,
  chain h p (Some l) ((l, x) :: xs) →
  length xs ≤ n →
  last_loop n h l = last_loc p ((l, x) :: xs).
Proof.
  induction xs as [|[l2 x2] xs IH]; intros p l x n (_ & Hl & Hrest) Hn.
  - destruct n; simpl; rewrite Hl; done.
  - destruct n as [|n]; [simpl in Hn; lia|].
    simpl. rewrite Hl. simpl.
    pose proof Hrest as (_ & _ & _).
    rewrite (IH (Some l) l2 x2 n Hrest) by (simpl in Hn; lia).
    by rewrite (last_loc_cons p (l, x)).
Qed.

Lemma last_loc_Some p xs :
  xs ≠ [] → ∃ l x, last xs = Some (l, x) ∧ last_loc p xs = Some l.
Proof.
  intros Hne. destruct (last xs) as [[l x]|] eqn:E.
  - exists l, x. split; [done|]. unfold last_loc. by rewrite E.
  - by apply last_None in E.
Qed.

(** Linking a new node after the last one extends the chain. *)
Lemma chain_snoc h h' (new : loc) (d : A) (lst : loc) : ∀ xs p hd,
  xs ≠ [] →
  chain h p hd xs →
  NoDup xs.*1 →
  new ∉ xs.*1 →
  last_loc p xs = Some lst →
  (∀ l, l ∈ xs.*1 → l ≠ lst → h' !! l = h !! l) →
  (∀ c, h !! lst = Some c →
     h' !! lst = Some (MkGList (data c) (Some new) (prev c))) →
  h' !! new = Some (MkGList d None (Some lst)) →
  chain h' p hd (xs ++ [(new, d)]).
Proof.
  induction xs as [|[l x] xs IH]; intros p hd Hne Hch Hnd Hnew Hlst Hfr Hlk Hn;
    [done|].
  destruct Hch as (-> & Hl & Hrest).
  destruct xs as [|[l2 x2] xs].
  - unfold last_loc in Hlst. simpl in Hlst. injection Hlst as <-.
    simpl. split; [done|]. split; [|done].
    by rewrite (Hlk _ Hl).
  - assert (last_loc (Some l) ((l2, x2) :: xs) = Some lst) as Hlst'.
    { by rewrite (last_loc_cons p (l, x)) in Hlst. }
    simpl in Hnd. apply NoDup_cons in Hnd as [Hl_notin Hnd].
    assert (lst ∈ ((l2, x2) :: xs).*1) as Hlst_in.
    { destruct (last_loc_Some (Some l) ((l2, x2) :: xs)) as (l' & x' & E & E');
        [done|].
      rewrite Hlst' in E'. injection E' as <-.
      apply last_Some_elem_of in E.
      apply (list_elem_of_fmap_2 fst) in E. exact E. }
    change (((l, x) :: (l2, x2) :: xs) ++ [(new, d)])
      with ((l, x) :: (((l2, x2) :: xs) ++ [(new, d)])).
    cbn [chain]. split; [done|]. split.
    + rewrite Hfr; [exact Hl|simpl; apply list_elem_of_here|].
      intros ->. by apply Hl_notin.
    + apply IH; try done.
      * intros Hin. apply Hnew. simpl. by apply list_elem_of_further.
      * intros l' Hl' Hne'. apply Hfr; [|done]. simpl.
        by apply list_elem_of_further.
Qed.

(** Unlinking a node keeps the others chained. *)
Lemma chain_unlink h h' (d : A) (lt : loc) post : ∀ pre p hd,
  chain h p hd (pre ++ (lt, d) :: post) →
  NoDup (pre ++ (lt, d) :: post).*1 →
  (∀ lp, p = Some lp → lp ∉ (pre ++ (lt, d) :: post).*1) →
  (∀ l, l ∈ (pre ++ post).*1 →
     Some l ≠ last_loc p pre → Some l ≠ first_loc post →
     h' !! l = h !! l) →
  (∀ l c, l ∈ pre.*1 → Some l = last_loc p pre → h !! l = Some c →
     h' !! l = Some (MkGList (data c) (first_loc post) (prev c))) →
  (∀ l c, Some l = first_loc post → h !! l = Some c →
     h' !! l = Some (MkGList (data c) (next c) (last_loc p pre))) →
  chain h' p (first_loc (pre ++ post)) (pre ++ post).
Proof.
  induction pre as [|[l1 x1] pre IH]; intros p hd Hch Hnd Hp Hfr Hprev Hnext.
  - simpl in *. destruct Hch as (-> & Hlt & Hrest).
    apply NoDup_cons in Hnd as [Hlt_notin Hnd].
    destruct post as [|[nx xn] post]; [done|].
    destruct Hrest as (_ & Hnx & Hrest). simpl in Hnd.
    apply NoDup_cons in Hnd as [Hnx_notin Hnd].
    simpl. split; [done|]. split.
    + by rewrite (Hnext nx _ eq_refl Hnx).
    + apply (chain_frame h); [|done].
      intros l Hl. apply Hfr.
      * simpl. by apply list_elem_of_further.
      * unfold last_loc. simpl. intros <-.
        apply (Hp l eq_refl). simpl.
        by do 2 apply list_elem_of_further.
      * unfold first_loc. simpl. intros [= ->]. by apply Hnx_notin.
  - simpl in Hch. destruct Hch as (-> & Hl1 & Hrest).
    simpl in Hnd. apply NoDup_cons in Hnd as [Hl1_notin Hnd].
    assert (last_loc p ((l1, x1) :: pre) = last_loc (Some l1) pre) as Hlast.
    { apply last_loc_cons. }
    assert (Some l1 ≠ first_loc post) as Hl1_post.
    { intros Heq. apply Hl1_notin. rewrite fmap_app. apply elem_of_app.
      right. simpl. apply list_elem_of_further.
      destruct post as [|[nx xn] post]; [done|].
      injection Heq as ->. simpl. apply list_elem_of_here. }
    change (((l1, x1) :: pre) ++ post) with ((l1, x1) :: (pre ++ post)).
    cbn [chain]. split; [done|]. split.
    + destruct pre as [|[l2 x2] pre].
      * simpl. rewrite (Hprev l1 _ ltac:(simpl; apply list_elem_of_here)
                          eq_refl Hl1).
        done.
      * rewrite Hfr.
        -- exact Hl1.
        -- simpl. apply list_elem_of_here.
        -- rewrite Hlast. intros Heq.
           destruct (last_loc_Some (Some l1) ((l2, x2) :: pre))
             as (l' & x' & E & E'); [done|].
           rewrite E' in Heq. injection Heq as <-.
           apply Hl1_notin. apply last_Some_elem_of in E.
           apply (list_elem_of_fmap_2 fst) in E.
           rewrite fmap_app. apply elem_of_app. by left.
        -- done.
    + rewrite Hlast in *.
      apply (IH (Some l1) _ Hrest Hnd).
      * by intros lp [= <-].
      * intros l Hl. apply Hfr. simpl. by apply list_elem_of_further.
      * intros l c Hl. apply Hprev. simpl. by apply list_elem_of_further.
      * done.
Qed.

Lemma remove_first_split (d : A) : ∀ xs,
  ((d ∉ xs.*2) ∧ remove_first d xs = xs) ∨
  (∃ pre lt post, xs = pre ++ (lt, d) :: post ∧
     Forall (λ lx, lx.2 ≠ d) pre ∧ remove_first d xs = pre ++ post).
Proof.
  induction xs as [|[l x] xs IH]; simpl.
  - left. split; [apply not_elem_of_nil|done].
  - destruct (decide (x = d)) as [->|Hx].
    + right. by exists [], l, xs.
    + destruct IH as [[Hno Heq]|(pre & lt & post & -> & Hpre & Heq)].
      * left. split; [|by rewrite Heq].
        intros Hin. apply elem_of_cons in Hin as [?|?]; [congruence|done].
      * right. exists ((l, x) :: pre), lt, post. split; [done|].
        split; [by constructor|]. by rewrite Heq.
Qed.

(** The removal loop goes past the nodes whose payload differs. *)
Lemma list_remove_loop_walk h (hd : option loc) (d : A) : ∀ pre p node n rest,
  chain h p node (pre ++ rest) →
  Forall (λ lx, lx.2 ≠ d) pre →
  list_remove_loop (length pre + n) h hd node d
  = list_remove_loop n h hd (first_loc rest) d.
Proof.
  induction pre as [|[l x] pre IH]; intros p node n rest Hch Hpre.
  - simpl in *. by rewrite (chain_first _ _ _ _ Hch).
  - simpl in Hch. destruct Hch as (-> & Hl & Hrest).
    inversion_clear Hpre as [|?? Hx Hpre']. simpl in Hx.
    simpl. rewrite Hl. simpl. rewrite decide_False by done.
    by apply (IH (Some l)).
Qed.

Lemma set_next_Some (h : gmap loc (GList A)) l c v :
  h !! l = Some c →
  set_next h l v = Some (<[l := MkGList (data c) v (prev c)]> h).
Proof. intros Hl. unfold set_next, heap. by rewrite Hl. Qed.

Lemma set_prev_Some (h : gmap loc (GList A)) l c v :
  h !! l = Some c →
  set_prev h l v = Some (<[l := MkGList (data c) (next c) v]> h).
Proof. intros Hl. unfold set_prev, heap. by rewrite Hl. Qed.

Lemma set_data_Some (h : gmap loc (GList A)) l c v :
  h !! l = Some c →
  set_data h l v = Some (<[l := MkGList v (next c) (prev c)]> h).
Proof. intros Hl. unfold set_data, heap. by rewrite Hl. Qed.

Lemma chain_not_in h xs p hd l :
  chain h p hd xs → h !! l = None → l ∉ xs.*1.
Proof.
  intros Hch Hl Hin. destruct (chain_lookup _ _ _ _ _ Hch Hin) as [c Hc].
  congruence.
Qed.

(** X21. [g_list_last] of a well-formed list returns its last node, and
    [NULL] for the empty list, once it is given the iterations that the
    length of the list asks for. *)
Theorem X21_list_last (n : nat) h (hd : option loc) xs :
  is_list h hd xs →
  length xs ≤ S n →
  g_list_last n h hd = Some (last_loc None xs).
Proof.
  intros [Hch _] Hn. destruct xs as [|[l x] xs].
  - simpl in Hch. by subst hd.
  - pose proof Hch as (-> & _). simpl.
    rewrite (last_loop_chain h xs None l x n Hch) by (simpl in Hn; lia).
    destruct (last_loc_Some None ((l, x) :: xs)) as (lst & xl & _ & ->);
      done.
Qed.

(** X22. [g_list_append] on a well-formed list links a new node with
    the payload after the last node: the list of nodes is the old one
    followed by the new node, the head is the old head unless the list
    was empty, and no other node of the heap changes.  When the
    allocation fails the list is returned as it is. *)
Theorem X22_list_append (n : nat) h (hd : option loc) xs
    (new_node : loc) (c : GList A) (d : A) :
  is_list h hd xs →
  h !! new_node = None →
  length xs ≤ S n →
  ∃ h' : heap A,
    g_list_append n (Some (new_node, c)) h hd d
      = Some (h', if xs is [] then Some new_node else hd) ∧
    is_list h' (if xs is [] then Some new_node else hd)
      (xs ++ [(new_node, d)]) ∧
    (∀ l, l ≠ new_node → l ∉ xs.*1 → h' !! l = h !! l) ∧
    g_list_append n None h hd d = Some (h, hd).
Proof.
  intros [Hch Hnd] Hfresh Hn.
  pose proof (chain_not_in _ _ _ _ _ Hch Hfresh) as Hnew.
  unfold g_list_append, heap in *.
  rewrite (set_data_Some _ _ c) by apply lookup_insert_eq.
  cbn [mbind option_bind].
  rewrite (set_next_Some _ _ (MkGList d (next c) (prev c)))
    by apply lookup_insert_eq.
  cbn [mbind option_bind data prev]. rewrite !insert_insert_eq.
  destruct xs as [|[l0 x0] xs].
  - simpl in Hch. subst hd.
    rewrite (set_prev_Some _ _ (MkGList d None (prev c)))
      by apply lookup_insert_eq.
    cbn [mbind option_bind data next]. rewrite insert_insert_eq.
    eexists. split; [done|]. split; [|split; [|done]].
    + split.
      * simpl. split; [done|]. split; [|done].
        unfold heap. apply lookup_insert_eq.
      * simpl. apply NoDup_singleton.
    + intros l Hl _. by apply lookup_insert_ne.
  - pose proof Hch as (-> & _).
    set (h0 := <[new_node := MkGList d None (prev c)]> h).
    assert (chain h0 None (Some l0) ((l0, x0) :: xs)) as Hch0.
    { apply (chain_frame h); [|done]. intros l Hl. unfold heap.
      apply lookup_insert_ne. intros <-. by apply Hnew. }
    cbn [g_list_last].
    rewrite (last_loop_chain h0 xs None l0 x0 n Hch0) by (simpl in Hn; lia).
    destruct (last_loc_Some None ((l0, x0) :: xs)) as (lst & xl & E & E');
      [done|].
    rewrite E'. cbn [fmap option_fmap option_map mbind option_bind].
    assert (lst ∈ ((l0, x0) :: xs).*1) as Hlst_in.
    { apply last_Some_elem_of in E.
      by apply (list_elem_of_fmap_2 fst) in E. }
    assert (lst ≠ new_node) as Hlst_new by (intros ->; by apply Hnew).
    destruct (chain_lookup _ _ _ _ _ Hch Hlst_in) as [cl Hcl].
    assert (h0 !! lst = Some cl) as Hcl0
      by (unfold h0; by rewrite lookup_insert_ne).
    rewrite (set_next_Some _ _ cl) by done.
    cbn [mbind option_bind].
    rewrite (set_prev_Some _ _ (MkGList d None (prev c)))
      by (rewrite lookup_insert_ne by done; apply lookup_insert_eq).
    cbn [mbind option_bind data next].
    eexists. split; [done|]. split; [|split; [|done]].
    + split.
      * apply (chain_snoc h _ new_node d lst); try done.
        -- intros l Hl Hne. unfold heap. rewrite lookup_insert_ne
             by (intros <-; by apply Hnew).
           rewrite lookup_insert_ne by done.
           unfold h0. apply lookup_insert_ne. intros <-. by apply Hnew.
        -- intros c' Hc'. unfold heap in *. rewrite lookup_insert_ne by done.
           rewrite lookup_insert_eq. congruence.
        -- unfold heap. apply lookup_insert_eq.
      * rewrite fmap_app. apply NoDup_app. split; [done|]. split.
        -- intros l Hl Hin. apply list_elem_of_singleton in Hin as ->.
           by apply Hnew.
        -- apply NoDup_singleton.
    + intros l Hl Hnotin. rewrite lookup_insert_ne by done.
      rewrite lookup_insert_ne by (intros <-; by apply Hnotin).
      unfold h0. by apply lookup_insert_ne.
Qed.

Lemma chain_middle h (d : A) (lt : loc) post : ∀ pre p hd,
  chain h p hd (pre ++ (lt, d) :: post) →
  h !! lt = Some (MkGList d (first_loc post) (last_loc p pre)).
Proof.
  induction pre as [|[l1 x1] pre IH]; intros p hd Hch.
  - by destruct Hch as (_ & Hlt & _).
  - destruct Hch as (_ & _ & Hrest).
    rewrite (last_loc_cons p (l1, x1)). by eapply IH.
Qed.

Lemma list_remove_loop_found (n : nat) h (hd : option loc) (nd : loc)
    (c : GList A) (d : A) :
  h !! nd = Some c →
  data c = d →
  list_remove_loop n h hd (Some nd) d
  = (h1 ← match prev c with
          | Some p => c ← h !! nd; set_next h p (next c)
          | None => Some h
          end;
     c1 ← h1 !! nd;
     h2 ← match next c1 with
          | Some nx => set_prev h1 nx (prev c1)
          | None => Some h1
          end;
     c2 ← h2 !! nd;
     Some (delete nd h2, if decide (Some nd = hd) then next c2 else hd)).
Proof.
  intros Hc Hd. destruct n; simpl; rewrite Hc; simpl;
    by rewrite decide_True.
Qed.

Lemma last_loc_in p pre l :
  pre ≠ [] → last_loc p pre = Some l → l ∈ pre.*1.
Proof.
  intros Hne Hl. destruct (last_loc_Some p pre Hne) as (l' & x' & E & E').
  rewrite E' in Hl. injection Hl as <-.
  apply last_Some_elem_of in E. by apply (list_elem_of_fmap_2 fst) in E.
Qed.

Lemma first_loc_in post l : first_loc post = Some l → l ∈ post.*1.
Proof.
  destruct post as [|[l' x'] post]; [done|]. intros [= <-]. simpl.
  apply list_elem_of_here.
Qed.

(** X23. [g_list_remove] on a well-formed list unlinks and frees the
    first node that holds the payload: the list of nodes is the old one
    without that node, the freed node is no longer in the heap, the head
    moves on only when the first node is the one removed, and no node
    outside the list changes.  When no node holds the payload, the heap
    and the head are left as they are. *)
Theorem X23_list_remove (n : nat) h (hd : option loc) xs (d : A) :
  is_list h hd xs →
  length xs ≤ n →
  ∃ (h' : heap A) (hd' : option loc),
    g_list_remove n h hd d = Some (h', hd') ∧
    is_list h' hd' (remove_first d xs) ∧
    hd' = first_loc (remove_first d xs) ∧
    (∀ l, l ∉ xs.*1 → h' !! l = h !! l) ∧
    (∀ l, l ∈ xs.*1 → l ∉ (remove_first d xs).*1 → h' !! l = None) ∧
    ((d ∉ xs.*2) → h' = h ∧ hd' = hd).
Proof.
  intros [Hch Hnd] Hn. unfold g_list_remove.
  destruct (remove_first_split d xs)
    as [[Hno Heq]|(pre & lt & post & -> & Hpre & Heq)].
  - rewrite Heq. exists h, hd.
    replace n with (length xs + (n - length xs)) by lia.
    rewrite (list_remove_loop_walk h hd d xs None hd _ []).
    + split; [by destruct (n - length xs)|]. split; [done|]. split; [by eapply chain_first|].
      split; [done|]. split; [intros l ? ?; done|done].
    + by rewrite app_nil_r.
    + apply Forall_forall. intros [l x] Hin Hx. simpl in Hx. subst x.
      apply Hno. by apply (list_elem_of_fmap_2 snd) in Hin.
  - rewrite Heq.
    rewrite length_app in Hn.
    replace n with (length pre + (n - length pre)) by lia.
    rewrite (list_remove_loop_walk h hd d pre None hd _ ((lt, d) :: post)
               Hch Hpre).
    pose proof (chain_middle _ _ _ _ _ _ _ Hch) as Hlt.
    set (pv := last_loc None pre) in *.
    set (c := MkGList d (first_loc post) pv) in *.
    change (first_loc ((lt, d) :: post)) with (Some lt).
    rewrite (list_remove_loop_found _ h hd lt c d Hlt eq_refl).
    assert (hd = first_loc (pre ++ (lt, d) :: post)) as Hhd
      by (by eapply chain_first).
    rewrite fmap_app in Hnd. simpl in Hnd.
    apply NoDup_app in Hnd as (Hnd_pre & Hdisj & Hnd_post).
    apply NoDup_cons in Hnd_post as [Hlt_post Hnd_post].
    assert (lt ∉ pre.*1) as Hlt_pre.
    { intros Hin. apply (Hdisj _ Hin). apply list_elem_of_here. }
    assert (∀ l, l ∈ pre.*1 → l ∉ post.*1) as Hpre_post.
    { intros l Hin Hin'. apply (Hdisj _ Hin). by apply list_elem_of_further. }
    assert (∀ l, Some l = pv → pre ≠ [] ∧ l ∈ pre.*1) as Hpv.
    { intros l Hl. destruct pre as [|lx pre]; [done|]. split; [done|].
      by apply (last_loc_in None). }
    unfold heap in *.
    assert (∃ h1 : gmap loc (GList A),
              match prev c with
              | Some p => c ← h !! lt; set_next h p (next c)
              | None => Some h
              end = Some h1 ∧
              h1 !! lt = Some c ∧
              (∀ l, Some l ≠ pv → h1 !! l = h !! l) ∧
              (∀ l cp, Some l = pv → h !! l = Some cp →
                 h1 !! l = Some (MkGList (data cp) (first_loc post) (prev cp))))
      as (h1 & -> & Hh1_lt & Hh1_fr & Hh1_pv).
    { cbn [prev c]. destruct pv as [pl|] eqn:Epv.
      - destruct (Hpv pl eq_refl) as [Hne Hpl].
        destruct (chain_lookup h _ None hd pl Hch) as [cp Hcp].
        { rewrite fmap_app. apply elem_of_app. by left. }
        unfold heap in *. rewrite Hlt. cbn [mbind option_bind next].
        rewrite (set_next_Some _ _ cp) by done.
        eexists. split; [done|]. split_and!.
        + rewrite lookup_insert_ne; [done|]. intros ->. by apply Hlt_pre.
        + intros l Hl. apply lookup_insert_ne. intros ->. by apply Hl.
        + intros l cp' [= ->] Hcp'. rewrite lookup_insert_eq.
          rewrite Hcp in Hcp'. by injection Hcp' as <-.
      - exists h. split; [done|]. split_and!; [done|done|].
        intros l cp [=]. }
    cbn [mbind option_bind]. unfold heap in *. rewrite Hh1_lt.
    cbn [mbind option_bind].
    assert (∃ h2 : gmap loc (GList A),
              match next c with
              | Some nx => set_prev h1 nx (prev c)
              | None => Some h1
              end = Some h2 ∧
              h2 !! lt = Some c ∧
              (∀ l, Some l ≠ first_loc post → h2 !! l = h1 !! l) ∧
              (∀ l cn, Some l = first_loc post → h1 !! l = Some cn →
                 h2 !! l = Some (MkGList (data cn) (next cn) pv)))
      as (h2 & Hh2 & Hh2_lt & Hh2_fr & Hh2_nx).
    { cbn [next prev c]. destruct (first_loc post) as [nx|] eqn:Enx.
      - pose proof (first_loc_in _ _ Enx) as Hnx.
        destruct (chain_lookup h _ None hd nx Hch) as [cn Hcn].
        { rewrite fmap_app. apply elem_of_app. right.
          by apply list_elem_of_further. }
        assert (h1 !! nx = Some cn) as Hcn1.
        { rewrite Hh1_fr; [done|]. intros Heq'.
          destruct (Hpv nx Heq') as [_ Hin]. by apply (Hpre_post nx). }
        rewrite (set_prev_Some _ _ cn) by done.
        eexists. split; [done|]. split_and!.
        + rewrite lookup_insert_ne; [done|]. intros ->. by apply Hlt_post.
        + intros l Hl. apply lookup_insert_ne. intros ->. by apply Hl.
        + intros l cn' [= ->] Hcn'. rewrite lookup_insert_eq.
          rewrite Hcn1 in Hcn'. by injection Hcn' as <-.
      - exists h1. split; [done|]. split_and!; [done|done|].
        intros l cn [=]. }
    unfold heap in *. rewrite Hh2.
    cbn [mbind option_bind]. rewrite Hh2_lt. cbn [mbind option_bind].
    assert ((if decide (Some lt = hd) then next c else hd)
            = first_loc (pre ++ post)) as ->.
    { rewrite Hhd. destruct pre as [|[l1 x1] pre]; simpl.
      - by rewrite decide_True.
      - rewrite decide_False; [done|]. intros [= ->].
        apply Hlt_pre. simpl. apply list_elem_of_here. }
    eexists _, _. split; [done|]. split_and!.
    + split.
      * apply (chain_unlink h _ d lt post pre None hd Hch).
        -- rewrite fmap_app. simpl. apply NoDup_app. split_and!; [done|done|].
           by apply NoDup_cons.
        -- done.
        -- intros l Hl Hl1 Hl2. unfold heap in *. rewrite lookup_delete_ne.
           ++ by rewrite Hh2_fr, Hh1_fr.
           ++ intros <-. rewrite fmap_app in Hl.
              apply elem_of_app in Hl as [?|?]; done.
        -- intros l cp Hl Hl' Hcp. unfold heap in *. rewrite lookup_delete_ne
             by (intros <-; done).
           rewrite Hh2_fr.
           ++ by apply Hh1_pv.
           ++ intros Heq'. symmetry in Heq'. apply first_loc_in in Heq'.
              by apply (Hpre_post l).
        -- intros l cn Hl Hcn.
           pose proof (first_loc_in _ _ (eq_sym Hl)) as Hin. unfold heap in *.
           rewrite lookup_delete_ne by (intros <-; done).
           apply Hh2_nx; [done|]. rewrite Hh1_fr; [done|].
           intros Heq'. destruct (Hpv l Heq') as [_ Hin'].
           by apply (Hpre_post l).
      * rewrite fmap_app. apply NoDup_app. split_and!; [done| |done].
        intros l Hl Hl'. apply (Hdisj l Hl). by apply list_elem_of_further.
    + done.
    + intros l Hl. rewrite fmap_app in Hl. simpl in Hl. unfold heap in *.
      rewrite lookup_delete_ne.
      * rewrite Hh2_fr, Hh1_fr; [done| |].
        -- intros Heq'. destruct (Hpv l Heq') as [_ Hin].
           apply Hl. apply elem_of_app. by left.
        -- intros Heq'. symmetry in Heq'. apply first_loc_in in Heq'.
           apply Hl. apply elem_of_app. right. by apply list_elem_of_further.
      * intros <-. apply Hl. apply elem_of_app. right. apply list_elem_of_here.
    + intros l Hl Hl'. rewrite !fmap_app in *. simpl in Hl.
      assert (l = lt) as ->.
      { apply elem_of_app in Hl as [Hl|Hl].
        - exfalso. apply Hl'. apply elem_of_app. by left.
        - apply elem_of_cons in Hl as [->|Hl]; [done|].
          exfalso. apply Hl'. apply elem_of_app. by right. }
      unfold heap. apply lookup_delete_eq.
    + intros Hno. exfalso. apply Hno. rewrite fmap_app. apply elem_of_app.
      right. simpl. apply list_elem_of_here.
Qed.

(** The loop of [g_list_free] frees the nodes of a chain. *)
Lemma g_list_free_chain : ∀ xs (n : nat) h p hd,
  chain h p hd xs →
  NoDup xs.*1 →
  length xs ≤ n →
  ∃ h' : heap A,
    g_list_free n h hd = Some h' ∧
    (∀ l, l ∈ xs.*1 → h' !! l = None) ∧
    (∀ l, l ∉ xs.*1 → h' !! l = h !! l).
Proof.
  induction xs as [|[l0 x0] xs IH]; intros n h p hd Hch Hnd Hn.
  - simpl in Hch. subst hd. exists h. destruct n; simpl.
    all: split; [done|]; split; [intros l Hl; by apply elem_of_nil in Hl|done].
  - destruct Hch as (-> & Hl0 & Hrest). simpl in Hnd.
    apply NoDup_cons in Hnd as [Hl0_notin Hnd].
    destruct n as [|n]; [simpl in Hn; lia|].
    simpl. unfold heap in *. rewrite Hl0. simpl.
    destruct (IH n (delete l0 h) (Some l0) (first_loc xs))
      as (h' & Hfree & Hgone & Hfr).
    + apply (chain_frame h); [|done]. intros l Hl. unfold heap.
      apply lookup_delete_ne. intros <-. done.
    + done.
    + simpl in Hn. lia.
    + exists h'. split; [done|]. split.
      * intros l Hl. apply elem_of_cons in Hl as [->|Hl]; [|by apply Hgone].
        rewrite Hfr by done. apply lookup_delete_eq.
      * intros l Hl. rewrite Hfr.
        -- apply lookup_delete_ne. intros <-. apply Hl. apply list_elem_of_here.
        -- intros Hin. apply Hl. by apply list_elem_of_further.
Qed.

(** X24. [g_list_free] on a well-formed list frees every node of the
    list and no other node of the heap. *)
Theorem X24_list_free (n : nat) h (hd : option loc) xs :
  is_list h hd xs →
  length xs ≤ n →
  ∃ h' : heap A,
    g_list_free n h hd = Some h' ∧
    (∀ l, l ∈ xs.*1 → h' !! l = None) ∧
    (∀ l, l ∉ xs.*1 → h' !! l = h !! l).
Proof. intros [Hch Hnd] Hn. by eapply g_list_free_chain. Qed.

End g_list_facts.

Lemma X21_list_last_witness :
  let h : GLst.heap Z :=
    <[5 := GLst.MkGList 50%Z (Some 8) None]>
      (<[8 := GLst.MkGList 80%Z None (Some 5)]> ∅) in
  GLst.g_list_last 1 h (Some 5)
  = Some (GLst.last_loc None [(5, 50%Z); (8, 80%Z)]).
Proof.
  apply (X21_list_last 1 _ (Some 5) [(5, 50%Z); (8, 80%Z)]).
  - split.
    + simpl. repeat split; reflexivity.
    + apply (bool_decide_unpack _). reflexivity.
  - simpl. lia.
Defined.

Lemma X22_list_append_witness :
  let h : GLst.heap Z :=
    <[5 := GLst.MkGList 50%Z (Some 8) None]>
      (<[8 := GLst.MkGList 80%Z None (Some 5)]> ∅) in
  let xs := [(5, 50%Z); (8, 80%Z)] in
  ∃ h' : GLst.heap Z,
    GLst.g_list_append 1 (Some (2, GLst.MkGList 0%Z (Some 2) (Some 2))) h
      (Some 5) 20%Z
      = Some (h', if xs is [] then Some 2 else Some 5) ∧
    GLst.is_list h' (if xs is [] then Some 2 else Some 5)
      (xs ++ [(2, 20%Z)]) ∧
    (∀ l, l ≠ 2 → l ∉ xs.*1 → h' !! l = h !! l) ∧
    GLst.g_list_append 1 None h (Some 5) 20%Z = Some (h, Some 5).
Proof.
  apply (X22_list_append 1 _ (Some 5) [(5, 50%Z); (8, 80%Z)] 2).
  - split.
    + simpl. repeat split; reflexivity.
    + apply (bool_decide_unpack _). reflexivity.
  - reflexivity.
  - simpl. lia.
Defined.

Lemma X23_list_remove_witness :
  let h : GLst.heap Z :=
    <[5 := GLst.MkGList 50%Z (Some 8) None]>
      (<[8 := GLst.MkGList 80%Z None (Some 5)]> ∅) in
  let xs := [(5, 50%Z); (8, 80%Z)] in
  ∃ (h' : GLst.heap Z) (hd' : option GLst.loc),
    GLst.g_list_remove 2 h (Some 5) 50%Z = Some (h', hd') ∧
    GLst.is_list h' hd' (GLst.remove_first 50%Z xs) ∧
    hd' = GLst.first_loc (GLst.remove_first 50%Z xs) ∧
    (∀ l, l ∉ xs.*1 → h' !! l = h !! l) ∧
    (∀ l, l ∈ xs.*1 → l ∉ (GLst.remove_first 50%Z xs).*1 → h' !! l = None) ∧
    ((50%Z ∉ xs.*2) → h' = h ∧ hd' = Some 5).
Proof.
  apply (X23_list_remove 2 _ (Some 5) [(5, 50%Z); (8, 80%Z)] 50%Z).
  - split.
    + simpl. repeat split; reflexivity.
    + apply (bool_decide_unpack _). reflexivity.
  - simpl. lia.
Defined.

Lemma X24_list_free_witness :
  let h : GLst.heap Z :=
    <[5 := GLst.MkGList 50%Z (Some 8) None]>
      (<[8 := GLst.MkGList 80%Z None (Some 5)]> ∅) in
  let xs := [(5, 50%Z); (8, 80%Z)] in
  ∃ h' : GLst.heap Z,
    GLst.g_list_free 2 h (Some 5) = Some h' ∧
    (∀ l, l ∈ xs.*1 → h' !! l = None) ∧
    (∀ l, l ∉ xs.*1 → h' !! l = h !! l).
Proof.
  apply (X24_list_free 2 _ (Some 5) [(5, 50%Z); (8, 80%Z)]).
  - split.
    + simpl. repeat split; reflexivity.
    + apply (bool_decide_unpack _). reflexivity.
  - simpl. lia.
Defined.


(** * The associative container *)

Section hash_table_facts.
Import PArr HTab.
Context {A : Type} (NULL : A).
Implicit Types (a : GPtrArray (@slot A)) (ents : list (@HashEntry A)).
Implicit Types (t : @GHashTable A).

Lemma repr_len a ents : repr a ents → length ents = len a.
Proof.
  intros [Hwf He]. apply (f_equal length) in He.
  unfold elements, well_formed in *.
  rewrite length_take, length_fmap in He. lia.
Qed.

Lemma repr_slot a ents i e :
  repr a ents → ents !! i = Some e → pdata a !!! i = Some e.
Proof.
  intros Hr Hi. pose proof (repr_len _ _ Hr) as Hlen. destruct Hr as [Hwf He].
  apply lookup_lt_Some in Hi as Hlt.
  apply list_lookup_total_correct.
  assert (Hs : elements a !! i = Some (Some e))
    by (by rewrite He, list_lookup_fmap, Hi).
  unfold elements in Hs. by rewrite lookup_take_lt in Hs by lia.
Qed.

Lemma repr_remove a ents i :
  repr a ents → i < len a →
  repr (MkGPtrArray (shift_left (len a - 1 - i) i (pdata a)) (len a - 1))
       (delete i ents).
Proof.
  intros Hr Hi. pose proof (repr_len _ _ Hr) as Hlen. destruct Hr as [Hwf He].
  unfold repr, well_formed, elements in *. simpl.
  rewrite shift_left_length. split; [lia|].
  rewrite shift_left_elements by lia. by rewrite He, list_fmap_delete.
Qed.

Section loops.
Context (cmp : A → A → bool) (k : A).
Let P (e : @HashEntry A) : Prop := cmp (key e) k = true.

Lemma list_find_drop ents i e :
  ents !! i = Some e →
  list_find P (drop i ents)
  = if decide (P e) then Some (0, e)
    else prod_map S id <$> list_find P (drop (S i) ents).
Proof. intros Hi. by rewrite (drop_S _ _ _ Hi). Qed.

Lemma lookup_loop_spec a ents : ∀ n i,
  repr a ents → i + n = len a →
  lookup_loop NULL cmp k n i (pdata a)
  = from_option (λ je, value je.2) NULL (list_find P (drop i ents)).
Proof.
  intros n i Hr. pose proof (repr_len _ _ Hr) as Hlen. revert i.
  induction n as [|n IH]; intros i Hi; simpl.
  - by rewrite drop_ge by lia.
  - destruct (lookup_lt_is_Some_2 ents i) as [e He]; [lia|].
    rewrite (repr_slot _ _ _ _ Hr He), (list_find_drop _ _ _ He).
    case_decide as HP; unfold P in HP.
    + by rewrite HP.
    + apply not_true_is_false in HP. rewrite HP, IH by lia.
      by destruct (list_find P (drop (S i) ents)) as [[j e']|].
Qed.

Lemma insert_loop_spec v a ents : ∀ n i,
  repr a ents → i + n = len a →
  insert_loop cmp k v n i (pdata a)
  = (λ je, <[i + je.1 := Some (MkHashEntry (key je.2) v)]> (pdata a))
      <$> list_find P (drop i ents).
Proof.
  intros n i Hr. pose proof (repr_len _ _ Hr) as Hlen. revert i.
  induction n as [|n IH]; intros i Hi; simpl.
  - by rewrite drop_ge by lia.
  - destruct (lookup_lt_is_Some_2 ents i) as [e He]; [lia|].
    rewrite (repr_slot _ _ _ _ Hr He), (list_find_drop _ _ _ He).
    case_decide as HP; unfold P in HP.
    + rewrite HP. simpl. by rewrite Nat.add_0_r.
    + apply not_true_is_false in HP. rewrite HP, IH by lia.
      destruct (list_find P (drop (S i) ents)) as [[j e']|]; simpl; [|done].
      do 2 f_equal. lia.
Qed.

Lemma hash_remove_loop_spec a ents : ∀ n i,
  repr a ents → i + n = len a →
  ∃ b a' ents', hash_remove_loop cmp k n i a = (b, a') ∧ repr a' ents' ∧
                ents' `sublist_of` ents.
Proof.
  intros n i Hr. revert i.
  induction n as [|n IH]; intros i Hi; simpl.
  - by exists false, a, ents.
  - pose proof (repr_len _ _ Hr) as Hlen.
    destruct (lookup_lt_is_Some_2 ents i) as [e He]; [lia|].
    rewrite (repr_slot _ _ _ _ Hr He).
    destruct (cmp (key e) k); [|apply IH; lia].
    eexists true, _, (delete i ents). split_and!; [done| |].
    + apply repr_remove; [done|lia].
    + apply sublist_delete.
Qed.
End loops.

Lemma foreach_remove_loop_spec (f : A → A → bool) : ∀ n i a ents,
  repr a ents → i + n = len a →
  ∃ ents', repr (foreach_remove_loop f n i a) ents' ∧
           ents' `sublist_of` ents.
Proof.
  induction n as [|n IH]; intros i a ents Hr Hi; simpl.
  - by exists ents.
  - pose proof (repr_len _ _ Hr) as Hlen.
    destruct (lookup_lt_is_Some_2 ents i) as [e He]; [lia|].
    rewrite (repr_slot _ _ _ _ Hr He).
    destruct (f (key e) (value e)); [|apply IH; [done|lia]].
    destruct (IH i _ (delete i ents) (repr_remove a ents i Hr ltac:(lia)))
      as (ents' & Hr' & Hsub); [simpl; lia|].
    exists ents'. split; [done|]. etrans; [exact Hsub|]. apply sublist_delete.
Qed.

Lemma distinct_from_sublist cmp (ks1 ks2 : list A) :
  ks1 `sublist_of` ks2 → distinct_from cmp ks2 → distinct_from cmp ks1.
Proof.
  induction 1 as [|x l1 l2 Hsub IH|x l1 l2 Hsub IH]; simpl; [done| |].
  - intros [Hx Hd]. split; [|by apply IH].
    apply Forall_forall. intros y Hy.
    apply (proj1 (Forall_forall _ _) Hx). by apply (sublist_subseteq _ _ Hsub).
  - intros [_ Hd]. by apply IH.
Qed.

Lemma sublist_fmap_key ents1 ents2 :
  ents1 `sublist_of` ents2 → (key <$> ents1) `sublist_of` (key <$> ents2).
Proof. induction 1; simpl; by constructor. Qed.

Lemma distinct_from_snoc cmp (ks : list A) (k : A) :
  distinct_from cmp ks → Forall (λ k', cmp k' k = false) ks →
  distinct_from cmp (ks ++ [k]).
Proof.
  induction ks as [|x ks IH]; simpl; [done|].
  intros [Hx Hd] Hk. inversion_clear Hk as [|?? Hxk Hks]. split; [|by apply IH].
  apply Forall_app. split; [done|]. by constructor.
Qed.

Lemma distinct_from_lookup cmp (ks : list A) :
  (∀ x y, cmp x y = cmp y x) →
  distinct_from cmp ks →
  ∀ (i j : nat) (ki kj : A),
    i ≠ j → ks !! i = Some ki → ks !! j = Some kj → cmp ki kj = false.
Proof.
  intros Hsym. induction ks as [|x ks IH]; simpl; [done|].
  intros [Hx Hd] [|i] [|j] ki kj Hne Hi Hj; simplify_eq/=.
  - apply (proj1 (Forall_forall _ _) Hx). by eapply list_elem_of_lookup_2.
  - rewrite Hsym. apply (proj1 (Forall_forall _ _) Hx).
    by eapply list_elem_of_lookup_2.
  - apply (IH Hd i j); [lia|done..].
Qed.

Lemma table_inv_distinct_keys cmp t ents :
  (∀ x y, cmp x y = cmp y x) →
  table_inv cmp t ents → distinct_keys t.
Proof.
  intros Hsym (Hcmp & (a & Ha & Hwf & He) & Hd) i j ei ej Hne Hi Hj.
  unfold entries in *. rewrite Ha in *. simpl in *. rewrite He in *.
  rewrite list_lookup_fmap in Hi, Hj.
  destruct (ents !! i) as [ei'|] eqn:Ei; simplify_eq/=.
  destruct (ents !! j) as [ej'|] eqn:Ej; simplify_eq/=.
  apply (distinct_from_lookup _ _ Hsym Hd i j); [done|..];
    rewrite list_lookup_fmap; by (rewrite Ei || rewrite Ej).
Qed.

Lemma g_hash_table_new_inv cmp :
  ∃ t, g_hash_table_new true true cmp = Some t ∧ table_inv cmp t [].
Proof.
  eexists. split; [done|]. split_and!; [done| |done].
  eexists. split; [done|]. split; [unfold well_formed; simpl; lia|done].
Qed.

(** What [g_hash_table_insert] does to a table with entries [ents]. *)
Lemma g_hash_table_insert_spec cmp ok r t ents k v :
  table_inv cmp t ents →
  ∃ t' ents',
    g_hash_table_insert ok r (Some t) k v = Some t' ∧
    table_inv cmp t' ents' ∧
    (ok = true → is_Some r → (∀ x, cmp x x = true) →
     ∃ j e, list_find (λ e, cmp (key e) k = true) ents' = Some (j, e) ∧
            value e = v).
Proof.
  intros (Hcmp & (a & Ha & Hr) & Hd).
  pose proof (repr_len _ _ Hr) as Hlen.
  unfold g_hash_table_insert. cbn [mbind option_bind]. rewrite Ha, Hcmp.
  rewrite (insert_loop_spec cmp k v a ents (len a) 0 Hr eq_refl).
  rewrite drop_0.
  destruct (list_find _ ents) as [[j e]|] eqn:Efind;
    cbn [fmap option_fmap option_map fst snd Nat.add].
  - apply list_find_Some in Efind as Hfind. destruct Hfind as (Hj & HP & Hmin).
    set (e' := MkHashEntry (key e) v).
    apply lookup_lt_Some in Hj as Hjlt.
    eexists _, (<[j := e']> ents). split; [done|]. split.
    + split_and!; [done| |].
      * eexists. split; [done|]. destruct Hr as [Hwf He].
        unfold repr, well_formed, elements in *. simpl.
        rewrite length_insert. split; [done|].
        rewrite take_insert_lt by lia. by rewrite He, list_fmap_insert.
      * rewrite list_fmap_insert. simpl.
        rewrite list_insert_id; [done|]. by rewrite list_lookup_fmap, Hj.
    + intros _ _ _. exists j, e'. split; [|done].
      apply list_find_Some. split_and!.
      * apply list_lookup_insert_eq. lia.
      * done.
      * intros j' y Hy Hlt. rewrite list_lookup_insert_ne in Hy by lia.
        by apply (Hmin j' y).
  - apply list_find_None in Efind.
    destruct ok.
    + destruct (g_ptr_array_add_spec r a (Some (MkHashEntry k v)))
        as (a' & Hadd & Hwf' & Hres); [by destruct Hr|].
      rewrite Hadd. destruct r as [f|].
      * destruct Hres as (_ & _ & _ & He').
        eexists _, (ents ++ [MkHashEntry k v]). split; [done|]. split.
        -- split_and!; [done| |].
           ++ exists a'. split; [done|]. split; [done|].
              destruct Hr as [_ He]. by rewrite He', He, fmap_app.
           ++ rewrite fmap_app. apply distinct_from_snoc; [done|].
              apply Forall_fmap. eapply Forall_impl; [exact Efind|].
              simpl. intros e. by destruct (cmp (key e) k).
        -- intros _ _ Hrefl. exists (0 + length ents), (MkHashEntry k v).
           split; [|done]. rewrite list_find_app_r by (by apply list_find_None).
           simpl. rewrite decide_True by apply Hrefl. done.
      * subst a'. exists t, ents. split; [by destruct t; simplify_eq/=|].
        split; [|by intros _ []].
        split_and!; [done| |done]. by exists a.
    + exists t, ents. split; [done|]. split; [|done].
      split_and!; [done| |done]. by exists a.
Qed.

Lemma g_hash_table_lookup_spec cmp t ents k :
  table_inv cmp t ents →
  g_hash_table_lookup NULL (Some t) k
  = from_option (λ je, value je.2) NULL
      (list_find (λ e, cmp (key e) k = true) ents).
Proof.
  intros (Hcmp & (a & Ha & Hr) & Hd). unfold g_hash_table_lookup.
  rewrite Ha, Hcmp.
  rewrite (lookup_loop_spec cmp k a ents (len a) 0 Hr eq_refl).
  by rewrite drop_0.
Qed.

Lemma step_inv cmp t ents o :
  table_inv cmp t ents →
  ∃ t' ents', step (Some t) o = Some t' ∧ table_inv cmp t' ents'.
Proof.
  intros Hinv. destruct o as [ok r k v | k | f]; cbn [step].
  - destruct (g_hash_table_insert_spec cmp ok r t ents k v Hinv)
      as (t' & ents' & Hins & Hinv' & _).
    by exists t', ents'.
  - destruct Hinv as (Hcmp & (a & Ha & Hr) & Hd).
    unfold g_hash_table_remove. rewrite Ha, Hcmp.
    destruct (hash_remove_loop_spec cmp k a ents (len a) 0 Hr eq_refl)
      as (b & a' & ents' & -> & Hr' & Hsub).
    eexists _, ents'. split; [done|]. split_and!; [done| |].
    + by exists a'.
    + eapply distinct_from_sublist; [|exact Hd]. by apply sublist_fmap_key.
  - destruct Hinv as (Hcmp & (a & Ha & Hr) & Hd).
    unfold g_hash_table_foreach_remove. simpl. rewrite Ha.
    destruct f as [f|].
    + destruct (foreach_remove_loop_spec f (len a) 0 a ents Hr eq_refl)
        as (ents' & Hr' & Hsub).
      eexists _, ents'. split; [done|]. split_and!; [done| |].
      * by eexists.
      * eapply distinct_from_sublist; [|exact Hd]. by apply sublist_fmap_key.
    + exists t, ents. split; [done|]. split_and!; [done| |done]. by exists a.
Qed.

Lemma run_inv cmp (ops : list (op (A:=A))) : ∀ t ents,
  table_inv cmp t ents →
  ∃ t' ents', foldl step (Some t) ops = Some t' ∧ table_inv cmp t' ents'.
Proof.
  induction ops as [|o ops IH]; intros t ents Hinv; cbn [foldl].
  - by exists t, ents.
  - destruct (step_inv cmp t ents o Hinv) as (t1 & ents1 & -> & Hinv1).
    by apply (IH t1 ents1).
Qed.

(** C2. A table built with an equality predicate that is reflexive and
    symmetric (so any equivalence), after any sequence of inserts,
    removes and foreach-removes, whatever the allocator answers: no two
    of its entries have keys that the predicate equates; and an insert
    of [(k, v)] whose allocations succeed, followed by a lookup of [k],
    returns [v]. *)
Theorem C2_hash_table (cmp : A → A → bool) (ops : list (op (A:=A))) :
  (∀ x, cmp x x = true) →
  (∀ x y, cmp x y = cmp y x) →
  ∃ t,
    foldl step (g_hash_table_new true true cmp) ops = Some t ∧
    distinct_keys t ∧
    ∀ (f : nat → @slot A) (k v : A),
      g_hash_table_lookup NULL
        (g_hash_table_insert true (Some f) (Some t) k v) k = v.
Proof.
  intros Hrefl Hsym.
  destruct (g_hash_table_new_inv cmp) as (t0 & -> & Hinv0).
  destruct (run_inv cmp ops t0 [] Hinv0) as (t & ents & Hrun & Hinv).
  exists t. split_and!; [done|by eapply table_inv_distinct_keys|].
  intros f k v.
  destruct (g_hash_table_insert_spec cmp true (Some f) t ents k v Hinv)
    as (t' & ents' & -> & Hinv' & Hfind).
  destruct Hfind as (j & e & Hfind & Hv); [done..|].
  by rewrite (g_hash_table_lookup_spec cmp t' ents' k Hinv'), Hfind.
Qed.

End hash_table_facts.

Lemma C2_hash_table_witness :
  let ops : list (HTab.op (A:=Z)) :=
    [HTab.Insert true (Some (λ _, None)) 1 10;
     HTab.Insert false None 2 20;
     HTab.Insert true (Some (λ _, None)) 3 30;
     HTab.RemoveKey 1;
     HTab.ForeachRemove (Some (λ k v, bool_decide (v = 30)))]%Z in
  ∃ t,
    foldl HTab.step (HTab.g_hash_table_new true true Z.eqb) ops = Some t ∧
    HTab.distinct_keys t ∧
    ∀ (f : nat → HTab.slot) (k v : Z),
      HTab.g_hash_table_lookup 0%Z
        (HTab.g_hash_table_insert true (Some f) (Some t) k v) k = v.
Proof.
  apply (C2_hash_table 0%Z Z.eqb).
  - intros x. apply Z.eqb_refl.
  - intros x y. apply Z.eqb_sym.
Defined.

(** The example of the specification, with integer equality: after
    insert(1, x) and insert(1, y), lookup(1) is y and there is one
    entry. *)
Example hash_table_insert_twice :
  let r : heap_reply (HTab.slot (A:=Z)) := Some (λ _, None) in
  let t := HTab.g_hash_table_insert true r
             (HTab.g_hash_table_insert true r
                (HTab.g_hash_table_new true true Z.eqb) 1%Z 120%Z)
             1%Z 121%Z in
  HTab.g_hash_table_lookup 0%Z t 1%Z = 121%Z
  ∧ HTab.entries <$> t = Some [Some (HTab.MkHashEntry 1%Z 121%Z)].
Proof. split; reflexivity. Qed.

(** An insert of a new key whose allocation is refused changes
    nothing. *)
Example hash_table_insert_refused :
  let t := HTab.g_hash_table_new true true Z.eqb in
  HTab.g_hash_table_insert false None t 1%Z 120%Z = t
  ∧ HTab.g_hash_table_insert true None t 1%Z 120%Z = t.
Proof. split; reflexivity. Qed.

(** * More on the associative container *)

Section hash_table_more.
Import PArr HTab.
Context {A : Type} (NULL : A).
Implicit Types (a : GPtrArray (@slot A)) (ents : list (@HashEntry A)).
Implicit Types (t : @GHashTable A).

Lemma reachable_inv cmp t : reachable cmp t → ∃ ents, table_inv cmp t ents.
Proof.
  intros [ops Hops].
  destruct (g_hash_table_new_inv cmp) as (t0 & Hnew & Hinv0).
  rewrite Hnew in Hops.
  destruct (run_inv cmp ops t0 [] Hinv0) as (t' & ents & Hrun & Hinv).
  rewrite Hrun in Hops. injection Hops as <-. by exists ents.
Qed.

Lemma table_inv_records cmp t ents : table_inv cmp t ents → records t = ents.
Proof.
  intros (_ & (a & Ha & _ & He) & _). unfold records, entries.
  rewrite Ha. simpl. rewrite He. clear.
  induction ents as [|e ents IH]; simpl; [done|]. f_equal. exact IH.
Qed.

Lemma reachable_step cmp t o t' :
  reachable cmp t → step (Some t) o = Some t' → reachable cmp t'.
Proof.
  intros [ops Hops] Hstep. exists (ops ++ [o]).
  by rewrite foldl_app, Hops.
Qed.

Section finds.
Context (cmp : A → A → bool) (k : A).
Local Abbreviation P := (λ e : @HashEntry A, cmp (key e) k = true).

Lemma lookup_extended_loop_spec a ents : ∀ n i,
  repr a ents → i + n = len a →
  lookup_extended_loop cmp k n i (pdata a) = snd <$> list_find P (drop i ents).
Proof.
  intros n i Hr. pose proof (repr_len _ _ Hr) as Hlen. revert i.
  induction n as [|n IH]; intros i Hi; simpl.
  - by rewrite drop_ge by lia.
  - destruct (lookup_lt_is_Some_2 ents i) as [e He]; [lia|].
    rewrite (repr_slot _ _ _ _ Hr He), (list_find_drop _ _ _ _ _ He).
    case_decide as HP; simpl in HP.
    + by rewrite HP.
    + apply not_true_is_false in HP. rewrite HP, IH by lia.
      by destruct (list_find P (drop (S i) ents)) as [[j e']|].
Qed.

Lemma hash_remove_loop_find a ents : ∀ n i,
  repr a ents → i + n = len a →
  hash_remove_loop cmp k n i a
  = match list_find P (drop i ents) with
    | Some (j, _) =>
        (true, MkGPtrArray (shift_left (len a - 1 - (i + j)) (i + j) (pdata a))
                 (len a - 1))
    | None => (false, a)
    end.
Proof.
  intros n i Hr. pose proof (repr_len _ _ Hr) as Hlen. revert i.
  induction n as [|n IH]; intros i Hi; simpl.
  - by rewrite drop_ge by lia.
  - destruct (lookup_lt_is_Some_2 ents i) as [e He]; [lia|].
    rewrite (repr_slot _ _ _ _ Hr He), (list_find_drop _ _ _ _ _ He).
    case_decide as HP; simpl in HP.
    + rewrite HP. by rewrite Nat.add_0_r.
    + apply not_true_is_false in HP. rewrite HP, IH by lia.
      destruct (list_find P (drop (S i) ents)) as [[j e']|]; simpl; [|done].
      by replace (i + S j) with (S (i + j)) by lia.
Qed.
End finds.

Lemma foreach_remove_loop_filter (f : A → A → bool) : ∀ n i a ents,
  repr a ents → i + n = len a →
  repr (foreach_remove_loop f n i a)
       (take i ents ++ filter (λ e, f (key e) (value e) = false) (drop i ents)).
Proof.
  induction n as [|n IH]; intros i a ents Hr Hi; simpl.
  - pose proof (repr_len _ _ Hr) as Hlen.
    rewrite drop_ge, app_nil_r, take_ge by lia. done.
  - pose proof (repr_len _ _ Hr) as Hlen.
    destruct (lookup_lt_is_Some_2 ents i) as [e He]; [lia|].
    rewrite (repr_slot _ _ _ _ Hr He), (drop_S _ _ _ He).
    destruct (f (key e) (value e)) eqn:Ef.
    + rewrite filter_cons_False by (by rewrite Ef).
      pose proof (IH i _ (delete i ents) (repr_remove a ents i Hr ltac:(lia))
                    ltac:(simpl; lia)) as IH'.
      rewrite delete_take_drop in IH'.
      rewrite take_app_le, take_take, Nat.min_id in IH'
        by (rewrite length_take; lia).
      rewrite drop_app_ge in IH' by (rewrite length_take; lia).
      rewrite length_take, Nat.min_l, Nat.sub_diag, drop_0 in IH' by lia.
      done.
    + rewrite filter_cons_True by done.
      specialize (IH (S i) a ents Hr ltac:(lia)).
      rewrite (take_S_r _ _ _ He), <- app_assoc in IH. done.
Qed.

Lemma foreach_loop_spec {U} (f : A → A → U → U) a ents : ∀ n i u,
  repr a ents → i + n = len a →
  foreach_loop f n i (pdata a) u
  = foldl (λ u e, f (key e) (value e) u) u (drop i ents).
Proof.
  intros n i u Hr. pose proof (repr_len _ _ Hr) as Hlen. revert i u.
  induction n as [|n IH]; intros i u Hi; simpl.
  - by rewrite drop_ge by lia.
  - destruct (lookup_lt_is_Some_2 ents i) as [e He]; [lia|].
    rewrite (repr_slot _ _ _ _ Hr He), (drop_S _ _ _ He). simpl.
    apply IH. lia.
Qed.

Section with_equivalence.
Context (cmp : A → A → bool) (Heq : equivalence cmp).

(** Under the invariant, at most one entry has a key equal to [k]: the
    scan finds it wherever it is. *)
Lemma list_find_unique ents (k : A) (e : HashEntry) :
  distinct_from cmp (key <$> ents) →
  e ∈ ents → cmp (key e) k = true →
  ∃ j, list_find (λ e, cmp (key e) k = true) ents = Some (j, e).
Proof.
  destruct Heq as (Hrefl & Hsym & Htrans).
  intros Hd [i Hi]%list_elem_of_lookup_1 Hk.
  destruct (list_find (λ e, cmp (key e) k = true) ents) as [[j e0]|] eqn:Ef.
  - apply list_find_Some in Ef as (Hj & Hk0 & _). exists j.
    destruct (decide (i = j)) as [->|Hne]; [congruence|].
    exfalso.
    assert (cmp (key e) (key e0) = false) as Hfalse.
    { apply (distinct_from_lookup cmp _ Hsym Hd i j); [done|..];
        by rewrite list_lookup_fmap, ?Hi, ?Hj. }
    rewrite (Htrans (key e) k (key e0)) in Hfalse; [done|done|].
    by rewrite Hsym.
  - apply list_find_None in Ef.
    exfalso. apply (proj1 (Forall_forall _ _) Ef e); [|done].
    by eapply list_elem_of_lookup_2.
Qed.

Lemma list_find_none ents (k : A) :
  (∀ e, e ∈ ents → cmp (key e) k = false) →
  list_find (λ e, cmp (key e) k = true) ents = None.
Proof.
  intros Hno. apply list_find_None, Forall_forall. intros e He.
  by rewrite (Hno e He).
Qed.

(** X1. In a table that a client can reach, with an equivalence for
    predicate: a lookup returns the value of the stored entry whose key
    is equal to the key looked up, wherever that entry is, and [NULL]
    when no stored key is equal to it. *)
Theorem X1_lookup_stored t (k : A) :
  reachable cmp t →
  (∀ e, e ∈ records t → cmp (key e) k = true →
     g_hash_table_lookup NULL (Some t) k = value e) ∧
  ((∀ e, e ∈ records t → cmp (key e) k = false) →
     g_hash_table_lookup NULL (Some t) k = NULL).
Proof.
  intros [ents Hinv]%reachable_inv.
  rewrite (table_inv_records _ _ _ Hinv).
  rewrite (g_hash_table_lookup_spec NULL cmp t ents k Hinv).
  split.
  - intros e He Hk. destruct Hinv as (_ & _ & Hd).
    destruct (list_find_unique ents k e Hd He Hk) as [j ->]. done.
  - intros Hno. by rewrite list_find_none.
Qed.


(** The entry records after [g_hash_table_insert]. *)
Lemma g_hash_table_insert_records ok r t ents (k v : A) :
  table_inv cmp t ents →
  ∃ t', g_hash_table_insert ok r (Some t) k v = Some t' ∧
        records t'
        = match list_find (λ e, cmp (key e) k = true) ents with
          | Some (j, e) => <[j := MkHashEntry (key e) v]> ents
          | None => if ok && bool_decide (is_Some r)
                    then ents ++ [MkHashEntry k v] else ents
          end.
Proof.
  intros Hinv. pose proof Hinv as (Hcmp & (a & Ha & Hr) & Hd).
  pose proof (repr_len _ _ Hr) as Hlen.
  unfold g_hash_table_insert. cbn [mbind option_bind]. rewrite Ha, Hcmp.
  rewrite (insert_loop_spec cmp k v a ents (len a) 0 Hr eq_refl), drop_0.
  destruct (list_find _ ents) as [[j e]|] eqn:Efind;
    cbn [fmap option_fmap option_map fst snd Nat.add].
  - apply list_find_Some in Efind as (Hj & _ & _).
    apply lookup_lt_Some in Hj as Hjlt.
    eexists. split; [done|]. apply (table_inv_records cmp).
    split_and!; [done| |].
    + eexists. split; [done|]. destruct Hr as [Hwf He].
      unfold repr, well_formed, elements in *. simpl.
      rewrite length_insert. split; [done|].
      rewrite take_insert_lt by lia. by rewrite He, list_fmap_insert.
    + rewrite list_fmap_insert. simpl.
      rewrite list_insert_id; [done|]. by rewrite list_lookup_fmap, Hj.
  - destruct ok; cbn [andb].
    + destruct (g_ptr_array_add_spec r a (Some (MkHashEntry k v)))
        as (a' & Hadd & Hwf' & Hres); [by destruct Hr|].
      rewrite Hadd. eexists. split; [done|]. destruct r as [f|].
      * rewrite bool_decide_eq_true_2 by (by eexists).
        destruct Hres as (_ & _ & _ & He').
        unfold records, entries. simpl. rewrite He'.
        destruct Hr as [_ ->]. rewrite omap_app. simpl. f_equal.
        clear. induction ents as [|e ents IH]; simpl; [done|]. f_equal. exact IH.
      * rewrite bool_decide_eq_false_2 by (by intros [? ?]). subst a'.
        rewrite <- (table_inv_records cmp t ents Hinv).
        unfold records, entries. simpl. by rewrite Ha.
    + eexists. split; [done|]. by apply (table_inv_records cmp).
Qed.

(** X2. An insert leaves every other key alone: whatever the allocator
    answers, a lookup of a key that is not equal to the inserted one
    returns what it returned before. *)
Theorem X2_insert_other_keys t ok r (k v k' : A) :
  reachable cmp t →
  cmp k k' = false →
  g_hash_table_lookup NULL (g_hash_table_insert ok r (Some t) k v) k'
  = g_hash_table_lookup NULL (Some t) k'.
Proof.
  destruct Heq as (Hrefl & Hsym & Htrans).
  intros Hreach Hne. destruct (reachable_inv _ _ Hreach) as [ents Hinv].
  destruct (g_hash_table_insert_spec cmp ok r t ents k v Hinv)
    as (t' & ents' & Hins & Hinv' & _).
  destruct (g_hash_table_insert_records ok r t ents k v Hinv)
    as (t'' & Hins' & Hrec).
  rewrite Hins in Hins'. injection Hins' as <-.
  rewrite (table_inv_records _ _ _ Hinv') in Hrec. subst ents'.
  rewrite Hins.
  rewrite (g_hash_table_lookup_spec NULL cmp t' _ k' Hinv').
  rewrite (g_hash_table_lookup_spec NULL cmp t ents k' Hinv).
  destruct (list_find (λ e, cmp (key e) k = true) ents) as [[j e]|] eqn:Ef.
  - apply list_find_Some in Ef as (Hj & Hk & _).
    assert (Hk' : cmp (key e) k' = false).
    { destruct (cmp (key e) k') eqn:E; [|done].
      rewrite <- Hne. symmetry. apply (Htrans k (key e) k'); [|done].
      by rewrite Hsym. }
    destruct (list_find (λ e, cmp (key e) k' = true) ents) as [[j' e']|] eqn:Ef'.
    + apply list_find_Some in Ef' as (Hj' & Hk'' & Hmin).
      assert (j ≠ j').
      { intros Hjj. subst j'. rewrite Hj in Hj'. injection Hj' as <-.
        simpl in Hk''. congruence. }
      erewrite (proj2 (list_find_Some _ _ j' e')); [done|].
      split_and!; [by rewrite list_lookup_insert_ne|done|].
      intros i y Hy Hlt. destruct (decide (i = j)) as [->|].
      * rewrite list_lookup_insert_eq in Hy by (by eapply lookup_lt_Some).
        injection Hy as <-. simpl. by rewrite Hk'.
      * rewrite list_lookup_insert_ne in Hy by done. by apply (Hmin i).
    + apply list_find_None in Ef'.
      rewrite (proj2 (list_find_None _ _)); [done|].
      apply Forall_insert; [done|]. simpl. by rewrite Hk'.
  - destruct (ok && bool_decide (is_Some r)); [|done].
    destruct (list_find (λ e, cmp (key e) k' = true) ents) as [[j' e']|] eqn:Ef'.
    + by rewrite (list_find_app_l _ _ _ _ _ Ef').
    + rewrite list_find_app_r by done. simpl.
      rewrite decide_False by (by rewrite Hne). done.
Qed.

(** X3. An insert of a key that is equal to a stored one overwrites the
    value and keeps the stored key and the number of entries; an insert
    of a key equal to none appends one entry at the end when its
    allocations succeed, and changes nothing when one is refused. *)
Theorem X3_insert_entries t ok r (k v : A) :
  reachable cmp t →
  ∃ t', g_hash_table_insert ok r (Some t) k v = Some t' ∧
        reachable cmp t' ∧
        (∀ e, e ∈ records t → cmp (key e) k = true →
           key <$> records t' = key <$> records t ∧
           MkHashEntry (key e) v ∈ records t') ∧
        ((∀ e, e ∈ records t → cmp (key e) k = false) →
           records t' = if ok && bool_decide (is_Some r)
                        then records t ++ [MkHashEntry k v] else records t).
Proof.
  intros Hreach. destruct (reachable_inv _ _ Hreach) as [ents Hinv].
  destruct (g_hash_table_insert_records ok r t ents k v Hinv)
    as (t' & Hins & Hrec).
  exists t'. rewrite (table_inv_records _ _ _ Hinv), Hrec.
  split_and!; [done| | |].
  - by apply (reachable_step cmp t (Insert ok r k v)).
  - intros e He Hk. destruct Hinv as (_ & _ & Hd).
    destruct (list_find_unique ents k e Hd He Hk) as [j Hf]. rewrite Hf.
    apply list_find_Some in Hf as (Hj & _ & _). split.
    + rewrite list_fmap_insert. simpl. apply list_insert_id.
      by rewrite list_lookup_fmap, Hj.
    + apply (list_elem_of_lookup_2 _ j). apply list_lookup_insert_eq.
      by eapply lookup_lt_Some.
  - intros Hno. by rewrite list_find_none.
Qed.

(** X4. A remove answers [TRUE] exactly when a stored key is equal to
    the given one.  Afterwards a lookup of that key returns [NULL], the
    lookups of the keys that are not equal to it return what they
    returned before, and the table has one entry less; a remove that
    answers [FALSE] leaves the entries as they were. *)
Theorem X4_remove t (k : A) :
  reachable cmp t →
  ∃ (b : bool) t',
    g_hash_table_remove (Some t) k = (b, Some t') ∧
    reachable cmp t' ∧
    (b = true ↔ ∃ e, e ∈ records t ∧ cmp (key e) k = true) ∧
    g_hash_table_lookup NULL (Some t') k = NULL ∧
    (∀ k', cmp k k' = false →
       g_hash_table_lookup NULL (Some t') k'
       = g_hash_table_lookup NULL (Some t) k') ∧
    length (records t') = length (records t) - (if b then 1 else 0) ∧
    (b = false → records t' = records t).
Proof.
  destruct Heq as (Hrefl & Hsym & Htrans).
  intros Hreach. destruct (reachable_inv _ _ Hreach) as [ents Hinv].
  pose proof Hinv as (Hcmp & (a & Ha & Hr) & Hd).
  pose proof (repr_len _ _ Hr) as Hlen.
  assert (Hstep : ∀ b t', g_hash_table_remove (Some t) k = (b, Some t') →
                          reachable cmp t').
  { intros b t' Hrm. apply (reachable_step cmp t (RemoveKey k)); [done|].
    cbn [step]. by rewrite Hrm. }
  revert Hstep. unfold g_hash_table_remove. rewrite Ha, Hcmp.
  rewrite (hash_remove_loop_find cmp k a ents (len a) 0 Hr eq_refl), drop_0.
  rewrite (table_inv_records _ _ _ Hinv).
  destruct (list_find _ ents) as [[j e]|] eqn:Ef; intros Hstep.
  - apply list_find_Some in Ef as Hf. destruct Hf as (Hj & Hk & Hmin).
    apply lookup_lt_Some in Hj as Hjlt. simpl in Hk. cbn [Nat.add].
    assert (Hinv' : table_inv cmp
              (MkGHashTable cmp (Some (MkGPtrArray
                 (shift_left (len a - 1 - j) j (pdata a)) (len a - 1))))
              (delete j ents)).
    { split_and!; [done| |].
      - eexists. split; [done|]. apply repr_remove; [done|lia].
      - eapply distinct_from_sublist; [|exact Hd].
        apply sublist_fmap_key, sublist_delete. }
    eexists true, _. split; [done|].
    rewrite (table_inv_records _ _ _ Hinv').
    rewrite !(g_hash_table_lookup_spec NULL cmp _ _ _ Hinv').
    assert (Hother : ∀ e', e' ∈ delete j ents → cmp (key e') k = false).
    { intros e' [i Hi]%list_elem_of_lookup_1.
      rewrite list_lookup_delete in Hi.
      set (i' := if decide (i < j) then i else S i) in *.
      assert (i' ≠ j) by (unfold i'; case_decide; lia).
      destruct (cmp (key e') k) eqn:E; [|done].
      assert (cmp (key e') (key e) = false) as Hfalse.
      { apply (distinct_from_lookup cmp _ Hsym Hd i' j); [done|..];
          by rewrite list_lookup_fmap, ?Hi, ?Hj. }
      rewrite (Htrans (key e') k (key e)) in Hfalse; [done|done|].
      by rewrite Hsym. }
    split_and!.
    + by eapply Hstep.
    + split; [|done]. intros _. exists e. split; [|done].
      by eapply list_elem_of_lookup_2.
    + by rewrite list_find_none.
    + intros k' Hne.
      rewrite (g_hash_table_lookup_spec NULL cmp t ents k' Hinv).
      rewrite (g_hash_table_lookup_spec NULL cmp _ _ k' Hinv').
      assert (Hk' : cmp (key e) k' = false).
      { destruct (cmp (key e) k') eqn:E; [|done].
        rewrite <- Hne. symmetry. apply (Htrans k (key e) k'); [|done].
        by rewrite Hsym. }
      assert (Hsplit : list_find (λ e, cmp (key e) k' = true) ents
                = list_find (λ e, cmp (key e) k' = true)
                    (take j ents ++ e :: drop (S j) ents))
        by (by rewrite take_drop_middle).
      rewrite Hsplit, delete_take_drop.
      destruct (list_find (λ e, cmp (key e) k' = true) (take j ents))
        as [[i x]|] eqn:Et.
      * by rewrite !(list_find_app_l _ _ _ _ _ Et).
      * rewrite !list_find_app_r by done. simpl.
        rewrite decide_False by (by rewrite Hk').
        destruct (list_find _ (drop (S j) ents)) as [[i x]|]; done.
    + rewrite length_delete by (by eexists). done.
    + done.
  - eexists false, _. split; [done|].
    assert (Hinv' : table_inv cmp (MkGHashTable cmp (Some a)) ents).
    { split_and!; [done| |done]. by eexists. }
    rewrite (table_inv_records _ _ _ Hinv').
    rewrite !(g_hash_table_lookup_spec NULL cmp _ _ _ Hinv').
    apply list_find_None in Ef as Hnone.
    split_and!.
    + by eapply Hstep.
    + split; [done|]. intros (e & He & Hk). exfalso.
      by apply (proj1 (Forall_forall _ _) Hnone e He).
    + by rewrite Ef.
    + intros k' _.
      rewrite (g_hash_table_lookup_spec NULL cmp t ents k' Hinv).
      by rewrite (g_hash_table_lookup_spec NULL cmp _ _ k' Hinv').
    + lia.
    + done.
Qed.

(** X5. [g_hash_table_lookup_extended] answers [TRUE] for a key equal
    to a stored one and then hands out the stored key, not the key
    looked up, and the value that [g_hash_table_lookup] returns; for a
    key equal to none it answers [FALSE] and leaves the outputs as they
    were. *)
Theorem X5_lookup_extended t (k : A) (orig_key val : option A) :
  reachable cmp t →
  (∀ e, e ∈ records t → cmp (key e) k = true →
     g_hash_table_lookup_extended (Some t) k orig_key val
     = (true, (λ _, key e) <$> orig_key, (λ _, value e) <$> val)
     ∧ g_hash_table_lookup NULL (Some t) k = value e) ∧
  ((∀ e, e ∈ records t → cmp (key e) k = false) →
     g_hash_table_lookup_extended (Some t) k orig_key val
     = (false, orig_key, val)).
Proof.
  intros Hreach. destruct (reachable_inv _ _ Hreach) as [ents Hinv].
  pose proof Hinv as (Hcmp & (a & Ha & Hr) & Hd).
  rewrite (table_inv_records _ _ _ Hinv).
  rewrite (g_hash_table_lookup_spec NULL cmp t ents k Hinv).
  unfold g_hash_table_lookup_extended. rewrite Ha, Hcmp.
  rewrite (lookup_extended_loop_spec cmp k a ents (len a) 0 Hr eq_refl), drop_0.
  split.
  - intros e He Hk. destruct (list_find_unique ents k e Hd He Hk) as [j ->].
    done.
  - intros Hno. by rewrite list_find_none.
Qed.

End with_equivalence.

(** X6. [g_hash_table_foreach_remove] keeps exactly the entries for
    which the callback answers [FALSE], in their order. *)
Theorem X6_foreach_remove_filter cmp t (f : A → A → bool) :
  reachable cmp t →
  ∃ t', g_hash_table_foreach_remove (Some t) (Some f) = Some t' ∧
        reachable cmp t' ∧
        records t' = filter (λ e, f (key e) (value e) = false) (records t).
Proof.
  intros Hreach. destruct (reachable_inv _ _ Hreach) as [ents Hinv].
  pose proof Hinv as (Hcmp & (a & Ha & Hr) & Hd).
  assert (Hstep : ∀ t', g_hash_table_foreach_remove (Some t) (Some f) = Some t' →
                        reachable cmp t').
  { intros t' Hrm. by apply (reachable_step cmp t (ForeachRemove (Some f))). }
  revert Hstep. unfold g_hash_table_foreach_remove. cbn [mbind option_bind].
  rewrite Ha. intros Hstep. eexists. split; [done|]. split; [by apply Hstep|].
  rewrite (table_inv_records _ _ _ Hinv).
  pose proof (foreach_remove_loop_filter f (len a) 0 a ents Hr eq_refl) as Hr'.
  rewrite take_0, drop_0 in Hr'. simpl in Hr'.
  destruct Hr' as [_ He]. unfold records, entries. simpl. rewrite He.
  generalize (filter (λ e, f (key e) (value e) = false) ents). clear.
  intros l. induction l as [|e l IH]; simpl; [done|]. f_equal. exact IH.
Qed.

(** X7. [g_hash_table_foreach] calls the function once for each entry,
    in the order of insertion, passing the key and the value. *)
Theorem X7_foreach_order {U} cmp t (f : A → A → U → U) (u : U) :
  reachable cmp t →
  g_hash_table_foreach (Some t) (Some f) u
  = foldl (λ u e, f (key e) (value e) u) u (records t).
Proof.
  intros Hreach. destruct (reachable_inv _ _ Hreach) as [ents Hinv].
  pose proof Hinv as (Hcmp & (a & Ha & Hr) & Hd).
  rewrite (table_inv_records _ _ _ Hinv).
  unfold g_hash_table_foreach. rewrite Ha.
  rewrite (foreach_loop_spec f a ents (len a) 0 u Hr eq_refl). by rewrite drop_0.
Qed.

End hash_table_more.

Lemma Z_eqb_equivalence : HTab.equivalence Z.eqb.
Proof.
  split_and!.
  - intros x. apply Z.eqb_refl.
  - intros x y. apply Z.eqb_sym.
  - intros x y z Hxy Hyz. apply Z.eqb_eq in Hxy, Hyz. apply Z.eqb_eq.
    congruence.
Qed.

Lemma example_table_reachable :
  HTab.reachable Z.eqb
    (HTab.MkGHashTable Z.eqb
       (Some (PArr.MkGPtrArray
                [Some (HTab.MkHashEntry 1 10); Some (HTab.MkHashEntry 2 20)]%Z
                2))).
Proof.
  exists [HTab.Insert true (Some (λ _, None)) 1 10;
          HTab.Insert true (Some (λ _, None)) 2 20]%Z.
  reflexivity.
Qed.

Lemma X1_lookup_stored_witness :
  let t := HTab.MkGHashTable Z.eqb
             (Some (PArr.MkGPtrArray
                      [Some (HTab.MkHashEntry 1 10);
                       Some (HTab.MkHashEntry 2 20)]%Z 2)) in
  (∀ e, e ∈ HTab.records t → Z.eqb (HTab.key e) 2 = true →
     HTab.g_hash_table_lookup 0%Z (Some t) 2%Z = HTab.value e) ∧
  ((∀ e, e ∈ HTab.records t → Z.eqb (HTab.key e) 2 = false) →
     HTab.g_hash_table_lookup 0%Z (Some t) 2%Z = 0%Z).
Proof.
  apply (X1_lookup_stored 0%Z Z.eqb Z_eqb_equivalence).
  apply example_table_reachable.
Defined.

Lemma X2_insert_other_keys_witness :
  let t := HTab.MkGHashTable Z.eqb
             (Some (PArr.MkGPtrArray
                      [Some (HTab.MkHashEntry 1 10);
                       Some (HTab.MkHashEntry 2 20)]%Z 2)) in
  HTab.g_hash_table_lookup 0%Z
    (HTab.g_hash_table_insert true (Some (λ _, None)) (Some t) 3 30)%Z 2%Z
  = HTab.g_hash_table_lookup 0%Z (Some t) 2%Z.
Proof.
  apply (X2_insert_other_keys 0%Z Z.eqb Z_eqb_equivalence).
  - apply example_table_reachable.
  - reflexivity.
Defined.

Lemma X3_insert_entries_witness :
  let t := HTab.MkGHashTable Z.eqb
             (Some (PArr.MkGPtrArray
                      [Some (HTab.MkHashEntry 1 10);
                       Some (HTab.MkHashEntry 2 20)]%Z 2)) in
  ∃ t', HTab.g_hash_table_insert true (Some (λ _, None)) (Some t) 2%Z 21%Z
          = Some t' ∧
        HTab.reachable Z.eqb t' ∧
        (∀ e, e ∈ HTab.records t → Z.eqb (HTab.key e) 2 = true →
           HTab.key <$> HTab.records t' = HTab.key <$> HTab.records t ∧
           HTab.MkHashEntry (HTab.key e) 21%Z ∈ HTab.records t') ∧
        ((∀ e, e ∈ HTab.records t → Z.eqb (HTab.key e) 2 = false) →
           HTab.records t'
           = if true && bool_decide (is_Some (Some (λ _ : nat, @None (@HTab.HashEntry Z))))
             then HTab.records t ++ [HTab.MkHashEntry 2%Z 21%Z]
             else HTab.records t).
Proof.
  apply (X3_insert_entries Z.eqb Z_eqb_equivalence).
  apply example_table_reachable.
Defined.

Lemma X4_remove_witness :
  let t := HTab.MkGHashTable Z.eqb
             (Some (PArr.MkGPtrArray
                      [Some (HTab.MkHashEntry 1 10);
                       Some (HTab.MkHashEntry 2 20)]%Z 2)) in
  ∃ (b : bool) t',
    HTab.g_hash_table_remove (Some t) 1%Z = (b, Some t') ∧
    HTab.reachable Z.eqb t' ∧
    (b = true ↔ ∃ e, e ∈ HTab.records t ∧ Z.eqb (HTab.key e) 1 = true) ∧
    HTab.g_hash_table_lookup 0%Z (Some t') 1%Z = 0%Z ∧
    (∀ k', Z.eqb 1 k' = false →
       HTab.g_hash_table_lookup 0%Z (Some t') k'
       = HTab.g_hash_table_lookup 0%Z (Some t) k') ∧
    length (HTab.records t')
      = length (HTab.records t) - (if b then 1 else 0) ∧
    (b = false → HTab.records t' = HTab.records t).
Proof.
  apply (X4_remove 0%Z Z.eqb Z_eqb_equivalence).
  apply example_table_reachable.
Defined.

Lemma X5_lookup_extended_witness :
  let t := HTab.MkGHashTable Z.eqb
             (Some (PArr.MkGPtrArray
                      [Some (HTab.MkHashEntry 1 10);
                       Some (HTab.MkHashEntry 2 20)]%Z 2)) in
  (∀ e, e ∈ HTab.records t → Z.eqb (HTab.key e) 2 = true →
     HTab.g_hash_table_lookup_extended (Some t) 2%Z (Some 7%Z) (Some 8%Z)
     = (true, (λ _, HTab.key e) <$> Some 7%Z, (λ _, HTab.value e) <$> Some 8%Z)
     ∧ HTab.g_hash_table_lookup 0%Z (Some t) 2%Z = HTab.value e) ∧
  ((∀ e, e ∈ HTab.records t → Z.eqb (HTab.key e) 2 = false) →
     HTab.g_hash_table_lookup_extended (Some t) 2%Z (Some 7%Z) (Some 8%Z)
     = (false, Some 7%Z, Some 8%Z)).
Proof.
  apply (X5_lookup_extended 0%Z Z.eqb Z_eqb_equivalence).
  apply example_table_reachable.
Defined.

Lemma X6_foreach_remove_filter_witness :
  let t := HTab.MkGHashTable Z.eqb
             (Some (PArr.MkGPtrArray
                      [Some (HTab.MkHashEntry 1 10);
                       Some (HTab.MkHashEntry 2 20)]%Z 2)) in
  ∃ t', HTab.g_hash_table_foreach_remove (Some t) (Some (λ k v, Z.eqb v 10))
          = Some t' ∧
        HTab.reachable Z.eqb t' ∧
        HTab.records t'
        = filter (λ e, Z.eqb (HTab.value e) 10 = false) (HTab.records t).
Proof.
  apply (X6_foreach_remove_filter Z.eqb).
  apply example_table_reachable.
Defined.

Lemma X7_foreach_order_witness :
  let t := HTab.MkGHashTable Z.eqb
             (Some (PArr.MkGPtrArray
                      [Some (HTab.MkHashEntry 1 10);
                       Some (HTab.MkHashEntry 2 20)]%Z 2)) in
  HTab.g_hash_table_foreach (Some t) (Some (λ k v u, (k, v) :: u)) []
  = foldl (λ u e, (HTab.key e, HTab.value e) :: u) [] (HTab.records t).
Proof.
  apply (X7_foreach_order Z.eqb).
  apply example_table_reachable.
Defined.
